(** * pytext/data/tensorizers.py: field encoders (tensorizers)

    A shallow embedding of the tensorizers of [pytext.data.tensorizers] and of
    [initialize_tensorizers], with the properties the specification states
    about them.

    Conventions.
    - Python [str] is [string]; a character's ordinal is its byte value.
    - Python [int] offsets are [Z] (a synthetic token has start = end = -1);
      list positions, lengths and vocabulary indices are [nat].
    - Python [float] is the kernel's binary64 [float].
    - A row (a Python dict from column name to raw value) is a
      [gmap string value].
    - A raised exception is the [Raise] case of [result]. *)

From Stdlib Require Import ZArith Lia Ascii String List Bool.
From Stdlib Require Import Floats.
From stdpp Require Import base option list gmap strings.

Local Open Scope string_scope.
Local Open Scope list_scope.
Local Open Scope Z_scope.

(** ** Symbols *)

(** Modelled from the spec: [SpecialToken] and the reserved symbols
    [UNK], [PAD], [BOS], [EOS] of [pytext/data/utils.py], which is not among
    the sources.  A reserved symbol is a sentinel distinct from every symbol
    read from a corpus, so symbols are tagged. *)
Inductive symbol : Type :=
| Word (s : string)
| Special (s : string).

#[global] Instance symbol_eq_dec : EqDecision symbol.
Proof. solve_decision. Defined.

Definition UNK : symbol := Special "UNK".
Definition PAD : symbol := Special "PAD".
Definition BOS : symbol := Special "BOS".
Definition EOS : symbol := Special "EOS".

(** [NO_LABEL = SpecialToken("NO_LABEL")] *)
Definition NO_LABEL : symbol := Special "NO_LABEL".

(** The characters of a symbol, for code that iterates over a token value. *)
Definition symbol_str (s : symbol) : string :=
  match s with Word w => w | Special w => w end.

(** ** Raw values, rows, exceptions *)

(** [Token(value, start, end)] of [pytext.data.tokenizers]. *)
Record Token : Type := mkToken {
  tok_value : symbol;
  tok_start : Z;
  tok_end : Z
}.

(** [Slot] of [pytext.utils.data]: a labelled character interval. *)
Record Slot : Type := mkSlot {
  slot_label : string;
  slot_start : Z;
  slot_end : Z
}.

Inductive value : Type :=
| VStr (s : string)
| VSlots (l : list Slot).

(** JSON documents as [json.loads] returns them. *)
#[local] Set Warnings "-register-all".
Inductive json : Type :=
| JNull
| JBool (b : bool)
| JInt (z : Z)
| JFloat (f : float)
| JStr (s : string)
| JList (l : list json)
| JDict (l : list (string * json)).

Inductive exn : Type :=
| KeyError (column : string)
    (* row[column] on a row without that column *)
| UnknownSymbol (s : symbol)
    (* a vocabulary lookup of a symbol it does not hold, UNK not reserved *)
| AttributeError (attr : string)
    (* an attribute read before it was set, or on a value of another type *)
| UnpackError (expected got : nat)
    (* ValueError: not enough values to unpack *)
| FloatParseError (s : string)
    (* ValueError of float(str) *)
| FloatTypeError (j : json)
    (* TypeError of float(x) on a value that is no number or string *)
| OverflowError
| ZeroDivisionError
| IndexError
| RangeAssertion (label : float)
    (* assert 0 <= label <= 1 *)
| DenseParseError (original normalized : string)
    (* Exception("Unable to parse dense feature:..., re output:...") *)
| NotAFloatList (res : json)
    (* ValueError(f"{res} is not a valid float list") *)
| DimensionAssertion (expected : option Z) (got : nat) (res : list json)
    (* assert len(res) == self.dim, "Expected dimension:..., got:..., dense-feature:..." *)
| StopIteration.

Inductive result (A : Type) : Type :=
| Ok (a : A)
| Raise (e : exn).
Arguments Ok {A} a.
Arguments Raise {A} e.

#[global] Instance result_ret : MRet result := fun A a => Ok a.
#[global] Instance result_bind : MBind result := fun A B k r =>
  match r with
  | Ok a => k a
  | Raise e => Raise e
  end.

(** [f] over a list, left to right, stopping at the first exception. *)
Fixpoint mapR {A B} (f : A -> result B) (l : list A) : result (list B) :=
  match l with
  | [] => Ok []
  | a :: l' => b ← f a; bs ← mapR f l'; Ok (b :: bs)
  end.

Definition is_ok {A} (r : result A) : bool :=
  match r with Ok _ => true | Raise _ => false end.

(** [row[column]] *)
Definition getitem (row : gmap string value) (column : string) : result value :=
  match row !! column with
  | Some v => Ok v
  | None => Raise (KeyError column)
  end.

(** [row[column]] where the schema declares a [str]. *)
Definition get_str (row : gmap string value) (column : string) : result string :=
  v ← getitem row column;
  match v with
  | VStr s => Ok s
  | VSlots _ => Raise (AttributeError column)
  end.

(** [row[column]] where the schema declares a [List[Slot]]. *)
Definition get_slots (row : gmap string value) (column : string)
  : result (list Slot) :=
  v ← getitem row column;
  match v with
  | VSlots l => Ok l
  | VStr _ => Raise (AttributeError column)
  end.

(** The first [n] elements of a list, for an [n] that may be large. *)
Fixpoint take_z {A} (n : Z) (l : list A) : list A :=
  match l with
  | [] => []
  | x :: l' => if 0 <? n then x :: take_z (n - 1) l' else []
  end.

(** Python's [l[:n]] for an [int] n: a negative n counts from the end. *)
Definition slice_to {A} (n : Z) (l : list A) : list A :=
  if 0 <=? n then take_z n l else take_z (Z.of_nat (length l) + n) l.

(** ** Vocabulary *)

Fixpoint index_of (s : symbol) (l : list symbol) : option nat :=
  match l with
  | [] => None
  | x :: l' => if decide (x = s) then Some 0%nat else S <$> index_of s l'
  end.

Module Vocab.

(** Modelled from the spec: [Vocab] of [pytext/data/utils.py], which is
    not among the sources: a frozen symbol-to-index map over a list of
    distinct symbols, whose [lookup_all] replaces every symbol by its index
    and an unknown one by the index of UNK when UNK is reserved, and fails
    naming the symbol otherwise. *)
Record t : Type := mk { vocab_list : list symbol }.

Definition lookup (v : t) (s : symbol) : result nat :=
  match index_of s (vocab_list v) with
  | Some i => Ok i
  | None =>
      match index_of UNK (vocab_list v) with
      | Some u => Ok u
      | None => Raise (UnknownSymbol s)
      end
  end.

Definition lookup_all (v : t) (values : list symbol) : result (list nat) :=
  mapR (lookup v) values.

(** [bool(vocab)]: a vocabulary without symbols is falsy. *)
Definition truthy (v : option t) : bool :=
  match v with
  | Some v => match vocab_list v with [] => false | _ => true end
  | None => false
  end.

(** Modelled from the spec: the index-to-symbol reverse lookup [vocab[id]]
    of the absent [Vocab]; an index outside the vocabulary raises. *)
Definition getitem (v : t) (id : nat) : result symbol :=
  match vocab_list v !! id with
  | Some s => Ok s
  | None => Raise IndexError
  end.

End Vocab.

Module VocabBuilder.

(** Modelled from the spec: [VocabBuilder] of [pytext/data/utils.py],
    which is not among the sources: it accumulates the distinct symbols in
    encounter order and freezes them, after the reserved symbols it is
    asked to reserve, into a [Vocab].  A fresh builder reserves UNK and
    PAD (the label encoders switch them off or set them). *)
Record t : Type := mk {
  use_unk : bool;
  use_pad : bool;
  use_bos : bool;
  use_eos : bool;
  counter : list symbol
}.

Definition new : t :=
  {| use_unk := true; use_pad := true; use_bos := false; use_eos := false;
     counter := [] |}.

Definition set_use_unk (b : bool) (vb : t) : t :=
  {| use_unk := b; use_pad := use_pad vb; use_bos := use_bos vb;
     use_eos := use_eos vb; counter := counter vb |}.

Definition set_use_pad (b : bool) (vb : t) : t :=
  {| use_unk := use_unk vb; use_pad := b; use_bos := use_bos vb;
     use_eos := use_eos vb; counter := counter vb |}.

Definition add (vb : t) (s : symbol) : t :=
  {| use_unk := use_unk vb; use_pad := use_pad vb; use_bos := use_bos vb;
     use_eos := use_eos vb;
     counter := if decide (s ∈ counter vb) then counter vb
                else counter vb ++ [s] |}.

Definition add_all (vb : t) (values : list symbol) : t :=
  foldl add vb values.

Definition reserved (vb : t) : list symbol :=
  (if use_unk vb then [UNK] else []) ++ (if use_pad vb then [PAD] else [])
  ++ (if use_bos vb then [BOS] else []) ++ (if use_eos vb then [EOS] else []).

Definition make_vocab (vb : t) : Vocab.t :=
  Vocab.mk (reserved vb ++ counter vb).

End VocabBuilder.

(** ** A sample tokenizer

    The tokenizer is an external collaborator: every encoder below takes it
    as a function from text to tokens.  [space_tokenize] is one such
    function, used to evaluate the encoders on concrete rows: it splits on
    spaces and records the half-open character span of each token. *)

Definition flush (word : list ascii) (start : Z) (acc : list Token)
  : list Token :=
  match word with
  | [] => acc
  | _ =>
      acc ++ [mkToken (Word (string_of_list_ascii word)) start
                (start + Z.of_nat (length word))]
  end.

Fixpoint space_scan (s : list ascii) (pos : Z) (word : list ascii)
    (start : Z) (acc : list Token) : list Token :=
  match s with
  | [] => flush word start acc
  | c :: s' =>
      if Ascii.eqb c " "%char
      then space_scan s' (pos + 1) [] (pos + 1) (flush word start acc)
      else space_scan s' (pos + 1) (word ++ [c]) start acc
  end.

Definition space_tokenize (text : string) : list Token :=
  space_scan (list_ascii_of_string text) 0 [] 0 [].

(** ** WordLabelTensorizer *)

Module WordLabelTensorizer.

Record t : Type := mk {
  slot_column : string;
  text_column : string;
  tokenizer : string -> list Token;
  allow_unknown : bool;
  vocab : option Vocab.t
}.

(** The local variables of the alignment loop of [numberize]. *)
Record loop_state : Type := mkLoop {
  labels : list symbol;
  current_slot : nat;
  current_token : nat
}.

Definition loop_init : loop_state :=
  {| labels := []; current_slot := 0%nat; current_token := 0%nat |}.

(** One evaluation of the loop condition and, when it holds, of the loop
    body; [None] when the condition fails and the loop is left. *)
Definition loop_step (tokens : list Token) (slots : list Slot)
    (st : loop_state) : option loop_state :=
  match tokens !! current_token st, slots !! current_slot st with
  | Some tok, Some slot =>
      if tok_start tok >? slot_end slot then
        Some {| labels := labels st;
                current_slot := S (current_slot st);
                current_token := current_token st |}
      else
        Some {| labels := labels st ++
                   [if tok_end tok >? slot_start slot
                    then Word (slot_label slot) else NO_LABEL];
                current_slot := current_slot st;
                current_token := S (current_token st) |}
  | _, _ => None
  end.

Fixpoint loop (fuel : nat) (tokens : list Token) (slots : list Slot)
    (st : loop_state) : loop_state :=
  match fuel with
  | O => st
  | S fuel' =>
      match loop_step tokens slots st with
      | Some st' => loop fuel' tokens slots st'
      | None => st
      end
  end.

(** The labels the loop leaves behind: every step advances one of the two
    pointers, so [length tokens + length slots] steps reach the exit. *)
Definition align (tokens : list Token) (slots : list Slot) : list symbol :=
  labels (loop (length tokens + length slots) tokens slots loop_init).

Definition numberize (self : t) (row : gmap string value)
  : result (list nat) :=
  slots ← get_slots row (slot_column self);
  text ← get_str row (text_column self);
  let tokens := tokenizer self text in
  let labels := align tokens slots in
  match vocab self with
  | Some v => Vocab.lookup_all v labels
  | None => Raise (AttributeError "vocab")
  end.

End WordLabelTensorizer.

(** ** TokenTensorizer *)

Module TokenTensorizer.

Record t : Type := mk {
  text_column : string;
  tokenizer : string -> list Token;
  vocab : option Vocab.t;
  add_bos_token : bool;
  add_eos_token : bool;
  use_eos_token_for_bos : bool;
  max_seq_len : Z;
  vocab_builder : option VocabBuilder.t
}.

(** [__init__]: [self.max_seq_len = max_seq_len or 2 ** 30]. *)
Definition init (text_column : string) (tokenizer : string -> list Token)
    (add_bos_token add_eos_token use_eos_token_for_bos : bool)
    (max_seq_len : option Z) (vocab : option Vocab.t) : t :=
  {| text_column := text_column;
     tokenizer := tokenizer;
     vocab := vocab;
     add_bos_token := add_bos_token;
     add_eos_token := add_eos_token;
     use_eos_token_for_bos := use_eos_token_for_bos;
     max_seq_len :=
       match max_seq_len with
       | Some n => if n =? 0 then 2 ^ 30 else n
       | None => 2 ^ 30
       end;
     vocab_builder := None |}.

(** The token list of [_lookup_tokens] before the unpacking: truncation,
    then the boundary tokens. *)
Definition tokenized (self : t) (text : string) : list Token :=
  let tokenized := slice_to (max_seq_len self) (tokenizer self text) in
  let tokenized :=
    if add_bos_token self then
      let bos := if use_eos_token_for_bos self then EOS else BOS in
      mkToken bos (-1) (-1) :: tokenized
    else tokenized in
  if add_eos_token self then tokenized ++ [mkToken EOS (-1) (-1)]
  else tokenized.

(** The number of boundary tokens the configuration asks for. *)
Definition boundary_count (self : t) : Z :=
  (if add_bos_token self then 1 else 0) + (if add_eos_token self then 1 else 0).

(** [tokenized_texts, start_idx, end_idx = zip( * triples)]: the
    transposition of no triples is empty, and unpacking it into three
    names fails. *)
Definition unzip3 (l : list Token)
  : result (list symbol * list Z * list Z) :=
  match l with
  | [] => Raise (UnpackError 3 0)
  | _ => Ok (map tok_value l, map tok_start l, map tok_end l)
  end.

Definition _lookup_tokens (self : t) (text : string)
  : result (list nat * list Z * list Z) :=
  '(tokenized_texts, start_idx, end_idx) ← unzip3 (tokenized self text);
  match vocab self with
  | Some v =>
      tokens ← Vocab.lookup_all v tokenized_texts;
      Ok (tokens, start_idx, end_idx)
  | None => Raise (AttributeError "lookup_all")
  end.

Definition numberize (self : t) (row : gmap string value)
  : result (list nat * nat) :=
  text ← get_str row (text_column self);
  '(tokens, _, _) ← _lookup_tokens self text;
  Ok (tokens, length tokens).

(** [_reverse_lookup]: [[self.vocab[id] for id in token_ids]] *)
Definition _reverse_lookup (self : t) (token_ids : list nat)
  : result (list symbol) :=
  match vocab self with
  | Some v => mapR (Vocab.getitem v) token_ids
  | None => Raise (AttributeError "getitem")
  end.

(** [sort_key]: [row[1]], the sequence length of a numberized row. *)
Definition sort_key (row : list nat * nat) : nat := row.2.

(** The boundary symbol [_lookup_tokens] puts in front. *)
Definition bos_symbol (self : t) : symbol :=
  if use_eos_token_for_bos self then EOS else BOS.

End TokenTensorizer.

(** ** CharacterTokenTensorizer *)

Module CharacterTokenTensorizer.

(** A [TokenTensorizer] with one more attribute. *)
Record t : Type := mk {
  base : TokenTensorizer.t;
  max_char_length : Z
}.

Definition _numberize_token (token : Token) : list nat :=
  map nat_of_ascii (list_ascii_of_string (symbol_str (tok_value token))).

Definition numberize (self : t) (row : gmap string value)
  : result (list (list nat) * list nat) :=
  text ← get_str row (TokenTensorizer.text_column (base self));
  let tokens :=
    slice_to (TokenTensorizer.max_seq_len (base self))
      (TokenTensorizer.tokenizer (base self) text) in
  let characters :=
    map (fun token => slice_to (max_char_length self) (_numberize_token token))
      tokens in
  let lengths := map (fun token_chars => length token_chars) characters in
  Ok (characters, lengths).

(** The encoding the specification describes: the token list of the token
    encoder, boundary tokens included, and for every token its codes cut
    at [max_char_length] with the number of characters of the token. *)
Definition numberize_with_boundaries (self : t) (row : gmap string value)
  : result (list (list nat) * list nat) :=
  text ← get_str row (TokenTensorizer.text_column (base self));
  let tokens := TokenTensorizer.tokenized (base self) text in
  Ok (map (fun token => slice_to (max_char_length self) (_numberize_token token))
        tokens,
      map (fun token => length (_numberize_token token)) tokens).

(** [sort_key]: [len(row[0])], the number of tokens of a numberized row. *)
Definition sort_key (row : list (list nat) * list nat) : nat := length row.1.

End CharacterTokenTensorizer.

(** ** LabelTensorizer *)

(** [str.split(sep)] for a one-character separator. *)
Fixpoint split_chars (sep : ascii) (s : list ascii) (cur : list ascii)
  : list string :=
  match s with
  | [] => [string_of_list_ascii cur]
  | c :: s' =>
      if Ascii.eqb c sep then string_of_list_ascii cur :: split_chars sep s' []
      else split_chars sep s' (cur ++ [c])
  end.

Definition split (s : string) (sep : ascii) : list string :=
  split_chars sep (list_ascii_of_string s) [].

(** Modelled from the spec: what [Vocab.lookup_all] (of the absent
    [pytext/data/utils.py]) does with a [str] argument.  The spec gives
    [lookup_all] on an iterable of symbols.  A [str] handed to it is either
    one symbol, looked up whole and answered by one index, or an iterable of
    its characters, each looked up; both readings are kept. *)
Inductive str_reading : Type := WholeString | EachCharacter.

Inductive indices : Type :=
| Index (i : nat)
| Indices (l : list nat).

Definition lookup_all_str (reading : str_reading) (v : Vocab.t) (s : string)
  : result indices :=
  match reading with
  | WholeString => i ← Vocab.lookup v (Word s); Ok (Index i)
  | EachCharacter =>
      l ← Vocab.lookup_all v
            (map (fun c => Word (String c EmptyString)) (list_ascii_of_string s));
      Ok (Indices l)
  end.

Module LabelTensorizer.

Record t : Type := mk {
  label_column : string;
  allow_unknown : bool;
  labels : option Vocab.t
}.

(** [self.labels.lookup_all(row[self.label_column])]: the column's string
    goes to the vocabulary as it is. *)
Definition numberize (reading : str_reading) (self : t)
    (row : gmap string value) : result indices :=
  s ← get_str row (label_column self);
  match labels self with
  | Some v => lookup_all_str reading v s
  | None => Raise (AttributeError "labels")
  end.

(** The encoding the specification describes: split on the delimiter of
    [initialize], then look every segment up. *)
Definition numberize_split (self : t) (row : gmap string value)
  : result indices :=
  s ← get_str row (label_column self);
  match labels self with
  | Some v => l ← Vocab.lookup_all v (map Word (split s ",")); Ok (Indices l)
  | None => Raise (AttributeError "labels")
  end.

End LabelTensorizer.

(** ** Python's numeric built-ins *)

(** [float(n)] for an [int]: the nearest binary64 value, ties to even, and
    [OverflowError] when that is no finite value. *)
Definition float_of_int (z : Z) : result float :=
  let f := SF2Prim (binary_normalize prec emax z 0 false) in
  if is_infinity f then Raise OverflowError else Ok f.

(** The binary64 value nearest to [m / 10 ^ k], as the reading of a decimal
    literal with digits [m] of which [k] follow the point. *)
Definition float_of_digits (neg : bool) (m : Z) (k : nat) : float :=
  match m with
  | Zpos p =>
      SF2Prim (SFdiv prec emax (S754_finite neg p 0)
                 (S754_finite false (Z.to_pos (10 ^ Z.of_nat k)) 0))
  | _ => if neg then neg_zero else zero
  end.

Definition is_digit (c : ascii) : bool :=
  let n := nat_of_ascii c in (48 <=? n)%nat && (n <=? 57)%nat.

Definition digit_value (c : ascii) : Z := Z.of_nat (nat_of_ascii c) - 48.

(** The longest run of digits at the head of [s], its value and its length. *)
Fixpoint digits (s : list ascii) (acc : Z) (n : nat)
  : Z * nat * list ascii :=
  match s with
  | c :: s' =>
      if is_digit c then digits s' (10 * acc + digit_value c) (S n)
      else (acc, n, s)
  | [] => (acc, n, s)
  end.

(** [float(s)] on the plain decimal literals: an optional sign, digits, and
    optionally a point and more digits, with at least one digit.  It is the
    instance of the built-in the examples below are evaluated with; the
    encoders take the built-in as a parameter. *)
Definition float_of_decimal (s : string) : option float :=
  let cs := list_ascii_of_string s in
  let '(neg, cs) :=
    match cs with
    | "-"%char :: r => (true, r)
    | "+"%char :: r => (false, r)
    | _ => (false, cs)
    end in
  let '(m, n, rest) := digits cs 0 0 in
  match rest with
  | [] => if (0 <? n)%nat then Some (float_of_digits neg m 0) else None
  | "."%char :: rest' =>
      let '(m', n', rest'') := digits rest' m 0 in
      match rest'' with
      | [] => if (0 <? n + n')%nat then Some (float_of_digits neg m' n')
              else None
      | _ => None
      end
  | _ => None
  end.

(** ** NumericLabelTensorizer *)

Module NumericLabelTensorizer.

Record t : Type := mk {
  label_column : string;
  rescale_range : option (list float)
}.

Inductive config_error : Type := RangeLength | RangeOrder.

(** [__init__] with its two assertions on the range. *)
Definition init (label_column : string) (rescale_range : option (list float))
  : config_error + t :=
  match rescale_range with
  | Some r =>
      if negb (length r =? 2)%nat then inl RangeLength
      else if negb (nth 0 r nan <? nth 1 r nan)%float then inl RangeOrder
      else inr (mk label_column rescale_range)
  | None => inr (mk label_column rescale_range)
  end.

Definition item (r : list float) (i : nat) : result float :=
  match r !! i with
  | Some x => Ok x
  | None => Raise IndexError
  end.

(** Python raises on a float division by zero. *)
Definition truediv (x y : float) : result float :=
  if (y =? 0)%float then Raise ZeroDivisionError else Ok (x / y)%float.

Definition in_unit_interval (label : float) : bool :=
  (0 <=? label)%float && (label <=? 1)%float.

Section Numberize.
(** [float] applied to a [str]. *)
Variable float_of_str : string -> option float.

Definition numberize (self : t) (row : gmap string value) : result float :=
  s ← get_str row (label_column self);
  label ← match float_of_str s with
          | Some x => Ok x
          | None => Raise (FloatParseError s)
          end;
  match rescale_range self with
  | Some r =>
      lo ← item r 0;
      let label := (label - lo)%float in
      hi ← item r 1;
      lo ← item r 0;
      label ← truediv label (hi - lo)%float;
      if in_unit_interval label then Ok label
      else Raise (RangeAssertion label)
  | None => Ok label
  end.
End Numberize.

End NumericLabelTensorizer.

(** ** Regular expressions of [FloatListTensorizer.numberize]

    The four patterns are sequences of character classes, each taken once,
    optionally, or one or more times.  Matching is Python's: leftmost, greedy,
    giving characters back when what follows fails to match. *)

Inductive atom : Type :=
| One (p : ascii -> bool)        (* a character of the class *)
| Many (p : ascii -> bool)       (* class+ *)
| Maybe (p : ascii -> bool).     (* class? *)

(** The matcher gives the text every atom took, and the rest of the input. *)
Definition matched : Type := (list (list ascii) * list ascii)%type.

(** Zero or more characters of [p], as many as [k] lets through. *)
Fixpoint many (p : ascii -> bool) (k : list ascii -> option matched)
    (s : list ascii) : option (list ascii * matched) :=
  match s with
  | c :: s' =>
      if p c then
        match many p k s' with
        | Some (m, r) => Some (c :: m, r)
        | None => pair [] <$> k s
        end
      else pair [] <$> k s
  | [] => pair [] <$> k s
  end.

Fixpoint match_here (pat : list atom) (s : list ascii) : option matched :=
  match pat with
  | [] => Some ([], s)
  | One p :: pat' =>
      match s with
      | c :: s' =>
          if p c then '(gs, r) ← match_here pat' s'; Some ([c] :: gs, r)
          else None
      | [] => None
      end
  | Many p :: pat' =>
      match s with
      | c :: s' =>
          if p c then
            '(m, (gs, r)) ← many p (match_here pat') s'; Some ((c :: m) :: gs, r)
          else None
      | [] => None
      end
  | Maybe p :: pat' =>
      let skip := '(gs, r) ← match_here pat' s; Some ([] :: gs, r) in
      match s with
      | c :: s' =>
          if p c then
            match match_here pat' s' with
            | Some (gs, r) => Some ([c] :: gs, r)
            | None => skip
            end
          else skip
      | [] => skip
      end
  end.

(** [re.sub] for a pattern that matches no empty text: scan from the left,
    replace a match and go on after it, copy a character where none starts. *)
Fixpoint sub_scan (pat : list atom) (repl : list (list ascii) -> list ascii)
    (skip : nat) (s : list ascii) : list ascii :=
  match s with
  | [] => []
  | c :: s' =>
      match skip with
      | S k => sub_scan pat repl k s'
      | O =>
          match match_here pat s with
          | Some (gs, _) =>
              match length (concat gs) with
              | S k => repl gs ++ sub_scan pat repl k s'
              | O => c :: sub_scan pat repl 0 s'
              end
          | None => c :: sub_scan pat repl 0 s'
          end
      end
  end.

Definition re_sub (pat : list atom) (repl : list (list ascii) -> list ascii)
    (s : string) : string :=
  string_of_list_ascii (sub_scan pat repl 0 (list_ascii_of_string s)).

Definition is_char (c : ascii) : ascii -> bool := Ascii.eqb c.

Definition const_repl (s : string) : list (list ascii) -> list ascii :=
  fun _ => list_ascii_of_string s.

(** The group [i] of a match, counting the atoms from 0. *)
Definition group (i : nat) (gs : list (list ascii)) : list ascii :=
  nth i gs [].

(** ** A fragment of [json.loads]

    [json.loads] is a parameter of [FloatListTensorizer.numberize].  The
    function below is the instance the examples are evaluated with.  It reads
    the documents written with brackets, commas, whitespace, signs, digits,
    points and the literals [true], [false], [null], [NaN] and [Infinity],
    and on such a text it decides JSON's grammar; strings, objects and
    exponents are outside it. *)

Definition is_ws (c : ascii) : bool :=
  let n := nat_of_ascii c in
  (n =? 32)%nat || (n =? 9)%nat || (n =? 10)%nat || (n =? 13)%nat.

Fixpoint skip_ws (s : list ascii) : list ascii :=
  match s with
  | c :: s' => if is_ws c then skip_ws s' else s
  | [] => []
  end.

Fixpoint strip_prefix (p s : list ascii) : option (list ascii) :=
  match p, s with
  | [], _ => Some s
  | a :: p', b :: s' => if Ascii.eqb a b then strip_prefix p' s' else None
  | _ :: _, [] => None
  end.

Definition json_number (s : list ascii) : option (json * list ascii) :=
  let '(neg, s1) :=
    match s with
    | "-"%char :: r => (true, r)
    | _ => (false, s)
    end in
  let '(m, n, rest) := digits s1 0 0 in
  let leading_zero :=
    match s1 with
    | "0"%char :: _ => (1 <? n)%nat
    | _ => false
    end in
  if (n =? 0)%nat || leading_zero then None
  else
    match rest with
    | "."%char :: rest' =>
        let '(m', n', rest'') := digits rest' m 0 in
        if (n' =? 0)%nat then None
        else Some (JFloat (float_of_digits neg m' n'), rest'')
    | _ => Some (JInt (if neg then - m else m), rest)
    end.

Definition json_literals : list (string * json) :=
  [("true", JBool true); ("false", JBool false); ("null", JNull);
   ("NaN", JFloat nan); ("Infinity", JFloat infinity);
   ("-Infinity", JFloat neg_infinity)].

Fixpoint json_literal (table : list (string * json)) (s : list ascii)
  : option (json * list ascii) :=
  match table with
  | [] => None
  | (name, v) :: table' =>
      match strip_prefix (list_ascii_of_string name) s with
      | Some r => Some (v, r)
      | None => json_literal table' s
      end
  end.

Fixpoint json_value (fuel : nat) (s : list ascii) {struct fuel}
  : option (json * list ascii) :=
  match fuel with
  | O => None
  | S fuel' =>
      match s with
      | "["%char :: r =>
          match skip_ws r with
          | "]"%char :: r' => Some (JList [], r')
          | r' => json_elements fuel' r' []
          end
      | _ =>
          match json_literal json_literals s with
          | Some res => Some res
          | None => json_number s
          end
      end
  end
with json_elements (fuel : nat) (s : list ascii) (acc : list json)
    {struct fuel} : option (json * list ascii) :=
  match fuel with
  | O => None
  | S fuel' =>
      match json_value fuel' s with
      | Some (v, r) =>
          match skip_ws r with
          | ","%char :: r' => json_elements fuel' (skip_ws r') (acc ++ [v])
          | "]"%char :: r' => Some (JList (acc ++ [v]), r')
          | _ => None
          end
      | None => None
      end
  end.

Definition json_loads_fragment (s : string) : option json :=
  let cs := list_ascii_of_string s in
  match json_value (2 * S (length cs)) (skip_ws cs) with
  | Some (v, r) => match skip_ws r with [] => Some v | _ => None end
  | None => None
  end.

(** ** FloatListTensorizer *)

Module FloatListTensorizer.

Record t : Type := mk {
  column : string;
  error_check : bool;
  dim : option Z
}.

(** [re.sub(r"\[ +", "[", ...)]: strip spaces after [ *)
Definition strip_begin (s : string) : string :=
  re_sub [One (is_char "["); Many (is_char " ")] (const_repl "[") s.

(** [re.sub(r" +\]", "]", ...)]: strip spaces before ] *)
Definition strip_end (s : string) : string :=
  re_sub [Many (is_char " "); One (is_char "]")] (const_repl "]") s.

(** [re.sub(r"([0-9]+)[.]([^0-9]+)", "\\1.0\\2", ...)]: 3. becomes 3.0 *)
Definition point_fixed (s : string) : string :=
  re_sub [Many is_digit; One (is_char "."); Many (fun c => negb (is_digit c))]
    (fun gs => group 0 gs ++ list_ascii_of_string ".0" ++ group 2 gs) s.

(** [re.sub(r",? +", ",", ...)] *)
Definition json_input (s : string) : string :=
  re_sub [Maybe (is_char ","); Many (is_char " ")] (const_repl ",") s.

Definition normalize (s : string) : string :=
  json_input (point_fixed (strip_end (strip_begin s))).

Section Numberize.
(** [json.loads], with [None] for [JSONDecodeError], and [float] applied
    to a [str]. *)
Variable json_loads : string -> option json.
Variable float_of_str : string -> option float.

(** [float(n)] for an element of the parsed list. *)
Definition float_of_json (n : json) : result float :=
  match n with
  | JInt z => float_of_int z
  | JFloat f => Ok f
  | JBool b => Ok (if b then 1 else 0)%float
  | JStr s =>
      match float_of_str s with
      | Some f => Ok f
      | None => Raise (FloatParseError s)
      end
  | _ => Raise (FloatTypeError n)
  end.

Definition numberize (self : t) (row : gmap string value)
  : result (list float) :=
  s ← get_str row (column self);
  let json_input := normalize s in
  match json_loads json_input with
  | None => Raise (DenseParseError s json_input)
  | Some res =>
      match res with
      | JList l =>
          _ ← (if error_check self then
                  if decide (Some (Z.of_nat (length l)) = dim self)
                  then Ok tt
                  else Raise (DimensionAssertion (dim self) (length l) l)
                else Ok tt);
          mapR float_of_json l
      | _ => Raise (NotAFloatList res)
      end
  end.
End Numberize.

End FloatListTensorizer.

(** ** The initialization coroutines

    [tensorizer.initialize()] makes a generator object over the tensorizer.
    Tensorizers are objects: the world holds them by address, and a dict of
    tensorizers maps names to addresses, so that one object may stand under
    two names.  A generator frame holds the address of [self], the point where
    the body stands and the body's local [builder]. *)

Inductive tensorizer : Type :=
| TToken (t : TokenTensorizer.t)
| TCharacterToken (t : CharacterTokenTensorizer.t)
| TLabel (t : LabelTensorizer.t)
| TNumericLabel (t : NumericLabelTensorizer.t)
| TFloatList (t : FloatListTensorizer.t)
| TWordLabel (t : WordLabelTensorizer.t)
| TOther.
  (* ByteTensorizer, RawString, JoinStringTensorizer, RawJson,
     MetricTensorizer, NtokensTensorizer: no attribute of theirs is read here *)

Inductive frame : Type :=
| Created
    (* the body has not started *)
| Suspended (builder : option VocabBuilder.t)
    (* at [row = yield]; the local [builder] of the label encoders *)
| Finished.

Record generator : Type := mkGen {
  gen_self : nat;
  gen_frame : frame
}.

Record world : Type := mkWorld {
  heap : list tensorizer;
  gens : list generator
}.

Definition set_frame (g : nat) (f : frame) (w : world) : world :=
  {| heap := heap w;
     gens := alter (fun x => mkGen (gen_self x) f) g (gens w) |}.

Definition set_object (a : nat) (o : tensorizer) (w : world) : world :=
  {| heap := <[a := o]> (heap w); gens := gens w |}.

(** [tensorizer.initialize()]: a new generator object; nothing of the body
    runs yet. *)
Definition initialize (self : nat) (w : world) : nat * world :=
  (length (gens w),
   {| heap := heap w; gens := gens w ++ [mkGen self Created] |}).

Definition with_vocab_builder (t : TokenTensorizer.t)
    (b : option VocabBuilder.t) : TokenTensorizer.t :=
  {| TokenTensorizer.text_column := TokenTensorizer.text_column t;
     TokenTensorizer.tokenizer := TokenTensorizer.tokenizer t;
     TokenTensorizer.vocab := TokenTensorizer.vocab t;
     TokenTensorizer.add_bos_token := TokenTensorizer.add_bos_token t;
     TokenTensorizer.add_eos_token := TokenTensorizer.add_eos_token t;
     TokenTensorizer.use_eos_token_for_bos :=
       TokenTensorizer.use_eos_token_for_bos t;
     TokenTensorizer.max_seq_len := TokenTensorizer.max_seq_len t;
     TokenTensorizer.vocab_builder := b |}.

Definition with_vocab (t : TokenTensorizer.t) (v : option Vocab.t)
  : TokenTensorizer.t :=
  {| TokenTensorizer.text_column := TokenTensorizer.text_column t;
     TokenTensorizer.tokenizer := TokenTensorizer.tokenizer t;
     TokenTensorizer.vocab := v;
     TokenTensorizer.add_bos_token := TokenTensorizer.add_bos_token t;
     TokenTensorizer.add_eos_token := TokenTensorizer.add_eos_token t;
     TokenTensorizer.use_eos_token_for_bos :=
       TokenTensorizer.use_eos_token_for_bos t;
     TokenTensorizer.max_seq_len := TokenTensorizer.max_seq_len t;
     TokenTensorizer.vocab_builder := TokenTensorizer.vocab_builder t |}.

(** The body of an [initialize] from its start to the first [yield]:
    [Tensorizer.initialize] returns at once, [TokenTensorizer.initialize]
    returns when it has a vocabulary and otherwise puts a builder in [self],
    the label encoders set up their local builder. *)
Definition start (g self : nat) (w : world) : result unit * world :=
  match heap w !! self with
  | Some (TToken t) =>
      if Vocab.truthy (TokenTensorizer.vocab t)
      then (Raise StopIteration, set_frame g Finished w)
      else (Ok tt,
            set_frame g (Suspended None)
              (set_object self
                 (TToken (with_vocab_builder t (Some VocabBuilder.new))) w))
  | Some (TLabel t) =>
      let builder := VocabBuilder.new in
      let builder := VocabBuilder.set_use_pad false builder in
      let builder :=
        VocabBuilder.set_use_unk (LabelTensorizer.allow_unknown t) builder in
      (Ok tt, set_frame g (Suspended (Some builder)) w)
  | Some (TWordLabel t) =>
      let builder := VocabBuilder.new in
      let builder := VocabBuilder.add builder NO_LABEL in
      let builder :=
        VocabBuilder.set_use_unk (WordLabelTensorizer.allow_unknown t) builder in
      (Ok tt, set_frame g (Suspended (Some builder)) w)
  | Some _ => (Raise StopIteration, set_frame g Finished w)
  | None => (Raise (AttributeError "initialize"), set_frame g Finished w)
  end.

(** One turn of the [while True] loop: the body from [row = yield], resumed
    with [row], back to the [yield].  An exception leaves the generator
    finished. *)
Definition resume (g self : nat) (builder : option VocabBuilder.t)
    (row : gmap string value) (w : world) : result unit * world :=
  let fail e := (Raise e, set_frame g Finished w) in
  match heap w !! self, builder with
  | Some (TToken t), _ =>
      match get_str row (TokenTensorizer.text_column t) with
      | Ok raw_text =>
          let tokenized := TokenTensorizer.tokenizer t raw_text in
          match TokenTensorizer.vocab_builder t with
          | Some b =>
              (Ok tt,
               set_object self
                 (TToken (with_vocab_builder t
                            (Some (VocabBuilder.add_all b
                                     (map tok_value tokenized))))) w)
          | None => fail (AttributeError "add_all")
          end
      | Raise e => fail e
      end
  | Some (TLabel t), Some b =>
      match get_str row (LabelTensorizer.label_column t) with
      | Ok labels =>
          (Ok tt,
           set_frame g
             (Suspended (Some (VocabBuilder.add_all b
                                 (map Word (split labels ","))))) w)
      | Raise e => fail e
      end
  | Some (TWordLabel t), Some b =>
      match get_slots row (WordLabelTensorizer.slot_column t) with
      | Ok slots =>
          (Ok tt,
           set_frame g
             (Suspended (Some (VocabBuilder.add_all b
                                 (map (fun s => Word (slot_label s)) slots)))) w)
      | Raise e => fail e
      end
  | _, _ => fail (AttributeError "initialize")
  end.

(** [init.send(x)] *)
Definition send (g : nat) (x : option (gmap string value)) (w : world)
  : result unit * world :=
  match gens w !! g with
  | Some (mkGen self Created) =>
      match x with
      | None => start g self w
      | Some _ => (Raise (AttributeError "send"), w)
          (* TypeError: can't send non-None value to a just-started generator *)
      end
  | Some (mkGen self (Suspended builder)) =>
      match x with
      | Some row => resume g self builder row w
      | None => (Raise (AttributeError "getitem"), set_frame g Finished w)
          (* TypeError: 'NoneType' object is not subscriptable *)
      end
  | Some (mkGen _ Finished) => (Raise StopIteration, w)
  | None => (Raise (AttributeError "send"), w)
  end.

(** [init.close()]: [GeneratorExit] is raised at the [yield] where the body
    stands, and the handler of the body freezes the vocabulary. *)
Definition close (g : nat) (w : world) : world :=
  match gens w !! g with
  | Some (mkGen self (Suspended builder)) =>
      let w := set_frame g Finished w in
      match heap w !! self, builder with
      | Some (TToken t), _ =>
          match TokenTensorizer.vocab_builder t with
          | Some b =>
              set_object self
                (TToken (with_vocab t (Some (VocabBuilder.make_vocab b)))) w
          | None => w
          end
      | Some (TLabel t), Some b =>
          set_object self
            (TLabel (LabelTensorizer.mk (LabelTensorizer.label_column t)
                       (LabelTensorizer.allow_unknown t)
                       (Some (VocabBuilder.make_vocab b)))) w
      | Some (TWordLabel t), Some b =>
          set_object self
            (TWordLabel
               (WordLabelTensorizer.mk (WordLabelTensorizer.slot_column t)
                  (WordLabelTensorizer.text_column t)
                  (WordLabelTensorizer.tokenizer t)
                  (WordLabelTensorizer.allow_unknown t)
                  (Some (VocabBuilder.make_vocab b)))) w
      | _, _ => w
      end
  | Some (mkGen _ Created) => set_frame g Finished w
  | _ => w
  end.

(** ** initialize_tensorizers *)

(** The calls the function makes on generator objects, in order. *)
Inductive event : Type :=
| Primed (g : nat) (suspended : bool)
    (* [init.send(None)], and whether it came back from a [yield] *)
| Sent (g : nat) (row : gmap string value)
    (* [init.send(row)] *)
| Closed (g : nat).
    (* [init.close()] *)

(** [[tensorizer.initialize() for tensorizer in tensorizers.values()]] *)
Fixpoint create (values : list nat) (w : world) : list nat * world :=
  match values with
  | [] => ([], w)
  | self :: rest =>
      let '(g, w1) := initialize self w in
      let '(gs, w2) := create rest w1 in
      (g :: gs, w2)
  end.

(** The first loop: kick every generator, keep those that suspended. *)
Fixpoint prime (inits : list nat) (w : world)
  : result (list nat) * world * list event :=
  match inits with
  | [] => (Ok [], w, [])
  | init :: rest =>
      match send init None w with
      | (Ok _, w1) =>
          let '(r, w2, tr) := prime rest w1 in
          (initializers ← r; Ok (init :: initializers), w2,
           Primed init true :: tr)
      | (Raise StopIteration, w1) =>
          let '(r, w2, tr) := prime rest w1 in
          (r, w2, Primed init false :: tr)
      | (Raise e, w1) => (Raise e, w1, [])
      end
  end.

(** [for init in initializers: init.send(row)] *)
Fixpoint send_all (initializers : list nat) (row : gmap string value)
    (w : world) : result unit * world * list event :=
  match initializers with
  | [] => (Ok tt, w, [])
  | init :: rest =>
      match send init (Some row) w with
      | (Ok _, w1) =>
          let '(r, w2, tr) := send_all rest row w1 in
          (r, w2, Sent init row :: tr)
      | (Raise e, w1) => (Raise e, w1, [Sent init row])
      end
  end.

(** [for row in data_source: ...] *)
Fixpoint feed (data_source : list (gmap string value))
    (initializers : list nat) (w : world)
  : result unit * world * list event :=
  match data_source with
  | [] => (Ok tt, w, [])
  | row :: rest =>
      match send_all initializers row w with
      | (Ok _, w1, tr1) =>
          let '(r, w2, tr2) := feed rest initializers w1 in
          (r, w2, tr1 ++ tr2)
      | (Raise e, w1, tr1) => (Raise e, w1, tr1)
      end
  end.

Definition initialize_tensorizers (tensorizers : list (string * nat))
    (data_source : list (gmap string value)) (w : world)
  : result unit * world * list event :=
  let '(inits, w0) := create (map snd tensorizers) w in
  match prime inits w0 with
  | (Ok initializers, w1, tr1) =>
      match initializers with
      | [] => (Ok tt, w1, tr1)
      | _ =>
          let '(r, w2, tr2) := feed data_source initializers w1 in
          (r, w2, tr1 ++ tr2)
      end
  | (Raise e, w1, tr1) => (Raise e, w1, tr1)
  end.

(** The rows a trace sends to the generator [g], in order. *)
Definition sent_to (g : nat) (tr : list event) : list (gmap string value) :=
  omap (fun e =>
          match e with
          | Sent g' row => if decide (g' = g) then Some row else None
          | _ => None
          end) tr.

Definition frame_of (g : nat) (w : world) : option frame :=
  gen_frame <$> gens w !! g.

(** ** Sample rows and encoders *)

Definition play_the_song : list Token :=
  [mkToken (Word "play") 0 4; mkToken (Word "the") 5 8;
   mkToken (Word "song") 9 13].

(** The vocabulary [WordLabelTensorizer.initialize] freezes after rows whose
    slots are labelled [labels]. *)
Definition slot_vocab (allow_unknown : bool) (labels : list string) : Vocab.t :=
  VocabBuilder.make_vocab
    (VocabBuilder.add_all
       (VocabBuilder.set_use_unk allow_unknown
          (VocabBuilder.add VocabBuilder.new NO_LABEL))
       (map Word labels)).

Definition slot_encoder : WordLabelTensorizer.t :=
  WordLabelTensorizer.mk "slots" "text" space_tokenize false
    (Some (slot_vocab false ["song_name"; "verb"])).

Definition song_row (slots : list Slot) : gmap string value :=
  {[ "text" := VStr "play the song"; "slots" := VSlots slots ]}.

(** The vocabulary [TokenTensorizer.initialize] freezes after a corpus with
    the words [words]. *)
Definition word_vocab (words : list string) : Vocab.t :=
  VocabBuilder.make_vocab (VocabBuilder.add_all VocabBuilder.new (map Word words)).

Definition token_encoder (add_bos add_eos : bool) (max_seq_len : option Z)
  : TokenTensorizer.t :=
  TokenTensorizer.init "text" space_tokenize add_bos add_eos false max_seq_len
    (Some (word_vocab ["play"; "the"; "song"])).

Definition text_row (text : string) : gmap string value :=
  {[ "text" := VStr text ]}.

Definition character_encoder : CharacterTokenTensorizer.t :=
  CharacterTokenTensorizer.mk (token_encoder true true (Some 2)) 3.

Definition dense_encoder (error_check : bool) (dim : option Z)
  : FloatListTensorizer.t :=
  FloatListTensorizer.mk "dense" error_check dim.

Definition dense_row (s : string) : gmap string value :=
  {[ "dense" := VStr s ]}.

Definition rescaled_encoder : NumericLabelTensorizer.t :=
  NumericLabelTensorizer.mk "label" (Some [0; 10]%float).

Definition label_row (s : string) : gmap string value :=
  {[ "label" := VStr s ]}.

(** A world with one label encoder, and the encoder as it stands after
    [initialize_tensorizers] over [rows] and the closing of its generator. *)
Definition label_world : world :=
  mkWorld [TLabel (LabelTensorizer.mk "label" false None)] [].

Definition label_encoder_after (rows : list (gmap string value))
  : option LabelTensorizer.t :=
  let '(_, w, _) := initialize_tensorizers [("label", 0%nat)] rows label_world in
  match heap (close 0 w) !! 0%nat with
  | Some (TLabel t) => Some t
  | _ => None
  end.

(** A world with a label encoder, a token encoder and an encoder that
    inherits [Tensorizer.initialize], and a corpus of two rows. *)
Definition mixed_world : world :=
  mkWorld
    [TLabel (LabelTensorizer.mk "label" false None);
     TToken (TokenTensorizer.init "text" space_tokenize false false false
               None None);
     TOther] [].

Definition mixed_tensorizers : list (string * nat) :=
  [("label", 0%nat); ("tokens", 1%nat); ("raw", 2%nat)].

Definition corpus : list (gmap string value) :=
  [ {[ "label" := VStr "a,b"; "text" := VStr "play the song" ]};
    {[ "label" := VStr "b"; "text" := VStr "the end" ]} ].

(** ** Invariants *)

(** What every state of the alignment loop satisfies: one label per token
    passed, the token pointer within the tokens, and only labels that are
    the sentinel or the text of a span label of the row. *)
Definition loop_invariant (tokens : list Token) (slots : list Slot)
    (st : WordLabelTensorizer.loop_state) : Prop :=
  length (WordLabelTensorizer.labels st) = WordLabelTensorizer.current_token st /\
  (WordLabelTensorizer.current_token st <= length tokens)%nat /\
  forall s, s ∈ WordLabelTensorizer.labels st ->
            s = NO_LABEL \/
            exists slot, slot ∈ slots /\ s = Word (slot_label slot).

(** What a symbol becomes on the way through the vocabulary and back. *)
Definition known_or_unk (v : Vocab.t) (s : symbol) : symbol :=
  if decide (s ∈ Vocab.vocab_list v) then s else UNK.


(** ** ByteTensorizer *)

Module ByteTensorizer.

Definition UNK_BYTE : Z := 0.
Definition PAD_BYTE : Z := 0.
Definition NUM : Z := 256.

Record t : Type := mk {
  text_column : string;
  lower : bool;
  max_seq_len : option Z
}.

Section Numberize.
(** [str.lower] and [str.encode], the built-ins [numberize] calls. *)
Variable str_lower : string -> string.
Variable str_encode : string -> list Byte.byte.

(** [if self.max_seq_len:] holds for a limit that is set and is not 0. *)
Definition numberize (self : t) (row : gmap string value)
  : result (list Byte.byte * nat) :=
  text ← get_str row (text_column self);
  let text := if lower self then str_lower text else text in
  let bytes := str_encode text in
  let bytes :=
    match max_seq_len self with
    | Some n => if n =? 0 then bytes else slice_to n bytes
    | None => bytes
    end in
  Ok (bytes, length bytes).
End Numberize.

(** [sort_key]: [row[1]] *)
Definition sort_key (row : list Byte.byte * nat) : nat := row.2.

End ByteTensorizer.

(** Lower case of the ASCII letters, the other characters kept: [str.lower]
    on ASCII text, used to evaluate [ByteTensorizer.numberize]. *)
Definition ascii_lower (s : string) : string :=
  string_of_list_ascii
    (map (fun c =>
            let n := nat_of_ascii c in
            if (65 <=? n)%nat && (n <=? 90)%nat then ascii_of_nat (n + 32)
            else c)
       (list_ascii_of_string s)).

(** ** RawString, JoinStringTensorizer, RawJson *)

Module RawString.

Record t : Type := mk { column : string }.

Definition numberize (self : t) (row : gmap string value) : result value :=
  getitem row (column self).

End RawString.

(** [str.join] *)
Fixpoint join (sep : string) (l : list string) : string :=
  match l with
  | [] => ""
  | [s] => s
  | s :: l' => s ++ sep ++ join sep l'
  end.

Module JoinStringTensorizer.

Record t : Type := mk {
  columns : list string;
  delimiter : string
}.

(** [str.join] takes strings only. *)
Definition as_str (v : value) : result string :=
  match v with
  | VStr s => Ok s
  | VSlots _ => Raise (AttributeError "join")
  end.

(** The list of the column values is built first, then joined. *)
Definition numberize (self : t) (row : gmap string value) : result string :=
  values ← mapR (getitem row) (columns self);
  strings ← mapR as_str values;
  Ok (join (delimiter self) strings).

End JoinStringTensorizer.

Module RawJson.

Section Numberize.
Variable json_loads : string -> option json.

(** [json.loads(row[self.column])]; the text of the decode error is the
    column's string. *)
Definition numberize (self : RawString.t) (row : gmap string value)
  : result json :=
  s ← get_str row (RawString.column self);
  match json_loads s with
  | Some j => Ok j
  | None => Raise (DenseParseError s s)
  end.
End Numberize.

End RawJson.

(** ** Encoders without a corpus pass *)

(** The encoders whose [initialize] returns before its first [yield]: those
    that inherit [Tensorizer.initialize], and a token encoder that already
    has a vocabulary. *)
Definition needs_no_corpus (o : tensorizer) : bool :=
  match o with
  | TToken t => Vocab.truthy (TokenTensorizer.vocab t)
  | TLabel _ | TWordLabel _ => false
  | _ => true
  end.

(** ** What a label coroutine accumulates *)

(** The label encoders keep their builder in the generator frame. *)
Definition has_local_builder (o : tensorizer) : bool :=
  match o with
  | TLabel _ | TWordLabel _ => true
  | _ => false
  end.

(** The builder a label coroutine has set up when it reaches its first
    [yield]. *)
Definition first_builder (o : tensorizer) : option VocabBuilder.t :=
  match o with
  | TLabel t =>
      Some (VocabBuilder.set_use_unk (LabelTensorizer.allow_unknown t)
              (VocabBuilder.set_use_pad false VocabBuilder.new))
  | TWordLabel t =>
      Some (VocabBuilder.set_use_unk (WordLabelTensorizer.allow_unknown t)
              (VocabBuilder.add VocabBuilder.new NO_LABEL))
  | _ => None
  end.

(** The symbols a label coroutine hands to its builder for one row. *)
Definition row_symbols (o : tensorizer) (row : gmap string value)
  : result (list symbol) :=
  match o with
  | TLabel t =>
      labels ← get_str row (LabelTensorizer.label_column t);
      Ok (map Word (split labels ","))
  | TWordLabel t =>
      slots ← get_slots row (WordLabelTensorizer.slot_column t);
      Ok (map (fun s => Word (slot_label s)) slots)
  | _ => Raise (AttributeError "initialize")
  end.

(** ** Reading a trace *)





(** ** NtokensTensorizer *)

(** Numberized values as [NtokensTensorizer.tensorize] reads them: numbers
    and sequences. *)
Inductive pyval : Type :=
| PInt (z : Z)
| PSeq (l : list pyval).

(** [sample[index]]: a negative index counts from the end. *)
Definition py_getitem (sample : list pyval) (index : Z) : result pyval :=
  let n := Z.of_nat (length sample) in
  let i := if index <? 0 then n + index else index in
  if (0 <=? i) && (i <? n) then
    match sample !! Z.to_nat i with
    | Some v => Ok v
    | None => Raise IndexError
    end
  else Raise IndexError.

(** A numberized row of a token encoder, [(tokens, len(tokens))]. *)
Definition token_sample (row : list nat * nat) : list pyval :=
  [PSeq (map (fun id => PInt (Z.of_nat id)) row.1); PInt (Z.of_nat row.2)].

Module NtokensTensorizer.

Record t : Type := mk {
  names : list string;
  indexes : list Z
}.

(** [sum((sample[index] for sample in samples))]: the samples are indexed
    and added one after the other, from 0. *)
Fixpoint sum_index (samples : list (list pyval)) (index : Z) (acc : Z)
  : result Z :=
  match samples with
  | [] => Ok acc
  | sample :: rest =>
      v ← py_getitem sample index;
      match v with
      | PInt z => sum_index rest index (acc + z)
      | PSeq _ => Raise (AttributeError "sum")
          (* TypeError: unsupported operand type(s) for + *)
      end
  end.

(** [for name, index in zip(self.names, self.indexes): ntokens += ...] *)
Fixpoint add_fields (pairs : list (string * Z))
    (batch : gmap string (list (list pyval))) (ntokens : Z) : result Z :=
  match pairs with
  | [] => Ok ntokens
  | (name, index) :: rest =>
      match batch !! name with
      | Some samples =>
          n ← sum_index samples index 0;
          add_fields rest batch (ntokens + n)
      | None => Raise (KeyError name)
      end
  end.

Definition tensorize (self : t) (batch : gmap string (list (list pyval)))
  : result Z :=
  add_fields (combine (names self) (indexes self)) batch 0.

End NtokensTensorizer.

(** ** The alignment against one span label, in closed form *)

(** The labels of the tokens up to the first one that starts after the end
    of the span label. *)
Fixpoint one_slot_labels (slot : Slot) (tokens : list Token) : list symbol :=
  match tokens with
  | [] => []
  | tok :: rest =>
      if tok_start tok >? slot_end slot then []
      else (if tok_end tok >? slot_start slot
            then Word (slot_label slot) else NO_LABEL)
           :: one_slot_labels slot rest
  end.

(** ** Finalization of the generators

    [initialize_tensorizers] ends with its row loop.  When the call returns,
    its frame drops the references it holds to the generator objects (the
    list of the comprehension, [initializers] and [init]); no one else holds
    one.  Under reference counting each generator is then finalized at once:
    the runtime closes it, as [init.close()] would.  [finalize order] closes
    the generators in the order in which the runtime reaches them. *)
Definition finalize (order : list nat) (w : world) : world :=
  foldl (fun w g => close g w) w order.

(** An encoder without the [vocab_builder] attribute that
    [TokenTensorizer.initialize] sets on [self]. *)
Definition without_builder (o : tensorizer) : tensorizer :=
  match o with
  | TToken t => TToken (with_vocab_builder t None)
  | _ => o
  end.

(** The symbols an [initialize] coroutine hands to its builder for one row:
    the token values of the text column for a token encoder, the labels for
    a label encoder. *)
Definition corpus_symbols (o : tensorizer) (row : gmap string value)
  : result (list symbol) :=
  match o with
  | TToken t =>
      raw_text ← get_str row (TokenTensorizer.text_column t);
      Ok (map tok_value (TokenTensorizer.tokenizer t raw_text))
  | _ => row_symbols o row
  end.

(** The builder an [initialize] coroutine has set up when it reaches its
    first [yield]. *)
Definition fresh_builder (o : tensorizer) : VocabBuilder.t :=
  match o with
  | TToken _ => VocabBuilder.new
  | _ => default VocabBuilder.new (first_builder o)
  end.

(** The encoder while its coroutine stands at the [yield] with the builder
    [b]: a token encoder holds the builder in [self.vocab_builder], a label
    encoder is not touched. *)
Definition accumulating (o : tensorizer) (b : VocabBuilder.t) : tensorizer :=
  match o with
  | TToken t => TToken (with_vocab_builder t (Some b))
  | _ => o
  end.

(** The encoder after the [GeneratorExit] handler of its coroutine has run
    with the builder [b]: [self.vocab = builder.make_vocab()]. *)
Definition initialized (o : tensorizer) (b : VocabBuilder.t) : tensorizer :=
  match o with
  | TToken t =>
      TToken (with_vocab (with_vocab_builder t (Some b))
                (Some (VocabBuilder.make_vocab b)))
  | TLabel t =>
      TLabel (LabelTensorizer.mk (LabelTensorizer.label_column t)
                (LabelTensorizer.allow_unknown t)
                (Some (VocabBuilder.make_vocab b)))
  | TWordLabel t =>
      TWordLabel
        (WordLabelTensorizer.mk (WordLabelTensorizer.slot_column t)
           (WordLabelTensorizer.text_column t)
           (WordLabelTensorizer.tokenizer t)
           (WordLabelTensorizer.allow_unknown t)
           (Some (VocabBuilder.make_vocab b)))
  | _ => o
  end.

(** What holds of the encoder at [a] and of the generators over it while
    the generators [created] by the call are finalized: the encoder is as the
    row loop left it or as a handler left it, and every such generator is
    finished with the encoder initialized, or still at its [yield]. *)
Definition finalizing (created : list nat) (a : nat) (o : tensorizer)
    (b : VocabBuilder.t) (w : world) : Prop :=
  (heap w !! a = Some (accumulating o b) \/
   heap w !! a = Some (initialized o b)) /\
  forall g, g ∈ created -> gen_self <$> gens w !! g = Some a ->
    (gens w !! g = Some (mkGen a Finished) /\
     heap w !! a = Some (initialized o b)) \/
    (exists fb, gens w !! g = Some (mkGen a (Suspended fb)) /\
                (has_local_builder o = true -> fb = Some b)).

(** A batch with one field, of two rows numberized by a token encoder. *)
Definition token_batch : gmap string (list (list pyval)) :=
  {[ "tokens" := map token_sample [([2; 0; 4]%nat, 3%nat); ([2]%nat, 1%nat)] ]}.

(** * Properties *)

(** ** Lists and results *)

Lemma take_z_take {A} (l : list A) : forall n, take_z n l = take (Z.to_nat n) l.
Proof.
  induction l as [|x l IH]; intros n; simpl.
  - by destruct (Z.to_nat n).
  - destruct (Z.ltb_spec 0 n) as [Hn|Hn].
    + rewrite IH. replace (Z.to_nat n) with (S (Z.to_nat (n - 1))) by lia.
      reflexivity.
    + replace (Z.to_nat n) with 0%nat by lia. reflexivity.
Qed.

Lemma slice_to_nonneg {A} (n : Z) (l : list A) :
  0 <= n -> slice_to n l = take (Z.to_nat n) l.
Proof.
  intros Hn. unfold slice_to.
  destruct (Z.leb_spec 0 n); [apply take_z_take | lia].
Qed.

Lemma length_slice_to {A} (n : Z) (l : list A) :
  0 <= n -> Z.of_nat (length (slice_to n l)) = Z.min (Z.of_nat (length l)) n.
Proof.
  intros Hn. rewrite slice_to_nonneg, length_take by done. lia.
Qed.

Lemma mapR_length {A B} (f : A -> result B) (l : list A) :
  forall l', mapR f l = Ok l' -> length l' = length l.
Proof.
  induction l as [|a l IH]; simpl; intros l' H.
  - by inversion H.
  - destruct (f a) as [b|e]; simpl in H; [|discriminate].
    destruct (mapR f l) as [bs|e]; simpl in H; [|discriminate].
    inversion H; subst. simpl. f_equal. by apply IH.
Qed.

Lemma mapR_ok {A B} (f : A -> result B) (l : list A) :
  (forall a, is_ok (f a) = true) -> exists l', mapR f l = Ok l'.
Proof.
  intros Hf. induction l as [|a l [bs IH]]; simpl; [by eexists|].
  specialize (Hf a). destruct (f a) as [b|e]; [|discriminate].
  simpl. rewrite IH. simpl. by eexists.
Qed.

(** ** The alignment loop *)

Section WordLabel.
Import WordLabelTensorizer.

(** The loop is left within [length tokens + length slots] steps: the state
    [align] reads the labels from is one where the loop condition fails. *)
Lemma loop_exits_from (tokens : list Token) (slots : list Slot) :
  forall fuel st,
    (length tokens - current_token st + (length slots - current_slot st)
     <= fuel)%nat ->
    loop_step tokens slots (loop fuel tokens slots st) = None.
Proof.
  induction fuel as [|fuel IH]; intros st Hm; simpl.
  - unfold loop_step.
    destruct (tokens !! current_token st) eqn:Ht; [|done].
    destruct (slots !! current_slot st) eqn:Hs; [|done].
    apply lookup_lt_Some in Ht, Hs. lia.
  - destruct (loop_step tokens slots st) as [st'|] eqn:Hstep; [|done].
    apply IH. unfold loop_step in Hstep.
    destruct (tokens !! current_token st) eqn:Ht; [|done].
    destruct (slots !! current_slot st) eqn:Hs; [|done].
    apply lookup_lt_Some in Ht, Hs.
    destruct (_ >? _); inversion Hstep; subst; simpl; lia.
Qed.

Lemma loop_exits (tokens : list Token) (slots : list Slot) :
  loop_step tokens slots
    (loop (length tokens + length slots) tokens slots loop_init) = None.
Proof. apply loop_exits_from. simpl. lia. Qed.

(** Without span labels the loop body never runs. *)
Lemma align_no_slots (tokens : list Token) : align tokens [] = [].
Proof.
  unfold align. destruct (length tokens + length [])%nat; simpl; [done|].
  unfold loop_step. simpl. by destruct (tokens !! 0%nat).
Qed.

(** C1, which the code does not meet: on the text "play the song", which
    the tokenizer splits into three tokens, [numberize] returns one label id
    when the only span label covers "play" (the loop is left as soon as the
    span labels are exhausted, and the two tokens after it get no entry), and
    no label id at all when the row has no span label. *)
Theorem word_label_numberize_stops_with_slots :
  length (tokenizer slot_encoder "play the song") = 3%nat /\
  numberize slot_encoder (song_row [mkSlot "verb" 0 4]) = Ok [3%nat] /\
  numberize slot_encoder (song_row []) = Ok [].
Proof. by vm_compute. Qed.

(** C6: a step of the alignment loop with a current token and a current
    span label advances the span-label pointer alone when the token starts
    strictly after the end of the label, and otherwise advances the token
    pointer alone and appends the label's text when the token ends strictly
    after the start of the label, the no-label sentinel when not; "play the
    song", tokenized as (play,0,4), (the,5,8), (song,9,13), with the span
    label (song_name,9,13) gets no-label, no-label, song_name. *)
Theorem alignment_step (tokens : list Token) (slots : list Slot)
    (st : loop_state) (tok : Token) (slot : Slot) :
  tokens !! current_token st = Some tok ->
  slots !! current_slot st = Some slot ->
  (tok_start tok > slot_end slot ->
   loop_step tokens slots st =
     Some {| labels := labels st;
             current_slot := S (current_slot st);
             current_token := current_token st |}) /\
  (~ tok_start tok > slot_end slot ->
   loop_step tokens slots st =
     Some {| labels := labels st ++
                [if decide (tok_end tok > slot_start slot)
                 then Word (slot_label slot) else NO_LABEL];
             current_slot := current_slot st;
             current_token := S (current_token st) |}) /\
  space_tokenize "play the song" = play_the_song /\
  align play_the_song [mkSlot "song_name" 9 13]
    = [NO_LABEL; NO_LABEL; Word "song_name"] /\
  numberize slot_encoder (song_row [mkSlot "song_name" 9 13])
    = Vocab.lookup_all (slot_vocab false ["song_name"; "verb"])
        [NO_LABEL; NO_LABEL; Word "song_name"].
Proof.
  intros Ht Hs. unfold loop_step. rewrite Ht, Hs.
  repeat split; try by vm_compute.
  - intros H. destruct (Z.gtb_spec (tok_start tok) (slot_end slot)); [done|lia].
  - intros H. destruct (Z.gtb_spec (tok_start tok) (slot_end slot)); [lia|].
    destruct (Z.gtb_spec (tok_end tok) (slot_start slot)); case_decide;
      done || lia.
Qed.

Lemma alignment_step_witness :
  loop_step play_the_song [mkSlot "song_name" 9 13]
    {| labels := [NO_LABEL; NO_LABEL]; current_slot := 0; current_token := 2 |}
  = Some {| labels := [NO_LABEL; NO_LABEL; Word "song_name"];
            current_slot := 0; current_token := 3 |}.
Proof.
  pose proof (alignment_step play_the_song [mkSlot "song_name" 9 13]
                {| labels := [NO_LABEL; NO_LABEL]; current_slot := 0;
                   current_token := 2 |}
                (mkToken (Word "song") 9 13) (mkSlot "song_name" 9 13)
                eq_refl eq_refl) as (_ & H & _).
  apply H. simpl. lia.
Defined.

End WordLabel.

(** ** Token encoder *)

Section TokenEncoder.
Import TokenTensorizer.

Lemma tokenized_no_boundaries (self : t) (text : string) :
  add_bos_token self = false -> add_eos_token self = false ->
  tokenized self text = slice_to (max_seq_len self) (tokenizer self text).
Proof. intros Hb He. unfold tokenized. by rewrite Hb, He. Qed.

Lemma slice_to_nil {A} (n : Z) : slice_to n (@nil A) = [].
Proof. unfold slice_to. by destruct (0 <=? n). Qed.

(** C10: when the tokenizer splits the text of a row into no token and
    neither boundary token is configured, [numberize] raises: the unpacking
    of the transposed triples in [_lookup_tokens] finds none of the three
    sequences it expects; no empty id sequence of length 0 is returned. *)
Theorem token_numberize_no_tokens (self : t) (row : gmap string value)
    (text : string) :
  get_str row (text_column self) = Ok text ->
  tokenizer self text = [] ->
  add_bos_token self = false ->
  add_eos_token self = false ->
  _lookup_tokens self text = Raise (UnpackError 3 0) /\
  numberize self row = Raise (UnpackError 3 0) /\
  numberize self row <> Ok ([], 0%nat).
Proof.
  intros Hrow Htok Hb He.
  assert (_lookup_tokens self text = Raise (UnpackError 3 0)) as Hl.
  { unfold _lookup_tokens.
    by rewrite tokenized_no_boundaries, Htok, slice_to_nil. }
  unfold numberize. rewrite Hrow. simpl. rewrite Hl. by repeat split.
Qed.

Lemma token_numberize_no_tokens_witness :
  numberize (token_encoder false false None) (text_row "")
  = Raise (UnpackError 3 0).
Proof.
  apply (token_numberize_no_tokens (token_encoder false false None)
           (text_row "") ""); reflexivity.
Defined.

(** C7, which the code does not meet: on a row whose text is empty, with no
    boundary token configured, the token count is 0 and the claimed result
    is the pair of the empty id sequence and the length 0, and [numberize]
    raises at the unpacking in [_lookup_tokens]. *)
Theorem token_numberize_empty_text :
  tokenizer (token_encoder false false None) "" = [] /\
  numberize (token_encoder false false None) (text_row "")
  = Raise (UnpackError 3 0).
Proof. by vm_compute. Qed.

Lemma length_tokenized (self : t) (text : string) :
  0 <= max_seq_len self ->
  Z.of_nat (length (tokenized self text))
  = Z.min (Z.of_nat (length (tokenizer self text)) + boundary_count self)
      (max_seq_len self + boundary_count self).
Proof.
  intros Hn. unfold tokenized, boundary_count.
  pose proof (length_slice_to (max_seq_len self) (tokenizer self text) Hn).
  destruct (add_bos_token self), (add_eos_token self);
    rewrite ?length_app; simpl; lia.
Qed.

Lemma lookup_with_unk (v : Vocab.t) (s : symbol) (u : nat) :
  index_of UNK (Vocab.vocab_list v) = Some u ->
  is_ok (Vocab.lookup v s) = true /\
  (index_of s (Vocab.vocab_list v) = None -> Vocab.lookup v s = Ok u).
Proof.
  intros Hu. unfold Vocab.lookup. rewrite Hu.
  by destruct (index_of s (Vocab.vocab_list v)).
Qed.

(** What C7 states, where the code meets it: with a vocabulary that
    reserves UNK, a length limit that is not negative and a token list that
    is not empty once truncated and extended, [numberize] returns the id
    sequence with its length, which is the smaller of the token count and
    the limit, each plus the boundary tokens. *)
Theorem token_numberize_length (self : t) (row : gmap string value)
    (text : string) (v : Vocab.t) (u : nat) :
  get_str row (text_column self) = Ok text ->
  vocab self = Some v ->
  index_of UNK (Vocab.vocab_list v) = Some u ->
  0 <= max_seq_len self ->
  tokenized self text <> [] ->
  exists tokens,
    numberize self row = Ok (tokens, length tokens) /\
    Vocab.lookup_all v (map tok_value (tokenized self text)) = Ok tokens /\
    Z.of_nat (length tokens)
    = Z.min (Z.of_nat (length (tokenizer self text)) + boundary_count self)
        (max_seq_len self + boundary_count self).
Proof.
  intros Hrow Hv Hu Hn Hne.
  destruct (mapR_ok (Vocab.lookup v) (map tok_value (tokenized self text)))
    as [tokens Htokens].
  { intros s. by apply (lookup_with_unk v s u). }
  exists tokens. split; [|split].
  - assert (unzip3 (tokenized self text)
            = Ok (map tok_value (tokenized self text),
                  map tok_start (tokenized self text),
                  map tok_end (tokenized self text))) as Hz.
    { unfold unzip3. by destruct (tokenized self text). }
    unfold numberize, _lookup_tokens, Vocab.lookup_all.
    rewrite Hrow. cbn -[mapR tokenized]. rewrite Hz. cbn -[mapR tokenized].
    rewrite Hv, Htokens. done.
  - exact Htokens.
  - apply mapR_length in Htokens. rewrite Htokens, length_map.
    by apply length_tokenized.
Qed.

End TokenEncoder.

(** ** Character encoder *)

Section CharacterEncoder.
Import CharacterTokenTensorizer.

Lemma length_list_ascii (s : string) :
  length (list_ascii_of_string s) = String.length s.
Proof. induction s as [|c s IH]; simpl; by f_equal. Qed.

Lemma length_numberize_token (tok : Token) :
  length (_numberize_token tok) = String.length (symbol_str (tok_value tok)).
Proof. unfold _numberize_token. by rewrite length_map, length_list_ascii. Qed.

(** C5 as stated fails: with both boundary tokens configured, a limit of two
    tokens and of three characters, "hello big world" gets two entries, for
    "hello" and "big", where the token encoder's rules give four, BOS and EOS
    among them; and the number returned with "hello" is 3, the length of its
    truncated codes, not its character count 5. *)
Lemma character_numberize_no_boundaries :
  TokenTensorizer.add_bos_token (base character_encoder) = true /\
  TokenTensorizer.add_eos_token (base character_encoder) = true /\
  numberize character_encoder (text_row "hello big world")
  = Ok ([[104; 101; 108]; [98; 105; 103]]%nat, [3; 3]%nat) /\
  numberize_with_boundaries character_encoder (text_row "hello big world")
  = Ok ([[66; 79; 83]; [104; 101; 108]; [98; 105; 103]; [69; 79; 83]]%nat,
        [3; 5; 3; 3]%nat) /\
  numberize character_encoder (text_row "hello big world")
  <> numberize_with_boundaries character_encoder (text_row "hello big world").
Proof. repeat split; by vm_compute. Qed.

(** C5, amended: [numberize] truncates the tokens to [max_seq_len] and
    injects no boundary token, whatever the boundary flags say: the result
    has one entry per remaining token of the tokenizer.  The entry is the
    token's character codes truncated to [max_char_length], and the number
    that goes with it is the length of the truncated codes, which for a limit
    that is not negative is the smaller of the character count and the
    limit. *)
Theorem character_numberize_truncates (self : t) (row : gmap string value)
    (text : string) :
  get_str row (TokenTensorizer.text_column (base self)) = Ok text ->
  let tokens :=
    slice_to (TokenTensorizer.max_seq_len (base self))
      (TokenTensorizer.tokenizer (base self) text) in
  exists characters lengths,
    numberize self row = Ok (characters, lengths) /\
    length characters = length tokens /\
    length lengths = length tokens /\
    forall (i : nat) (tok : Token),
      tokens !! i = Some tok ->
      characters !! i
      = Some (slice_to (max_char_length self) (_numberize_token tok)) /\
      lengths !! i
      = Some (length (slice_to (max_char_length self) (_numberize_token tok))) /\
      (0 <= max_char_length self ->
       Z.of_nat (length (slice_to (max_char_length self) (_numberize_token tok)))
       = Z.min (Z.of_nat (String.length (symbol_str (tok_value tok))))
           (max_char_length self)).
Proof.
  intros Hrow tokens. unfold numberize. rewrite Hrow. simpl. fold tokens.
  eexists _, _. split; [reflexivity|].
  rewrite !length_map. repeat split.
  - change (map ?f ?l) with (f <$> l). rewrite list_lookup_fmap, H. done.
  - change (map ?f ?l) with (f <$> l). rewrite !list_lookup_fmap, H. done.
  - intros Hn. by rewrite length_slice_to, length_numberize_token.
Qed.

Lemma character_numberize_truncates_witness :
  exists characters lengths,
    numberize character_encoder (text_row "hello big world")
    = Ok (characters, lengths) /\
    length characters = 2%nat /\ length lengths = 2%nat.
Proof.
  destruct (character_numberize_truncates character_encoder
              (text_row "hello big world") "hello big world" eq_refl)
    as (characters & lengths & H & Hc & Hl & _).
  exists characters, lengths. repeat split; assumption.
Defined.

End CharacterEncoder.

(** ** Label encoder *)

Section LabelEncoder.
Import LabelTensorizer.

(** C3, which the code does not meet: [initialize] splits the label column
    on the comma, so that after the row "a,b" the frozen vocabulary holds the
    labels a and b; [numberize] hands the column's string to the vocabulary
    unsplit, and on that same row fails with an unknown symbol, whether the
    vocabulary takes the string as one symbol or character by character,
    where splitting and looking up every segment gives the indices 0 and 1. *)
Theorem label_numberize_does_not_split :
  exists self : t,
    label_encoder_after [label_row "a,b"] = Some self /\
    labels self = Some (Vocab.mk [Word "a"; Word "b"]) /\
    numberize WholeString self (label_row "a,b")
    = Raise (UnknownSymbol (Word "a,b")) /\
    numberize EachCharacter self (label_row "a,b")
    = Raise (UnknownSymbol (Word ",")) /\
    numberize_split self (label_row "a,b") = Ok (Indices [0; 1]%nat).
Proof. eexists. repeat split; by vm_compute. Qed.

End LabelEncoder.

(** ** Numeric label encoder *)

Section NumericLabel.
Import NumericLabelTensorizer.

Lemma Prim2SF_zero : Prim2SF 0 = S754_zero false.
Proof. reflexivity. Qed.

Lemma Prim2SF_one : Prim2SF 1 = S754_finite false 4503599627370496 (-52).
Proof. reflexivity. Qed.

(** A quotient by a zero is infinite or not a number: never in [0, 1]. *)
Lemma div_by_zero_outside (a d : float) :
  (d =? 0)%float = true -> in_unit_interval (a / d) = false.
Proof.
  unfold in_unit_interval.
  rewrite !FloatAxioms.leb_spec, FloatAxioms.eqb_spec, FloatAxioms.div_spec,
    Prim2SF_zero, Prim2SF_one.
  destruct (Prim2SF d) as [s|s| |s m e]; try discriminate.
  - intros _. destruct (Prim2SF a) as [sa|sa| |sa ma ea]; try reflexivity.
    + destruct sa, s; reflexivity.
    + destruct sa, s; reflexivity.
  - destruct s; discriminate.
  - destruct s; discriminate.
Qed.

Lemma numberize_rescaled (float_of_str : string -> option float) (self : t)
    (row : gmap string value) (s : string) (x lo hi : float) :
  get_str row (label_column self) = Ok s ->
  float_of_str s = Some x ->
  rescale_range self = Some [lo; hi] ->
  numberize float_of_str self row
  = if in_unit_interval ((x - lo) / (hi - lo))
    then Ok ((x - lo) / (hi - lo))%float
    else if (hi - lo =? 0)%float then Raise ZeroDivisionError
         else Raise (RangeAssertion ((x - lo) / (hi - lo))).
Proof.
  intros Hrow Hx Hr. unfold numberize. rewrite Hrow. simpl.
  rewrite Hx, Hr. simpl. unfold truediv.
  destruct (hi - lo =? 0)%float eqn:Hd; simpl.
  - by rewrite div_by_zero_outside.
  - by destruct (in_unit_interval _).
Qed.

(** C8: for a row whose label column parses to the number x, [numberize]
    with the rescale range [lo, hi] returns (x - lo) / (hi - lo) when that
    lies in [0, 1] and fails when it does not, and returns nothing else;
    with the range [0, 10] the label 0 gives 0.0, the label 10 gives 1.0,
    and the labels -1 and 11 fail at the assertion. *)
Theorem numeric_label_rescale (float_of_str : string -> option float)
    (self : t) (row : gmap string value) (s : string) (x lo hi : float) :
  get_str row (label_column self) = Ok s ->
  float_of_str s = Some x ->
  rescale_range self = Some [lo; hi] ->
  (in_unit_interval ((x - lo) / (hi - lo)) = true ->
   numberize float_of_str self row = Ok ((x - lo) / (hi - lo))%float) /\
  (in_unit_interval ((x - lo) / (hi - lo)) = false ->
   exists e, numberize float_of_str self row = Raise e) /\
  (forall y, numberize float_of_str self row = Ok y ->
             y = ((x - lo) / (hi - lo))%float /\ in_unit_interval y = true) /\
  numberize float_of_decimal rescaled_encoder (label_row "0") = Ok 0%float /\
  numberize float_of_decimal rescaled_encoder (label_row "10") = Ok 1%float /\
  numberize float_of_decimal rescaled_encoder (label_row "-1")
  = Raise (RangeAssertion (-1 / 10)) /\
  numberize float_of_decimal rescaled_encoder (label_row "11")
  = Raise (RangeAssertion (11 / 10)).
Proof.
  intros Hrow Hx Hr.
  rewrite (numberize_rescaled float_of_str self row s x lo hi Hrow Hx Hr).
  repeat split; try by vm_compute.
  - by intros ->.
  - intros ->. destruct (hi - lo =? 0)%float; by eexists.
  - destruct (in_unit_interval _); [congruence|].
    destruct (hi - lo =? 0)%float; discriminate.
  - destruct (in_unit_interval _) eqn:E; [congruence|].
    destruct (hi - lo =? 0)%float; discriminate.
Qed.

Lemma numeric_label_rescale_witness :
  numberize float_of_decimal rescaled_encoder (label_row "5")
  = Ok (5 / 10)%float.
Proof.
  apply (numeric_label_rescale float_of_decimal rescaled_encoder
           (label_row "5") "5" 5 0 10); reflexivity.
Defined.

End NumericLabel.

(** ** Float list encoder *)

Section FloatList.
Import FloatListTensorizer.




Lemma mapR_raise {A B} (f : A -> result B) (l : list A) (e : exn) :
  mapR f l = Raise e -> exists a, f a = Raise e.
Proof.
  induction l as [|a l IH]; simpl; [discriminate|].
  destruct (f a) as [b|e'] eqn:Ha; simpl.
  - destruct (mapR f l) as [bs|e'']; simpl; [discriminate|].
    intros H. inversion H; subst. by apply IH.
  - intros H. inversion H; subst. by exists a.
Qed.

(** No conversion of an element raises the dimension assertion. *)
Lemma float_of_json_raises (float_of_str : string -> option float) (n : json)
    (d : option Z) (k : nat) (l : list json) :
  float_of_json float_of_str n <> Raise (DimensionAssertion d k l).
Proof.
  destruct n; simpl; try discriminate.
  - unfold float_of_int. by destruct (is_infinity _).
  - by destruct (float_of_str s).
Qed.

(** C9: with [error_check] enabled, on a row whose text parses to a list,
    [numberize] fails at the dimension check exactly when the length of the
    parsed list differs from [dim], and the failure carries the expected
    dimension, the actual length and the parsed list; when the lengths agree
    the check is passed and the result is that of converting the elements, so
    that for a list whose elements all convert [numberize] fails exactly when
    the length differs from [dim]. *)
Theorem float_list_dimension_check (json_loads : string -> option json)
    (float_of_str : string -> option float) (self : t)
    (row : gmap string value) (s : string) (l : list json) :
  get_str row (column self) = Ok s ->
  json_loads (normalize s) = Some (JList l) ->
  error_check self = true ->
  (Some (Z.of_nat (length l)) <> dim self ->
   numberize json_loads float_of_str self row
   = Raise (DimensionAssertion (dim self) (length l) l)) /\
  (Some (Z.of_nat (length l)) = dim self ->
   numberize json_loads float_of_str self row
   = mapR (float_of_json float_of_str) l) /\
  (numberize json_loads float_of_str self row
   = Raise (DimensionAssertion (dim self) (length l) l)
   <-> Some (Z.of_nat (length l)) <> dim self) /\
  (is_ok (mapR (float_of_json float_of_str) l) = true ->
   (is_ok (numberize json_loads float_of_str self row) = false
    <-> Some (Z.of_nat (length l)) <> dim self)).
Proof.
  intros Hrow Hjson Hcheck.
  assert (numberize json_loads float_of_str self row
          = if decide (Some (Z.of_nat (length l)) = dim self)
            then mapR (float_of_json float_of_str) l
            else Raise (DimensionAssertion (dim self) (length l) l)) as Hnum.
  { unfold numberize. rewrite Hrow. cbn [mbind result_bind].
    rewrite Hjson, Hcheck. by case_decide. }
  rewrite Hnum. repeat split.
  - intros Hne. by case_decide.
  - intros Heq. by case_decide.
  - case_decide; [|done]. intros Hraise Heq.
    apply mapR_raise in Hraise as [n Hn].
    by apply float_of_json_raises in Hn.
  - intros Hne. by case_decide.
  - case_decide; [|done]. intros Hfail. congruence.
  - intros Hne. by case_decide.
Qed.

Lemma float_list_dimension_check_witness :
  numberize json_loads_fragment float_of_decimal (dense_encoder true (Some 2))
    (dense_row "[1, 2, 3]")
  = Raise (DimensionAssertion (Some 2) 3 [JInt 1; JInt 2; JInt 3]).
Proof.
  apply (float_list_dimension_check json_loads_fragment float_of_decimal
           (dense_encoder true (Some 2)) (dense_row "[1, 2, 3]") "[1, 2, 3]"
           [JInt 1; JInt 2; JInt 3]); try reflexivity.
  discriminate.
Defined.

End FloatList.

(** ** The streaming initializer *)

Section Streaming.

Lemma frame_of_set_frame (g : nat) (f : frame) (w : world) :
  is_Some (gens w !! g) -> frame_of g (set_frame g f w) = Some f.
Proof.
  intros [x Hx]. unfold frame_of, set_frame. simpl.
  rewrite list_lookup_alter_eq, Hx. done.
Qed.

Lemma frame_of_set_frame_ne (g g' : nat) (f : frame) (w : world) :
  g' <> g -> frame_of g' (set_frame g f w) = frame_of g' w.
Proof.
  intros Hne. unfold frame_of, set_frame. simpl.
  by rewrite list_lookup_alter_ne.
Qed.

Lemma frame_of_set_object (g a : nat) (o : tensorizer) (w : world) :
  frame_of g (set_object a o w) = frame_of g w.
Proof. reflexivity. Qed.

Ltac frame_cases :=
  repeat match goal with
    | |- context [match ?x with _ => _ end] => destruct x eqn:?
    end.

(** A call of [send] leaves the frames of the other generators alone. *)
Lemma send_frame_other (g g' : nat) (x : option (gmap string value))
    (w : world) :
  g' <> g -> frame_of g' (send g x w).2 = frame_of g' w.
Proof.
  intros Hne. unfold send, start, resume.
  frame_cases; simpl;
    rewrite ?frame_of_set_object, ?frame_of_set_frame_ne by done; done.
Qed.

(** A call of [send] that returns leaves the generator at its [yield]. *)
Lemma send_ok_suspended (g : nat) (x : option (gmap string value))
    (w w1 : world) :
  send g x w = (Ok tt, w1) -> exists b, frame_of g w1 = Some (Suspended b).
Proof.
  unfold send. destruct (gens w !! g) as [[self f]|] eqn:Hg; [|done].
  assert (is_Some (gens w !! g)) as Hsome by by eexists.
  destruct f as [|builder|]; [| |done].
  - destruct x; [done|]. unfold start.
    frame_cases; intros H; inversion H; subst;
      rewrite ?frame_of_set_frame; eauto.
  - destruct x as [row|]; [|done]. unfold resume.
    frame_cases; intros H; inversion H; subst;
      rewrite ?frame_of_set_object, ?frame_of_set_frame; eauto.
    all: unfold frame_of; rewrite Hg; eauto.
Qed.

(** A priming call that ends in [StopIteration] leaves the generator
    finished. *)
Lemma send_stop_finished (g : nat) (w w1 : world) :
  send g None w = (Raise StopIteration, w1) -> frame_of g w1 = Some Finished.
Proof.
  unfold send. destruct (gens w !! g) as [[self f]|] eqn:Hg; [|done].
  assert (is_Some (gens w !! g)) as Hsome by by eexists.
  destruct f as [|builder|].
  - unfold start. frame_cases; intros H; inversion H; subst;
      by rewrite frame_of_set_frame.
  - done.
  - intros H. inversion H; subst. unfold frame_of. by rewrite Hg.
Qed.

Lemma create_spec (values : list nat) :
  forall w,
    create values w
    = (seq (length (gens w)) (length values),
       mkWorld (heap w) (gens w ++ map (fun self => mkGen self Created) values)).
Proof.
  induction values as [|self rest IH]; intros w; simpl.
  - rewrite app_nil_r. by destruct w.
  - rewrite IH. simpl. rewrite length_app, <- app_assoc. simpl.
    by replace (length (gens w) + 1)%nat with (S (length (gens w))) by lia.
Qed.

Lemma prime_spec (inits : list nat) :
  forall w initializers w1 tr,
    prime inits w = (Ok initializers, w1, tr) ->
    NoDup inits ->
    tr = map (fun g => Primed g (bool_decide (g ∈ initializers))) inits /\
    (forall g, g ∈ initializers -> g ∈ inits) /\
    NoDup initializers /\
    (forall g, g ∈ initializers -> exists b, frame_of g w1 = Some (Suspended b)) /\
    (forall g, g ∈ inits -> g ∉ initializers -> frame_of g w1 = Some Finished) /\
    (forall g, g ∉ inits -> frame_of g w1 = frame_of g w).
Proof.
  induction inits as [|init rest IH]; intros w initializers w1 tr Hrun Hnd.
  - simpl in Hrun. inversion Hrun; subst.
    repeat split; try done; try apply NoDup_nil_2.
    all: intros g Hg; by apply elem_of_nil in Hg.
  - apply NoDup_cons in Hnd as [Hnotin Hnd]. simpl in Hrun.
    destruct (send init None w) as [r0 w0] eqn:Hsend.
    destruct (prime rest w0) as [[r w2] tr'] eqn:Hrest.
    assert (forall g, g <> init -> frame_of g w0 = frame_of g w) as Hother.
    { intros g Hg. pose proof (send_frame_other init g None w Hg) as H.
      by rewrite Hsend in H. }
    destruct r0 as [[]|e].
    + destruct r as [inits'|e]; simpl in Hrun; [|discriminate].
      inversion Hrun; subst. clear Hrun.
      destruct (IH _ _ _ _ Hrest Hnd) as (Htr & Hsub & Hnd' & Hsus & Hfin & Hkeep).
      apply send_ok_suspended in Hsend as [b Hb].
      split; [|split; [|split; [|split; [|split]]]].
      * simpl. rewrite bool_decide_eq_true_2 by apply list_elem_of_here.
        f_equal. rewrite Htr. apply map_ext_in. intros g Hg. f_equal.
        apply bool_decide_ext. rewrite elem_of_cons. split; [by right|].
        intros [->|H]; [|done]. by apply list_elem_of_In in Hg.
      * intros g Hg. apply elem_of_cons in Hg as [->|Hg]; apply elem_of_cons;
          [by left|right; by apply Hsub].
      * apply NoDup_cons. split; [|done]. intros Hin. by apply Hnotin, Hsub.
      * intros g Hg. apply elem_of_cons in Hg as [->|Hg]; [|by apply Hsus].
        rewrite Hkeep by done. eauto.
      * intros g Hg Hng. apply not_elem_of_cons in Hng as [Hne Hng].
        apply elem_of_cons in Hg as [->|Hg]; [done|]. by apply Hfin.
      * intros g Hg. apply not_elem_of_cons in Hg as [Hne Hg].
        by rewrite Hkeep, Hother.
    + destruct e; inversion Hrun; subst; clear Hrun.
      destruct (IH _ _ _ _ Hrest Hnd) as (Htr & Hsub & Hnd' & Hsus & Hfin & Hkeep).
      apply send_stop_finished in Hsend.
      assert (init ∉ initializers) as Hinit by (intros Hin; by apply Hnotin, Hsub).
      split; [|split; [|split; [|split; [|split]]]].
      * simpl. rewrite bool_decide_eq_false_2 by done. by f_equal.
      * intros g Hg. apply elem_of_cons. right. by apply Hsub.
      * done.
      * done.
      * intros g Hg Hng. apply elem_of_cons in Hg as [->|Hg]; [|by apply Hfin].
        by rewrite Hkeep.
      * intros g Hg. apply not_elem_of_cons in Hg as [Hne Hg].
        by rewrite Hkeep, Hother.
Qed.

Lemma send_all_spec (inits : list nat) (row : gmap string value) :
  forall w w1 tr,
    send_all inits row w = (Ok tt, w1, tr) ->
    tr = map (fun g => Sent g row) inits /\
    (forall g, g ∈ inits -> exists b, frame_of g w1 = Some (Suspended b)) /\
    (forall g, g ∉ inits -> frame_of g w1 = frame_of g w).
Proof.
  induction inits as [|init rest IH]; intros w w1 tr Hrun; simpl in Hrun.
  - inversion Hrun; subst. split; [done|split; [|done]]. intros g Hg.
    by apply elem_of_nil in Hg.
  - destruct (send init (Some row) w) as [r0 w0] eqn:Hsend.
    destruct r0 as [[]|e]; [|discriminate].
    destruct (send_all rest row w0) as [[r w2] tr'] eqn:Hrest.
    inversion Hrun; subst. clear Hrun.
    destruct (IH _ _ _ Hrest) as (Htr & Hsus & Hkeep).
    assert (forall g, g <> init -> frame_of g w0 = frame_of g w) as Hother.
    { intros g Hg. pose proof (send_frame_other init g (Some row) w Hg) as H.
      by rewrite Hsend in H. }
    apply send_ok_suspended in Hsend as [b Hb].
    split; [|split].
    + simpl. by f_equal.
    + intros g Hg. destruct (decide (g ∈ rest)) as [Hin|Hnin]; [by apply Hsus|].
      apply elem_of_cons in Hg as [->|Hg]; [|done]. rewrite Hkeep by done. eauto.
    + intros g Hg. apply not_elem_of_cons in Hg as [Hne Hg].
      by rewrite Hkeep, Hother.
Qed.

Lemma feed_spec (data_source : list (gmap string value)) (inits : list nat) :
  forall w w1 tr,
    feed data_source inits w = (Ok tt, w1, tr) ->
    tr = flat_map (fun row => map (fun g => Sent g row) inits) data_source /\
    (forall g, g ∉ inits -> frame_of g w1 = frame_of g w) /\
    (forall g, g ∈ inits -> (exists b, frame_of g w = Some (Suspended b)) ->
               exists b, frame_of g w1 = Some (Suspended b)).
Proof.
  induction data_source as [|row rest IH]; intros w w1 tr Hrun; simpl in Hrun.
  - inversion Hrun; subst. done.
  - destruct (send_all inits row w) as [[r0 w0] tr0] eqn:Hsend.
    destruct r0 as [[]|e]; [|discriminate].
    destruct (feed rest inits w0) as [[r w2] tr'] eqn:Hrest.
    inversion Hrun; subst. clear Hrun.
    destruct (IH _ _ _ Hrest) as (Htr & Hkeep & Hsus).
    destruct (send_all_spec _ _ _ _ _ Hsend) as (Htr0 & Hsus0 & Hkeep0).
    split; [|split].
    + simpl. by rewrite Htr0, Htr.
    + intros g Hg. by rewrite Hkeep, Hkeep0.
    + intros g Hg _. apply Hsus; [done|]. by apply Hsus0.
Qed.

Lemma sent_to_app (g : nat) (tr1 tr2 : list event) :
  sent_to g (tr1 ++ tr2) = sent_to g tr1 ++ sent_to g tr2.
Proof. apply omap_app. Qed.

Lemma sent_to_primed (g : nat) (b : nat -> bool) (inits : list nat) :
  sent_to g (map (fun g' => Primed g' (b g')) inits) = [].
Proof. induction inits as [|init rest IH]; simpl; done. Qed.

Lemma sent_to_row_other (g : nat) (row : gmap string value) (inits : list nat) :
  g ∉ inits -> sent_to g (map (fun g' => Sent g' row) inits) = [].
Proof.
  induction inits as [|init rest IH]; intros Hg; [done|].
  apply not_elem_of_cons in Hg as [Hne Hg]. unfold sent_to in *. simpl.
  rewrite decide_False by done. by apply IH.
Qed.

Lemma sent_to_row (g : nat) (row : gmap string value) (inits : list nat) :
  NoDup inits -> g ∈ inits ->
  sent_to g (map (fun g' => Sent g' row) inits) = [row].
Proof.
  induction inits as [|init rest IH]; intros Hnd Hg.
  - by apply elem_of_nil in Hg.
  - apply NoDup_cons in Hnd as [Hnotin Hnd]. unfold sent_to in *. simpl.
    destruct (decide (init = g)) as [->|Hne].
    + f_equal. by apply (sent_to_row_other g row rest).
    + apply IH; [done|]. by apply elem_of_cons in Hg as [->|Hg].
Qed.

Lemma sent_to_feed (g : nat) (data_source : list (gmap string value))
    (inits : list nat) :
  NoDup inits ->
  sent_to g (flat_map (fun row => map (fun g' => Sent g' row) inits) data_source)
  = if decide (g ∈ inits) then data_source else [].
Proof.
  intros Hnd. induction data_source as [|row rest IH]; simpl.
  - by case_decide.
  - rewrite sent_to_app, IH. case_decide.
    + by rewrite sent_to_row.
    + by rewrite sent_to_row_other.
Qed.

Lemma close_finishes (g : nat) (w : world) :
  is_Some (gens w !! g) -> frame_of g (close g w) = Some Finished.
Proof.
  intros [[self f] Hg]. unfold close. rewrite Hg.
  assert (is_Some (gens w !! g)) as Hsome by by eexists.
  destruct f as [|builder|].
  - by apply frame_of_set_frame.
  - frame_cases; rewrite ?frame_of_set_object; by apply frame_of_set_frame.
  - unfold frame_of. by rewrite Hg.
Qed.

Lemma close_finished (g : nat) (w : world) :
  frame_of g w = Some Finished -> close g w = w.
Proof.
  unfold frame_of, close. destruct (gens w !! g) as [[self f]|]; [|done].
  simpl. intros H. by inversion H.
Qed.

(** A generator is closed once: closing it again changes nothing. *)
Lemma close_once (g : nat) (w : world) : close g (close g w) = close g w.
Proof.
  destruct (gens w !! g) as [x|] eqn:Hg.
  - apply close_finished, close_finishes. by eexists.
  - unfold close at 2. rewrite Hg. unfold close. by rewrite Hg.
Qed.

Lemma primed_in_trace (g : nat) (initializers inits : list nat) :
  g ∈ inits ->
  Primed g (bool_decide (g ∈ initializers))
  ∈ map (fun g' => Primed g' (bool_decide (g' ∈ initializers))) inits.
Proof.
  intros Hg. apply list_elem_of_In, in_map_iff. exists g.
  split; [done|]. by apply list_elem_of_In.
Qed.

Lemma closed_not_primed (g : nat) (b : nat -> bool) (inits : list nat) :
  Closed g ∉ map (fun g' => Primed g' (b g')) inits.
Proof.
  intros Hin. apply list_elem_of_In, in_map_iff in Hin as (g' & Heq & _).
  discriminate.
Qed.

Lemma closed_not_sent (g : nat) (data_source : list (gmap string value))
    (inits : list nat) :
  Closed g
  ∉ flat_map (fun row => map (fun g' => Sent g' row) inits) data_source.
Proof.
  intros Hin. apply list_elem_of_In, in_flat_map in Hin as (row & _ & Hin).
  apply in_map_iff in Hin as (g' & Heq & _). discriminate.
Qed.

(** When no initializer raises, [initialize_tensorizers] sends every row of
    the data source, in source order, to each generator that suspended at
    priming, and nothing to a generator that did not suspend, which is left
    finished; the calls it makes are priming calls and sends. *)
Lemma run_trace (tensorizers : list (string * nat))
    (data_source : list (gmap string value)) (w w' : world)
    (tr : list event) :
  initialize_tensorizers tensorizers data_source w = (Ok tt, w', tr) ->
  (forall g : nat,
     (length (gens w) <= g < length (gens w) + length tensorizers)%nat ->
     (Primed g true ∈ tr /\
      sent_to g tr = data_source /\
      (exists b, frame_of g w' = Some (Suspended b)) /\
      frame_of g (close g w') = Some Finished /\
      close g (close g w') = close g w')
     \/
     (Primed g false ∈ tr /\
      sent_to g tr = [] /\
      frame_of g w' = Some Finished)) /\
  (forall g : nat, Closed g ∉ tr).
Proof.
  unfold initialize_tensorizers. rewrite create_spec, length_map.
  set (inits := seq (length (gens w)) (length tensorizers)).
  set (w0 := mkWorld _ _).
  destruct (prime inits w0) as [[r w1] tr1] eqn:Hprime.
  destruct r as [initializers|e]; [|discriminate].
  intros Hrun.
  destruct (prime_spec _ _ _ _ _ Hprime (NoDup_seq _ _))
    as (Htr1 & Hsub & Hnd & Hsus & Hfin & _).
  assert (forall g, (length (gens w) <= g < length (gens w) + length tensorizers)%nat
                    -> g ∈ inits) as Hrange.
  { intros g Hg. apply elem_of_seq. lia. }
  assert (exists tr2 : list event,
            tr = tr1 ++ tr2 /\
            tr2 = flat_map (fun row => map (fun g => Sent g row) initializers)
                    (match initializers with [] => [] | _ => data_source end) /\
            (forall g, g ∉ initializers -> frame_of g w' = frame_of g w1) /\
            (forall g, g ∈ initializers ->
                       exists b, frame_of g w' = Some (Suspended b)))
    as (tr2 & -> & Htr2 & Hkeep & Hsus').
  { clear Htr1. destruct initializers as [|init rest].
    - inversion Hrun; subst. exists []. rewrite app_nil_r.
      split; [done|split; [done|split; [done|]]].
      intros g Hg. by apply elem_of_nil in Hg.
    - destruct (feed data_source (init :: rest) w1) as [[r w2] tr2] eqn:Hfeed.
      inversion Hrun; subst.
      destruct (feed_spec _ _ _ _ _ Hfeed) as (Htr2 & Hkeep & Hsus').
      exists tr2. split; [done|split; [done|split; [done|]]].
      intros g Hg. apply Hsus'; [done|]. by apply Hsus. }
  clear Hrun. split.
  - intros g Hg. apply Hrange in Hg.
    pose proof (primed_in_trace g initializers inits Hg) as Hprimed.
    rewrite <- Htr1 in Hprimed.
    assert (sent_to g tr1 = []) as Hs1.
    { rewrite Htr1.
      apply (sent_to_primed g (fun g' => bool_decide (g' ∈ initializers))). }
    destruct (decide (g ∈ initializers)) as [Hin|Hnin].
    + left. rewrite bool_decide_eq_true_2 in Hprimed by done.
      destruct (Hsus' g Hin) as [b Hb].
      split; [apply elem_of_app; by left|].
      split; [|split; [by eexists|split]].
      * rewrite sent_to_app, Hs1, Htr2, sent_to_feed, decide_True by done.
        simpl. by destruct initializers; [apply elem_of_nil in Hin|].
      * apply close_finishes. unfold frame_of in Hb.
        destruct (gens w' !! g); [by eexists|done].
      * apply close_once.
    + right. rewrite bool_decide_eq_false_2 in Hprimed by done.
      split; [apply elem_of_app; by left|]. split.
      * rewrite sent_to_app, Hs1, Htr2, sent_to_feed, decide_False by done.
        done.
      * rewrite Hkeep by done. by apply Hfin.
  - intros g Hin. apply elem_of_app in Hin as [Hin|Hin].
    + rewrite Htr1 in Hin.
      by apply (closed_not_primed g (fun g' => bool_decide (g' ∈ initializers)))
        in Hin.
    + rewrite Htr2 in Hin. by apply closed_not_sent in Hin.
Qed.

End Streaming.

(** * Further properties *)

Ltac case_matches :=
  repeat match goal with
    | |- context [match ?x with _ => _ end] => destruct x eqn:?
    end.

(** ** The alignment loop: invariants *)

Section WordLabelInvariants.
Import WordLabelTensorizer.

Lemma loop_step_invariant (tokens : list Token) (slots : list Slot)
    (st st' : loop_state) :
  loop_invariant tokens slots st ->
  loop_step tokens slots st = Some st' ->
  loop_invariant tokens slots st'.
Proof.
  intros (Hlen & Hle & Hin) Hstep. unfold loop_step in Hstep.
  destruct (tokens !! current_token st) as [tok|] eqn:Ht; [|done].
  destruct (slots !! current_slot st) as [slot|] eqn:Hs; [|done].
  apply lookup_lt_Some in Ht.
  destruct (tok_start tok >? slot_end slot); inversion Hstep; subst; clear Hstep.
  - done.
  - split; [|split]; simpl.
    + rewrite length_app. simpl. lia.
    + lia.
    + intros s Hs'. apply elem_of_app in Hs' as [Hs'|Hs']; [by apply Hin|].
      apply list_elem_of_singleton in Hs'. subst.
      destruct (tok_end tok >? slot_start slot); [|by left].
      right. exists slot. split; [|done]. by eapply list_elem_of_lookup_2.
Qed.

Lemma loop_invariant_holds (tokens : list Token) (slots : list Slot) :
  forall fuel st,
    loop_invariant tokens slots st ->
    loop_invariant tokens slots (loop fuel tokens slots st).
Proof.
  induction fuel as [|fuel IH]; intros st Hinv; simpl; [done|].
  destruct (loop_step tokens slots st) as [st'|] eqn:Hstep; [|done].
  apply IH. by eapply loop_step_invariant.
Qed.

Lemma loop_init_invariant (tokens : list Token) (slots : list Slot) :
  loop_invariant tokens slots loop_init.
Proof.
  split; [done|]. split; [simpl; lia|]. intros s Hs.
  by apply elem_of_nil in Hs.
Qed.

Lemma numberize_ok_inv (self : t) (row : gmap string value) (text : string)
    (ids : list nat) :
  get_str row (text_column self) = Ok text ->
  numberize self row = Ok ids ->
  exists slots v,
    get_slots row (slot_column self) = Ok slots /\
    vocab self = Some v /\
    Vocab.lookup_all v (align (tokenizer self text) slots) = Ok ids.
Proof.
  intros Htext. unfold numberize.
  destruct (get_slots row (slot_column self)) as [slots|e]; [|done].
  rewrite Htext. cbn [mbind result_bind].
  destruct (vocab self) as [v|]; [|done]. intros H. by exists slots, v.
Qed.

(** X1: [numberize] never returns more label ids than the text has tokens. *)
Theorem word_label_numberize_at_most_tokens (self : t)
    (row : gmap string value) (text : string) (ids : list nat) :
  get_str row (text_column self) = Ok text ->
  numberize self row = Ok ids ->
  (length ids <= length (tokenizer self text))%nat.
Proof.
  intros Htext Hnum.
  destruct (numberize_ok_inv self row text ids Htext Hnum)
    as (slots & v & _ & _ & Hids).
  apply mapR_length in Hids. rewrite Hids. unfold align.
  destruct (loop_invariant_holds (tokenizer self text) slots
              (length (tokenizer self text) + length slots) loop_init
              (loop_init_invariant _ _)) as (Hlen & Hle & _).
  lia.
Qed.

Lemma word_label_numberize_at_most_tokens_witness :
  (1 <= length (tokenizer slot_encoder "play the song"))%nat.
Proof.
  apply (word_label_numberize_at_most_tokens slot_encoder
           (song_row [mkSlot "verb" 0 4]) "play the song" [3%nat]);
    reflexivity.
Defined.

Lemma align_labels_known (tokens : list Token) (slots : list Slot)
    (s : symbol) :
  s ∈ align tokens slots ->
  s = NO_LABEL \/ exists slot, slot ∈ slots /\ s = Word (slot_label slot).
Proof.
  unfold align.
  destruct (loop_invariant_holds tokens slots (length tokens + length slots)
              loop_init (loop_init_invariant _ _)) as (_ & _ & Hin).
  apply Hin.
Qed.

(** X2: Every label the alignment produces is the sentinel or the text of a
    span label of the row: no other label reaches the vocabulary lookup. *)
Theorem align_labels_from_slots (tokens : list Token) (slots : list Slot)
    (s : symbol) :
  s ∈ align tokens slots ->
  s = NO_LABEL \/ exists slot, slot ∈ slots /\ s = Word (slot_label slot).
Proof. apply align_labels_known. Qed.

Lemma align_labels_from_slots_witness :
  Word "song_name" = NO_LABEL \/
  exists slot, slot ∈ [mkSlot "song_name" 9 13]
               /\ Word "song_name" = Word (slot_label slot).
Proof.
  apply (align_labels_from_slots play_the_song [mkSlot "song_name" 9 13]).
  vm_compute. apply elem_of_cons. right. apply elem_of_cons. right.
  apply elem_of_cons. by left.
Defined.

(** The span-label pointer stays within the span labels when no token
    starts after the end of the last one. *)
Lemma loop_slot_pointer (tokens : list Token) (slots : list Slot)
    (l : Slot) :
  last slots = Some l ->
  (forall tok, tok ∈ tokens -> tok_start tok <= slot_end l) ->
  forall fuel st,
    (current_slot st < length slots)%nat ->
    (current_slot (loop fuel tokens slots st) < length slots)%nat.
Proof.
  intros Hlast Hstart. induction fuel as [|fuel IH]; intros st Hcs; simpl;
    [done|].
  destruct (loop_step tokens slots st) as [st'|] eqn:Hstep; [|done].
  apply IH. unfold loop_step in Hstep.
  destruct (tokens !! current_token st) as [tok|] eqn:Ht; [|done].
  destruct (slots !! current_slot st) as [slot|] eqn:Hs; [|done].
  destruct (Z.gtb_spec (tok_start tok) (slot_end slot)) as [Hgt|Hle];
    inversion Hstep; subst; clear Hstep; simpl; [|done].
  destruct (decide (S (current_slot st) = length slots)) as [Heq|Hne]; [|lia].
  exfalso. rewrite last_lookup in Hlast.
  replace (Init.Nat.pred (length slots)) with (current_slot st) in Hlast by lia.
  rewrite Hs in Hlast. inversion Hlast; subst.
  apply list_elem_of_lookup_2 in Ht. specialize (Hstart tok Ht). lia.
Qed.

(** X3: When the row has a span label and no token starts after the end of the
    last span label, the loop runs through all the tokens and [numberize]
    returns exactly one label id per token. *)
Theorem word_label_numberize_covers (self : t) (row : gmap string value)
    (text : string) (slots : list Slot) (l : Slot) (ids : list nat) :
  get_str row (text_column self) = Ok text ->
  get_slots row (slot_column self) = Ok slots ->
  last slots = Some l ->
  (forall tok, tok ∈ tokenizer self text -> tok_start tok <= slot_end l) ->
  numberize self row = Ok ids ->
  length ids = length (tokenizer self text).
Proof.
  intros Htext Hslots Hlast Hstart Hnum.
  destruct (numberize_ok_inv self row text ids Htext Hnum)
    as (slots' & v & Hslots' & _ & Hids).
  rewrite Hslots in Hslots'. inversion Hslots'; subst slots'.
  apply mapR_length in Hids. rewrite Hids. unfold align.
  set (tokens := tokenizer self text) in *.
  set (fuel := (length tokens + length slots)%nat).
  destruct (loop_invariant_holds tokens slots fuel loop_init
              (loop_init_invariant _ _)) as (Hlen & Hle & _).
  assert (current_slot (loop fuel tokens slots loop_init) < length slots)%nat
    as Hcs.
  { apply (loop_slot_pointer tokens slots l Hlast Hstart). simpl.
    destruct slots; [done|simpl; lia]. }
  pose proof (loop_exits tokens slots) as Hexit. fold fuel in Hexit.
  unfold loop_step in Hexit.
  destruct (tokens !! current_token (loop fuel tokens slots loop_init))
    as [tok|] eqn:Ht.
  - apply lookup_lt_is_Some_2 in Hcs as [slot Hs]. rewrite Hs in Hexit.
    by destruct (tok_start tok >? slot_end slot).
  - apply lookup_ge_None in Ht. lia.
Qed.

Lemma word_label_numberize_covers_witness :
  length [1; 1; 2]%nat = length (tokenizer slot_encoder "play the song").
Proof.
  apply (word_label_numberize_covers slot_encoder
           (song_row [mkSlot "song_name" 9 13]) "play the song"
           [mkSlot "song_name" 9 13] (mkSlot "song_name" 9 13) [1; 1; 2]%nat);
    try reflexivity.
  intros tok Htok. vm_compute in Htok.
  repeat (apply elem_of_cons in Htok as [->|Htok]; [simpl; lia|]).
  by apply elem_of_nil in Htok.
Defined.

Lemma loop_one_slot (tokens : list Token) (slot : Slot) :
  forall fuel st,
    current_slot st = 0%nat ->
    (length tokens - current_token st + 1 <= fuel)%nat ->
    labels (loop fuel tokens [slot] st)
    = labels st ++ one_slot_labels slot (drop (current_token st) tokens).
Proof.
  induction fuel as [|fuel IH]; intros st Hcs Hfuel; [lia|].
  cbn [loop]. unfold loop_step. rewrite Hcs.
  destruct (tokens !! current_token st) as [tok|] eqn:Ht.
  - rewrite (drop_S _ _ _ Ht). cbn [lookup list_lookup one_slot_labels].
    apply lookup_lt_Some in Ht as Hlt.
    destruct (tok_start tok >? slot_end slot).
    + rewrite app_nil_r. destruct fuel as [|fuel']; [done|].
      cbn [loop]. unfold loop_step. cbn [current_slot current_token].
      by destruct (tokens !! current_token st).
    + rewrite IH; cbn [current_slot current_token labels]; [|done|lia].
      by rewrite <- app_assoc.
  - apply lookup_ge_None in Ht. rewrite drop_ge by done. cbn [one_slot_labels].
    by rewrite app_nil_r.
Qed.

(** X4: Against a single span label the alignment has a closed form: the
    tokens are labelled one after the other up to the first token that starts
    after the end of the span label, where the labelling stops; a token before
    that gets the label when it ends after the start of the span label, a
    token that starts exactly at its end included, and the sentinel when
    not. *)
Theorem align_one_slot (tokens : list Token) (slot : Slot) :
  align tokens [slot] = one_slot_labels slot tokens.
Proof.
  unfold align. rewrite loop_one_slot; [done|done|simpl; lia].
Qed.

End WordLabelInvariants.

(** ** Token encoder: boundaries, limits, reverse lookup *)

Section TokenEncoderMore.
Import TokenTensorizer.

Lemma take_z_all {A} (l : list A) :
  forall n, Z.of_nat (length l) <= n -> take_z n l = l.
Proof.
  intros n Hn. rewrite take_z_take. apply take_ge. lia.
Qed.

Lemma mapR_cons_inv {A B} (f : A -> result B) (a : A) (l : list A)
    (bs : list B) :
  mapR f (a :: l) = Ok bs ->
  exists b bs', f a = Ok b /\ mapR f l = Ok bs' /\ bs = b :: bs'.
Proof.
  simpl. destruct (f a) as [b|e]; [|done]. simpl.
  destruct (mapR f l) as [bs'|e]; [|done]. simpl.
  intros H. inversion H; subst. by exists b, bs'.
Qed.

Lemma mapR_app_inv {A B} (f : A -> result B) (l1 l2 : list A) :
  forall bs,
    mapR f (l1 ++ l2) = Ok bs ->
    exists bs1 bs2, mapR f l1 = Ok bs1 /\ mapR f l2 = Ok bs2 /\ bs = bs1 ++ bs2.
Proof.
  induction l1 as [|a l1 IH]; intros bs H.
  - exists [], bs. by simpl in *.
  - change ((a :: l1) ++ l2) with (a :: (l1 ++ l2)) in H.
    apply mapR_cons_inv in H as (b & bs' & Ha & Hrest & ->).
    destruct (IH _ Hrest) as (bs1 & bs2 & H1 & H2 & ->).
    exists (b :: bs1), bs2. simpl. rewrite Ha, H1. by simpl.
Qed.

Lemma numberize_token_inv (self : t) (row : gmap string value) (text : string)
    (ids : list nat) (n : nat) :
  get_str row (text_column self) = Ok text ->
  numberize self row = Ok (ids, n) ->
  exists v,
    vocab self = Some v /\
    Vocab.lookup_all v (map tok_value (tokenized self text)) = Ok ids /\
    n = length ids /\
    tokenized self text <> [].
Proof.
  intros Htext. unfold numberize, _lookup_tokens. rewrite Htext.
  cbn [mbind result_bind].
  destruct (tokenized self text) as [|tok l] eqn:Htok; [done|].
  cbn [unzip3 mbind result_bind]. destruct (vocab self) as [v|]; [|done].
  destruct (Vocab.lookup_all v (map tok_value (tok :: l))) as [ids'|e] eqn:Hl;
    cbn [mbind result_bind]; [|done].
  intros H. inversion H; subst. by exists v.
Qed.

(** X5: With a boundary token configured and a vocabulary that reserves UNK,
    a text without tokens is encoded as the boundary tokens alone:
    [numberize] returns as many ids as boundary tokens are configured. *)
Theorem token_numberize_boundaries_only (self : t) (row : gmap string value)
    (text : string) (v : Vocab.t) (u : nat) :
  get_str row (text_column self) = Ok text ->
  vocab self = Some v ->
  index_of UNK (Vocab.vocab_list v) = Some u ->
  tokenizer self text = [] ->
  add_bos_token self = true \/ add_eos_token self = true ->
  exists ids,
    numberize self row = Ok (ids, length ids) /\
    Z.of_nat (length ids) = boundary_count self /\
    (1 <= length ids)%nat.
Proof.
  intros Hrow Hv Hu Htok Hb.
  destruct (mapR_ok (Vocab.lookup v) (map tok_value (tokenized self text)))
    as [ids Hids].
  { intros s. by apply (lookup_with_unk v s u). }
  assert (Z.of_nat (length (tokenized self text)) = boundary_count self
          /\ tokenized self text <> []) as [Hlen Hne].
  { unfold tokenized, boundary_count. rewrite Htok, slice_to_nil.
    destruct Hb as [Hb|Hb]; rewrite Hb;
      destruct (add_bos_token self), (add_eos_token self); done. }
  exists ids. pose proof (mapR_length _ _ _ Hids) as Hl.
  rewrite length_map in Hl. split; [|split].
  - unfold numberize, _lookup_tokens, unzip3, Vocab.lookup_all in *.
    rewrite Hrow. cbn [mbind result_bind].
    destruct (tokenized self text) as [|tok l]; [done|].
    cbn [mbind result_bind]. rewrite Hv, Hids. done.
  - by rewrite Hl.
  - destruct (tokenized self text); [done|]. simpl in Hl. lia.
Qed.

Lemma token_numberize_boundaries_only_witness :
  exists ids,
    numberize (token_encoder true true None) (text_row "")
    = Ok (ids, length ids) /\
    Z.of_nat (length ids) = 2 /\ (1 <= length ids)%nat.
Proof.
  apply (token_numberize_boundaries_only (token_encoder true true None)
           (text_row "") "" (word_vocab ["play"; "the"; "song"]) 0);
    try reflexivity.
  by left.
Defined.

(** X6: A length limit of 0, like no limit, stands for 2 ** 30: the encoder
    built with it truncates nothing of a text of at most 2 ** 30 tokens. *)
Theorem token_init_zero_limit (text_column : string)
    (tokenizer : string -> list Token) (bos eos use_eos : bool)
    (m : option Z) (vocab : option Vocab.t) (text : string) :
  m = None \/ m = Some 0 ->
  Z.of_nat (length (tokenizer text)) <= 2 ^ 30 ->
  tokenized (init text_column tokenizer bos eos use_eos m vocab) text
  = (if bos then [mkToken (if use_eos then EOS else BOS) (-1) (-1)] else [])
    ++ tokenizer text
    ++ (if eos then [mkToken EOS (-1) (-1)] else []).
Proof.
  intros Hm Hlen. unfold tokenized, init. cbn [max_seq_len TokenTensorizer.tokenizer
    add_bos_token add_eos_token use_eos_token_for_bos].
  assert (slice_to (match m with
                    | Some n => if n =? 0 then 2 ^ 30 else n
                    | None => 2 ^ 30
                    end) (tokenizer text) = tokenizer text) as ->.
  { destruct Hm as [->| ->]; unfold slice_to; simpl (0 =? 0);
      cbv iota; by rewrite take_z_all. }
  destruct bos, eos; simpl; by rewrite ?app_nil_r.
Qed.

Lemma token_init_zero_limit_witness :
  tokenized (init "text" space_tokenize false false false (Some 0) None)
    "play the song"
  = [] ++ space_tokenize "play the song" ++ [].
Proof.
  apply (token_init_zero_limit "text" space_tokenize false false false (Some 0)
           None "play the song").
  - by right.
  - vm_compute. discriminate.
Defined.

(** X7: The boundary tokens are added after the truncation and are never cut:
    whatever the length limit, a returned id sequence starts with the id of
    the start symbol when BOS is configured and ends with the id of EOS when
    EOS is configured. *)
Theorem token_numberize_boundary_ids (self : t) (row : gmap string value)
    (text : string) (ids : list nat) (n : nat) :
  get_str row (text_column self) = Ok text ->
  numberize self row = Ok (ids, n) ->
  exists v,
    vocab self = Some v /\
    (add_bos_token self = true ->
     exists i, Vocab.lookup v (bos_symbol self) = Ok i /\ head ids = Some i) /\
    (add_eos_token self = true ->
     exists i, Vocab.lookup v EOS = Ok i /\ last ids = Some i).
Proof.
  intros Htext Hnum.
  destruct (numberize_token_inv self row text ids n Htext Hnum)
    as (v & Hv & Hids & _ & _).
  exists v. split; [done|]. unfold Vocab.lookup_all, tokenized in Hids.
  split; intros Hb.
  - rewrite Hb in Hids. fold (bos_symbol self) in Hids.
    destruct (add_eos_token self); simpl map in Hids;
      apply mapR_cons_inv in Hids as (i & bs & Hi & _ & ->); by exists i.
  - rewrite Hb in Hids. rewrite map_app in Hids.
    apply mapR_app_inv in Hids as (bs1 & bs2 & _ & H2 & ->).
    apply mapR_cons_inv in H2 as (i & bs' & Hi & Hnil & ->).
    simpl in Hnil. inversion Hnil; subst. exists i. split; [done|].
    by rewrite last_snoc.
Qed.

Lemma token_numberize_boundary_ids_witness :
  exists v,
    vocab (token_encoder true true (Some 2)) = Some v /\
    (add_bos_token (token_encoder true true (Some 2)) = true ->
     exists i, Vocab.lookup v (bos_symbol (token_encoder true true (Some 2)))
               = Ok i /\ head [0; 2; 0; 0]%nat = Some i) /\
    (add_eos_token (token_encoder true true (Some 2)) = true ->
     exists i, Vocab.lookup v EOS = Ok i /\ last [0; 2; 0; 0]%nat = Some i).
Proof.
  apply (token_numberize_boundary_ids (token_encoder true true (Some 2))
           (text_row "play a song") "play a song" [0; 2; 0; 0]%nat 4);
    reflexivity.
Defined.

Lemma index_of_lookup (s : symbol) (l : list symbol) :
  forall i, index_of s l = Some i -> l !! i = Some s.
Proof.
  induction l as [|x l IH]; intros i; simpl; [done|].
  case_decide as Hx.
  - intros H. inversion H; subst. done.
  - destruct (index_of s l) as [j|]; [|done]. simpl.
    intros H. inversion H; subst. by apply IH.
Qed.

Lemma index_of_None (s : symbol) (l : list symbol) :
  index_of s l = None <-> s ∉ l.
Proof.
  induction l as [|x l IH]; simpl.
  - split; [|done]. intros _ H. by apply elem_of_nil in H.
  - case_decide as Hx.
    + subst. split; [done|]. intros H. exfalso. apply H, list_elem_of_here.
    + destruct (index_of s l) as [j|] eqn:Hj; simpl.
      * split; [done|]. intros H. exfalso. apply H. apply elem_of_cons. right.
        destruct (decide (s ∈ l)) as [Hin|Hnin]; [done|].
        apply IH in Hnin. discriminate.
      * split; [|done]. intros _ H. apply elem_of_cons in H as [->|H]; [done|].
        by apply IH in H.
Qed.

Lemma lookup_getitem (v : Vocab.t) (s : symbol) (i : nat) :
  Vocab.lookup v s = Ok i -> Vocab.getitem v i = Ok (known_or_unk v s).
Proof.
  unfold Vocab.lookup, Vocab.getitem, known_or_unk.
  destruct (index_of s (Vocab.vocab_list v)) as [j|] eqn:Hs.
  - intros H. inversion H; subst. rewrite (index_of_lookup _ _ _ Hs).
    rewrite decide_True; [done|]. by eapply list_elem_of_lookup_2, index_of_lookup.
  - apply index_of_None in Hs.
    destruct (index_of UNK (Vocab.vocab_list v)) as [u|] eqn:Hu; [|done].
    intros H. inversion H; subst. rewrite (index_of_lookup _ _ _ Hu).
    by rewrite decide_False.
Qed.

Lemma mapR_lookup_getitem (v : Vocab.t) (l : list symbol) :
  forall ids,
    mapR (Vocab.lookup v) l = Ok ids ->
    mapR (Vocab.getitem v) ids = Ok (map (known_or_unk v) l).
Proof.
  induction l as [|s l IH]; intros ids H.
  - simpl in H. by inversion H.
  - apply mapR_cons_inv in H as (i & ids' & Hi & Hrest & ->).
    simpl. rewrite (lookup_getitem _ _ _ Hi). simpl. by rewrite (IH _ Hrest).
Qed.

(** X8: Round trip: the reverse lookup of the ids [numberize] returns gives
    back the values of the truncated and extended token list, each value the
    vocabulary does not hold replaced by UNK; and the sort key of the
    numberized row is the number of those tokens. *)
Theorem token_reverse_lookup_round_trip (self : t) (row : gmap string value)
    (text : string) (ids : list nat) (n : nat) :
  get_str row (text_column self) = Ok text ->
  numberize self row = Ok (ids, n) ->
  exists v,
    vocab self = Some v /\
    _reverse_lookup self ids
    = Ok (map (fun tok => known_or_unk v (tok_value tok)) (tokenized self text)) /\
    sort_key (ids, n) = length (tokenized self text).
Proof.
  intros Htext Hnum.
  destruct (numberize_token_inv self row text ids n Htext Hnum)
    as (v & Hv & Hids & -> & _).
  exists v. split; [done|]. split.
  - unfold _reverse_lookup. rewrite Hv.
    rewrite (mapR_lookup_getitem v _ _ Hids). by rewrite map_map.
  - apply mapR_length in Hids. by rewrite length_map in Hids.
Qed.

Lemma token_reverse_lookup_round_trip_witness :
  exists v,
    vocab (token_encoder false false None) = Some v /\
    _reverse_lookup (token_encoder false false None) [2; 0; 4]%nat
    = Ok (map (fun tok => known_or_unk v (tok_value tok))
            (tokenized (token_encoder false false None) "play a song")) /\
    sort_key ([2; 0; 4]%nat, 3%nat)
    = length (tokenized (token_encoder false false None) "play a song").
Proof.
  apply (token_reverse_lookup_round_trip (token_encoder false false None)
           (text_row "play a song") "play a song" [2; 0; 4]%nat 3);
    reflexivity.
Defined.

End TokenEncoderMore.

(** ** Byte encoder *)

Section ByteEncoder.
Import ByteTensorizer.

(** X9: [numberize] returns the bytes of the (lowered) text with their number.
    A limit that is unset or 0 truncates nothing; a positive limit keeps the
    first bytes up to the limit. *)
Theorem byte_numberize_truncation (str_lower : string -> string)
    (str_encode : string -> list Byte.byte) (self : t)
    (row : gmap string value) (text : string) :
  get_str row (text_column self) = Ok text ->
  exists bytes,
    numberize str_lower str_encode self row = Ok (bytes, length bytes) /\
    (max_seq_len self = None \/ max_seq_len self = Some 0 ->
     bytes = str_encode (if lower self then str_lower text else text)) /\
    (forall n, max_seq_len self = Some n -> 0 < n ->
       bytes = take (Z.to_nat n)
                 (str_encode (if lower self then str_lower text else text)) /\
       Z.of_nat (length bytes) <= n).
Proof.
  intros Hrow. unfold numberize. rewrite Hrow. cbn [mbind result_bind].
  eexists. split; [reflexivity|]. split.
  - intros [-> | ->]; done.
  - intros n -> Hn. destruct (Z.eqb_spec n 0) as [->|_]; [lia|].
    rewrite slice_to_nonneg by lia. split; [done|]. rewrite length_take. lia.
Qed.

Lemma byte_numberize_truncation_witness :
  exists bytes,
    numberize ascii_lower list_byte_of_string (mk "text" true (Some 3))
      (text_row "PLAY")
    = Ok (bytes, length bytes) /\
    bytes = take 3 (list_byte_of_string (ascii_lower "PLAY")).
Proof.
  destruct (byte_numberize_truncation ascii_lower list_byte_of_string
              (mk "text" true (Some 3)) (text_row "PLAY") "PLAY" eq_refl)
    as (bytes & Hnum & _ & Hpos).
  exists bytes. split; [exact Hnum|].
  destruct (Hpos 3 eq_refl) as [Hb _]; [lia|exact Hb].
Defined.

End ByteEncoder.

(** ** Character encoder: consistency of the two results *)

Section CharacterEncoderMore.
Import CharacterTokenTensorizer.

(** X10: The two lists [numberize] returns go together: the i-th length is the
    length of the i-th code sequence, no code sequence is longer than a
    [max_char_length] that is not negative, and the sort key of the row is
    the number of code sequences, at most a [max_seq_len] that is not
    negative. *)
Theorem character_numberize_consistent (self : t) (row : gmap string value)
    (characters : list (list nat)) (lengths : list nat) :
  numberize self row = Ok (characters, lengths) ->
  lengths = map (fun token_chars => length token_chars) characters /\
  sort_key (characters, lengths) = length lengths /\
  (0 <= max_char_length self ->
   forall token_chars, token_chars ∈ characters ->
     Z.of_nat (length token_chars) <= max_char_length self) /\
  (0 <= TokenTensorizer.max_seq_len (base self) ->
   Z.of_nat (sort_key (characters, lengths))
   <= TokenTensorizer.max_seq_len (base self)).
Proof.
  unfold numberize.
  destruct (get_str row (TokenTensorizer.text_column (base self)))
    as [text|e]; [|done].
  cbn [mbind result_bind]. intros H. inversion H; subst. clear H.
  unfold sort_key. cbn [fst]. rewrite !length_map.
  split; [done|]. split; [done|]. split.
  - intros Hn chars Hin.
    apply list_elem_of_In, in_map_iff in Hin as (tok & <- & _).
    rewrite length_slice_to by done. lia.
  - intros Hn. rewrite length_slice_to by done. lia.
Qed.

Lemma character_numberize_consistent_witness :
  [3; 3]%nat
  = map (fun token_chars : list nat => length token_chars)
      [[104; 101; 108]; [98; 105; 103]]%nat.
Proof.
  apply (character_numberize_consistent character_encoder
           (text_row "hello big world")
           [[104; 101; 108]; [98; 105; 103]]%nat [3; 3]%nat).
  reflexivity.
Defined.

End CharacterEncoderMore.

(** ** Joined strings *)

Section JoinedStrings.
Import JoinStringTensorizer.

Lemma mapR_app {A B} (f : A -> result B) (l1 l2 : list A) :
  mapR f (l1 ++ l2)
  = (bs1 ← mapR f l1; bs2 ← mapR f l2; Ok (bs1 ++ bs2)).
Proof.
  induction l1 as [|a l1 IH]; simpl.
  - destruct (mapR f l2); done.
  - destruct (f a) as [b|e]; [|done]. simpl. rewrite IH.
    destruct (mapR f l1) as [bs1|e]; [|done]. simpl.
    destruct (mapR f l2); done.
Qed.

Lemma mapR_getitem_present (row : gmap string value) (cols : list string) :
  (forall c, c ∈ cols -> is_Some (row !! c)) ->
  exists values, mapR (getitem row) cols = Ok values.
Proof.
  induction cols as [|c cols IH]; intros Hall; [by eexists|].
  destruct (Hall c) as [v Hv]; [apply list_elem_of_here|].
  destruct IH as [values Hvalues].
  { intros c' Hc'. apply Hall. by apply list_elem_of_further. }
  exists (v :: values). cbn [mapR].
  assert (getitem row c = Ok v) as -> by (unfold getitem; by rewrite Hv).
  cbn [mbind result_bind]. by rewrite Hvalues.
Qed.

(** X11: A missing column is reported before anything is joined: [numberize]
    raises the [KeyError] of the first configured column the row lacks,
    whatever the row holds in the other columns. *)
Theorem join_numberize_missing_column (self : t) (row : gmap string value)
    (before after : list string) (c : string) :
  columns self = before ++ c :: after ->
  (forall c', c' ∈ before -> is_Some (row !! c')) ->
  row !! c = None ->
  numberize self row = Raise (KeyError c).
Proof.
  intros Hcols Hbefore Hc. unfold numberize. rewrite Hcols, mapR_app.
  destruct (mapR_getitem_present row before Hbefore) as [values ->].
  assert (getitem row c = Raise (KeyError c)) as Hget
    by (unfold getitem; by rewrite Hc).
  cbn [mapR mbind result_bind]. by rewrite Hget.
Qed.

Lemma join_numberize_missing_column_witness :
  numberize (mk ["text"; "label"; "slots"] " | ") (text_row "play")
  = Raise (KeyError "label").
Proof.
  apply (join_numberize_missing_column (mk ["text"; "label"; "slots"] " | ")
           (text_row "play") ["text"] ["slots"] "label").
  - reflexivity.
  - intros c' Hc'. apply list_elem_of_singleton in Hc'. subst. by eexists.
  - reflexivity.
Defined.

Lemma string_length_app (s1 s2 : string) :
  String.length (s1 ++ s2)%string = (String.length s1 + String.length s2)%nat.
Proof. induction s1 as [|c s1 IH]; simpl; [done|]. by rewrite IH. Qed.

Lemma length_join (sep : string) (l : list string) :
  String.length (join sep l)
  = (list_sum (map String.length l)
     + String.length sep * (length l - 1))%nat.
Proof.
  induction l as [|s l IH]; [simpl; lia|].
  destruct l as [|s' l].
  - simpl. lia.
  - change (join sep (s :: s' :: l)) with (s ++ sep ++ join sep (s' :: l))%string.
    rewrite !string_length_app, IH. simpl. lia.
Qed.

Lemma get_str_getitem (row : gmap string value) (c s : string) :
  get_str row c = Ok s -> getitem row c = Ok (VStr s).
Proof.
  unfold get_str. destruct (getitem row c) as [v|e]; [|done].
  cbn [mbind result_bind]. destruct v; [|done]. by intros [= ->].
Qed.

Lemma mapR_get_str (row : gmap string value) (cols : list string) :
  forall strings,
    mapR (fun c => get_str row c) cols = Ok strings ->
    mapR (getitem row) cols = Ok (map VStr strings).
Proof.
  induction cols as [|c cols IH]; intros strings H.
  - simpl in H. by inversion H.
  - cbn [mapR] in H. destruct (get_str row c) as [s|e] eqn:Hs; [|done].
    cbn [mbind result_bind] in H.
    destruct (mapR (fun c => get_str row c) cols) as [ss|e]; [|done].
    cbn [mbind result_bind] in H. inversion H; subst.
    cbn [mapR]. rewrite (get_str_getitem _ _ _ Hs), (IH ss eq_refl). done.
Qed.

Lemma mapR_as_str (strings : list string) :
  mapR as_str (map VStr strings) = Ok strings.
Proof.
  induction strings as [|s l IH]; [done|].
  cbn [map mapR as_str mbind result_bind]. by rewrite IH.
Qed.

(** X12: When the row holds a string in every configured column, [numberize]
    returns them joined in configuration order: the result is as long as
    the strings together plus one delimiter between neighbours. *)
Theorem join_numberize_length (self : t) (row : gmap string value)
    (strings : list string) :
  mapR (fun c => get_str row c) (columns self) = Ok strings ->
  numberize self row = Ok (join (delimiter self) strings) /\
  String.length (join (delimiter self) strings)
  = (list_sum (map String.length strings)
     + String.length (delimiter self) * (length (columns self) - 1))%nat.
Proof.
  intros Hstr. split.
  - unfold numberize. rewrite (mapR_get_str _ _ _ Hstr).
    cbn [mbind result_bind]. by rewrite mapR_as_str.
  - rewrite length_join. apply mapR_length in Hstr. by rewrite Hstr.
Qed.

Lemma join_numberize_length_witness :
  numberize (mk ["text"; "label"] " | ")
    {[ "text" := VStr "play"; "label" := VStr "verb" ]}
  = Ok (join " | " ["play"; "verb"]).
Proof.
  apply (join_numberize_length (mk ["text"; "label"] " | ")
           {[ "text" := VStr "play"; "label" := VStr "verb" ]}
           ["play"; "verb"]).
  reflexivity.
Defined.

End JoinedStrings.

(** ** Float list encoder: dimension and normalization *)

Section FloatListMore.
Import FloatListTensorizer.

(** X13: With [error_check] enabled, a list [numberize] returns has exactly
    [dim] elements. *)
Theorem float_list_numberize_has_dim (json_loads : string -> option json)
    (float_of_str : string -> option float) (self : t)
    (row : gmap string value) (fs : list float) :
  error_check self = true ->
  numberize json_loads float_of_str self row = Ok fs ->
  dim self = Some (Z.of_nat (length fs)).
Proof.
  intros Hcheck. unfold numberize.
  destruct (get_str row (column self)) as [s|e]; [|done].
  cbn [mbind result_bind].
  destruct (json_loads (normalize s)) as [res|]; [|done].
  destruct res as [| | | | |l|]; try done.
  rewrite Hcheck. case_decide as Hdim; [|done].
  cbn [mbind result_bind]. intros Hfs. apply mapR_length in Hfs.
  by rewrite Hfs.
Qed.

Lemma float_list_numberize_has_dim_witness :
  dim (dense_encoder true (Some 3)) = Some (Z.of_nat (length [1; 2; 3]%float)).
Proof.
  apply (float_list_numberize_has_dim json_loads_fragment float_of_decimal
           (dense_encoder true (Some 3)) (dense_row "[1 2 3]"));
    reflexivity.
Defined.

Lemma many_total (p : ascii -> bool) (s : list ascii) :
  exists m r,
    many p (fun s0 : list ascii => @Some matched ([], s0)) s
    = Some (m, ([], r)).
Proof.
  induction s as [|c s (m & r & IH)]; cbn [many]; [by eexists _, _|].
  destruct (p c); [|by eexists _, _]. rewrite IH. by eexists _, _.
Qed.

(** Where a space stands, the separator rule matches. *)
Lemma separator_matches_space (s : list ascii) :
  exists gs r k,
    match_here [Maybe (is_char ","); Many (is_char " ")] (" "%char :: s)
    = Some (gs, r) /\ length (concat gs) = S k.
Proof.
  destruct (many_total (is_char " ") s) as (m & r & Hm).
  exists [[]; " "%char :: m], r, (length m).
  cbn [match_here]. change (is_char "," " ") with false.
  change (is_char " " " ") with true. cbv iota.
  cbn [match_here mbind option_bind]. unfold matched in Hm. rewrite Hm.
  split; [done|]. simpl. by rewrite app_nil_r.
Qed.

Lemma separator_leaves_no_space (s : list ascii) :
  forall skip,
    " "%char
    ∉ sub_scan [Maybe (is_char ","); Many (is_char " ")] (const_repl ",")
        skip s.
Proof.
  induction s as [|c s IH]; intros skip; cbn [sub_scan].
  - apply not_elem_of_nil.
  - destruct skip as [|k]; [|apply IH].
    assert (c <> " "%char ->
            " "%char
            ∉ c :: sub_scan [Maybe (is_char ","); Many (is_char " ")]
                     (const_repl ",") 0 s) as Hcopy.
    { intros Hc. apply not_elem_of_cons. split; [done|apply IH]. }
    destruct (match_here _ (c :: s)) as [[gs r]|] eqn:Hmatch.
    + destruct (length (concat gs)) as [|k] eqn:Hlen.
      * apply Hcopy. intros ->.
        destruct (separator_matches_space s) as (gs' & r' & k' & Hm & Hl).
        rewrite Hm in Hmatch. inversion Hmatch; subst. lia.
      * unfold const_repl. simpl. apply not_elem_of_cons. split; [done|].
        apply IH.
    + apply Hcopy. intros ->.
      destruct (separator_matches_space s) as (gs' & r' & k' & Hm & _).
      rewrite Hm in Hmatch. discriminate.
Qed.

(** X14: The text handed to [json.loads] holds no space: every run of spaces
    of the row's text has become a comma or has been removed. *)
Theorem float_list_normalize_no_space (s : string) :
  " "%char ∉ list_ascii_of_string (normalize s).
Proof.
  unfold normalize, json_input, re_sub.
  rewrite list_ascii_of_string_of_list_ascii.
  apply separator_leaves_no_space.
Qed.

Lemma many_none (p : ascii -> bool) (k : list ascii -> option matched)
    (ch : ascii) (s : list ascii) :
  (forall t, ch ∉ t -> k t = None) ->
  ch ∉ s ->
  many p k s = None.
Proof.
  intros Hk. induction s as [|c s IH]; intros Hs; simpl.
  - by rewrite Hk.
  - apply not_elem_of_cons in Hs as [Hne Hs'].
    rewrite IH by done. rewrite Hk; [|by apply not_elem_of_cons].
    by destruct (p c).
Qed.

Lemma is_char_false (ch c : ascii) : c <> ch -> is_char ch c = false.
Proof. intros H. unfold is_char. apply Ascii.eqb_neq. congruence. Qed.

Lemma strip_begin_no_match (t : list ascii) :
  " "%char ∉ t ->
  match_here [One (is_char "["); Many (is_char " ")] t = None.
Proof.
  intros Ht. destruct t as [|c t]; [done|]. cbn [match_here].
  destruct (is_char "[" c); [|done].
  destruct t as [|c' t]; [done|].
  apply not_elem_of_cons in Ht as [_ Ht].
  apply not_elem_of_cons in Ht as [Hc' _].
  rewrite is_char_false by congruence. done.
Qed.

Lemma strip_end_no_match (t : list ascii) :
  " "%char ∉ t ->
  match_here [Many (is_char " "); One (is_char "]")] t = None.
Proof.
  intros Ht. destruct t as [|c t]; [done|]. cbn [match_here].
  apply not_elem_of_cons in Ht as [Hc _].
  rewrite is_char_false by congruence. done.
Qed.

Lemma json_input_no_match (t : list ascii) :
  " "%char ∉ t ->
  match_here [Maybe (is_char ","); Many (is_char " ")] t = None.
Proof.
  intros Ht. destruct t as [|c t]; [done|].
  apply not_elem_of_cons in Ht as [Hc Ht].
  cbn [match_here mbind option_bind].
  rewrite (is_char_false " " c) by congruence.
  destruct t as [|c' t]; [by destruct (is_char "," c)|].
  apply not_elem_of_cons in Ht as [Hc' _].
  rewrite (is_char_false " " c') by congruence.
  by destruct (is_char "," c).
Qed.

Lemma match_here_many (p : ascii -> bool) (pat : list atom) (c : ascii)
    (s : list ascii) :
  match_here (Many p :: pat) (c :: s)
  = if p c
    then '(m, (gs, r)) ← many p (match_here pat) s; Some ((c :: m) :: gs, r)
    else None.
Proof. reflexivity. Qed.

Lemma point_fixed_no_match (t : list ascii) :
  "."%char ∉ t ->
  match_here
    [Many is_digit; One (is_char "."); Many (fun c => negb (is_digit c))] t
  = None.
Proof.
  intros Ht.
  assert (forall u, "."%char ∉ u ->
            match_here [One (is_char ".");
                        Many (fun c => negb (is_digit c))] u = None) as Hone.
  { intros [|c u] Hu; [done|]. cbn [match_here].
    apply not_elem_of_cons in Hu as [Hc _].
    by rewrite is_char_false by congruence. }
  destruct t as [|c t]; [done|]. rewrite match_here_many.
  apply not_elem_of_cons in Ht as [_ Ht].
  destruct (is_digit c); [|done].
  by rewrite (many_none is_digit _ "."%char t Hone Ht).
Qed.

Lemma sub_scan_no_match (pat : list atom)
    (repl : list (list ascii) -> list ascii) (ch : ascii) (s : list ascii) :
  (forall t, ch ∉ t -> match_here pat t = None) ->
  ch ∉ s ->
  sub_scan pat repl 0 s = s.
Proof.
  intros Hpat. induction s as [|c s IH]; intros Hs; [done|].
  cbn [sub_scan]. rewrite Hpat by done.
  apply not_elem_of_cons in Hs as [_ Hs]. by rewrite IH.
Qed.

Lemma re_sub_no_match (pat : list atom)
    (repl : list (list ascii) -> list ascii) (ch : ascii) (s : string) :
  (forall t, ch ∉ t -> match_here pat t = None) ->
  ch ∉ list_ascii_of_string s ->
  re_sub pat repl s = s.
Proof.
  intros Hpat Hs. unfold re_sub. rewrite (sub_scan_no_match pat repl ch) by done.
  apply string_of_list_ascii_of_string.
Qed.

(** X15: A text without a space and without a point is handed to [json.loads]
    as it is: none of the four rewrite rules touches it. *)
Theorem float_list_normalize_compact (json_loads : string -> option json)
    (float_of_str : string -> option float) (self : t)
    (row : gmap string value) (s : string) :
  get_str row (column self) = Ok s ->
  " "%char ∉ list_ascii_of_string s ->
  "."%char ∉ list_ascii_of_string s ->
  normalize s = s /\
  (json_loads s = None ->
   numberize json_loads float_of_str self row = Raise (DenseParseError s s)).
Proof.
  intros Hrow Hspace Hpoint.
  assert (normalize s = s) as Hn.
  { unfold normalize, strip_begin, strip_end, point_fixed, json_input.
    rewrite (re_sub_no_match _ _ " "%char s strip_begin_no_match Hspace).
    rewrite (re_sub_no_match _ _ " "%char s strip_end_no_match Hspace).
    rewrite (re_sub_no_match _ _ "."%char s point_fixed_no_match Hpoint).
    by rewrite (re_sub_no_match _ _ " "%char s json_input_no_match Hspace). }
  split; [done|]. intros Hbad. unfold numberize. rewrite Hrow.
  cbn [mbind result_bind]. by rewrite Hn, Hbad.
Qed.

Lemma float_list_normalize_compact_witness :
  normalize "[1,2,,3]" = "[1,2,,3]" /\
  (json_loads_fragment "[1,2,,3]" = None ->
   numberize json_loads_fragment float_of_decimal (dense_encoder false None)
     (dense_row "[1,2,,3]")
   = Raise (DenseParseError "[1,2,,3]" "[1,2,,3]")).
Proof.
  apply (float_list_normalize_compact json_loads_fragment float_of_decimal
           (dense_encoder false None) (dense_row "[1,2,,3]") "[1,2,,3]").
  - reflexivity.
  - vm_compute. intros H.
    repeat (apply elem_of_cons in H as [H|H]; [discriminate|]).
    by apply elem_of_nil in H.
  - vm_compute. intros H.
    repeat (apply elem_of_cons in H as [H|H]; [discriminate|]).
    by apply elem_of_nil in H.
Defined.

End FloatListMore.

(** ** The streaming initializer: encoders without a corpus pass *)

Section StreamingPassive.





End StreamingPassive.

(** ** The streaming initializer: what a label coroutine accumulates *)

Section StreamingLabels.

Lemma heap_set_frame (g : nat) (f : frame) (w : world) :
  heap (set_frame g f w) = heap w.
Proof. reflexivity. Qed.

Lemma gens_set_object (a : nat) (o : tensorizer) (w : world) :
  gens (set_object a o w) = gens w.
Proof. reflexivity. Qed.

Lemma gens_set_frame_ne (g g' : nat) (f : frame) (w : world) :
  g' <> g -> gens (set_frame g f w) !! g' = gens w !! g'.
Proof. intros Hne. unfold set_frame. simpl. by rewrite list_lookup_alter_ne. Qed.

Lemma gens_set_frame_eq (g a : nat) (f f' : frame) (w : world) :
  gens w !! g = Some (mkGen a f) ->
  gens (set_frame g f' w) !! g = Some (mkGen a f').
Proof.
  intros Hg. unfold set_frame. simpl. by rewrite list_lookup_alter_eq, Hg.
Qed.

Lemma heap_set_object_keeps (self a : nat) (t : TokenTensorizer.t)
    (new o : tensorizer) (w : world) :
  heap w !! self = Some (TToken t) ->
  heap w !! a = Some o ->
  has_local_builder o = true ->
  heap (set_object self new w) !! a = Some o.
Proof.
  intros Hself Ha Hlocal. unfold set_object. simpl.
  rewrite list_lookup_insert_ne; [done|]. intros ->.
  rewrite Ha in Hself. inversion Hself; subst. done.
Qed.

(** A call of [send] changes no label encoder. *)
Lemma send_heap_keeps (g : nat) (x : option (gmap string value)) (w : world)
    (a : nat) (o : tensorizer) :
  heap w !! a = Some o ->
  has_local_builder o = true ->
  heap (send g x w).2 !! a = Some o.
Proof.
  intros Ha Hlocal. unfold send, start, resume.
  case_matches; simpl snd; rewrite ?heap_set_frame;
    try done; by eapply heap_set_object_keeps.
Qed.

(** A call of [send] leaves the other generators as they are. *)
Lemma send_gens_other (g g' : nat) (x : option (gmap string value))
    (w : world) :
  g' <> g -> gens (send g x w).2 !! g' = gens w !! g'.
Proof.
  intros Hne. unfold send, start, resume.
  case_matches; simpl snd;
    rewrite ?gens_set_frame_ne, ?gens_set_object, ?gens_set_frame_ne by done;
    done.
Qed.

(** The priming call on a label coroutine. *)
Lemma send_none_label (g a : nat) (w : world) (o : tensorizer) :
  gens w !! g = Some (mkGen a Created) ->
  heap w !! a = Some o ->
  has_local_builder o = true ->
  send g None w = (Ok tt, set_frame g (Suspended (first_builder o)) w).
Proof.
  intros Hg Ha Hlocal. unfold send, start. rewrite Hg, Ha.
  by destruct o.
Qed.

(** A row sent to a label coroutine that returns has gone to the
    builder. *)
Lemma send_row_label (g a : nat) (w w1 : world) (o : tensorizer)
    (b : VocabBuilder.t) (row : gmap string value) :
  gens w !! g = Some (mkGen a (Suspended (Some b))) ->
  heap w !! a = Some o ->
  has_local_builder o = true ->
  send g (Some row) w = (Ok tt, w1) ->
  exists syms,
    row_symbols o row = Ok syms /\
    gens w1 !! g
    = Some (mkGen a (Suspended (Some (VocabBuilder.add_all b syms)))).
Proof.
  intros Hg Ha Hlocal. unfold send, resume, row_symbols. rewrite Hg, Ha.
  destruct o as [| |t| | |t|]; try done.
  - destruct (get_str row (LabelTensorizer.label_column t)) as [s|e]; [|done].
    intros H. inversion H; subst. eexists. split; [done|].
    by apply (gens_set_frame_eq g a (Suspended (Some b))).
  - destruct (get_slots row (WordLabelTensorizer.slot_column t)) as [s|e];
      [|done].
    intros H. inversion H; subst. eexists. split; [done|].
    by apply (gens_set_frame_eq g a (Suspended (Some b))).
Qed.

Lemma prime_keeps (inits : list nat) (a : nat) (o : tensorizer) :
  forall w r w1 tr,
    prime inits w = (r, w1, tr) ->
    (heap w !! a = Some o -> has_local_builder o = true ->
     heap w1 !! a = Some o) /\
    (forall g, g ∉ inits -> gens w1 !! g = gens w !! g).
Proof.
  induction inits as [|init rest IH]; intros w r w1 tr Hrun.
  - simpl in Hrun. by inversion Hrun.
  - cbn [prime] in Hrun.
    destruct (send init None w) as [r0 w0] eqn:Hsend.
    destruct (prime rest w0) as [[r' w2] tr'] eqn:Hrest.
    destruct (IH _ _ _ _ Hrest) as [Hheap Hgens].
    assert (heap w !! a = Some o -> has_local_builder o = true ->
            heap w0 !! a = Some o) as Hheap0.
    { intros Ha Hl. pose proof (send_heap_keeps init None w a o Ha Hl) as H.
      by rewrite Hsend in H. }
    assert (forall g, g <> init -> gens w0 !! g = gens w !! g) as Hgens0.
    { intros g Hg. pose proof (send_gens_other init g None w Hg) as H.
      by rewrite Hsend in H. }
    assert ((heap w !! a = Some o -> has_local_builder o = true ->
             heap w2 !! a = Some o) /\
            (forall g, g ∉ init :: rest -> gens w2 !! g = gens w !! g))
      as Hboth.
    { split; [by auto|]. intros g Hg.
      apply not_elem_of_cons in Hg as [Hne Hg]. by rewrite Hgens, Hgens0. }
    assert ((heap w !! a = Some o -> has_local_builder o = true ->
             heap w0 !! a = Some o) /\
            (forall g, g ∉ init :: rest -> gens w0 !! g = gens w !! g))
      as Hstop.
    { split; [done|]. intros g Hg.
      apply not_elem_of_cons in Hg as [Hne Hg]. by apply Hgens0. }
    destruct r0 as [[]|e]; [by inversion Hrun; subst|].
    destruct e; inversion Hrun; subst; done.
Qed.

Lemma prime_label (inits : list nat) (g a : nat) (o : tensorizer) :
  forall w initializers w1 tr,
    prime inits w = (Ok initializers, w1, tr) ->
    NoDup inits ->
    g ∈ inits ->
    gens w !! g = Some (mkGen a Created) ->
    heap w !! a = Some o ->
    has_local_builder o = true ->
    g ∈ initializers /\
    gens w1 !! g = Some (mkGen a (Suspended (first_builder o))).
Proof.
  induction inits as [|init rest IH];
    intros w initializers w1 tr Hrun Hnd Hin Hg Ha Hlocal.
  - by apply elem_of_nil in Hin.
  - apply NoDup_cons in Hnd as [Hnotin Hnd]. cbn [prime] in Hrun.
    destruct (decide (g = init)) as [->|Hne].
    + rewrite (send_none_label init a w o Hg Ha Hlocal) in Hrun.
      destruct (prime rest (set_frame init (Suspended (first_builder o)) w))
        as [[r w2] tr'] eqn:Hrest.
      destruct r as [inits'|e]; cbn [mbind result_bind] in Hrun; [|done].
      inversion Hrun; subst. split; [apply list_elem_of_here|].
      destruct (prime_keeps rest a o _ _ _ _ Hrest) as [_ Hgens].
      rewrite Hgens by done. by apply (gens_set_frame_eq init a Created).
    + apply elem_of_cons in Hin as [Heq|Hin]; [done|].
      destruct (send init None w) as [r0 w0] eqn:Hsend.
      destruct (prime rest w0) as [[r w2] tr'] eqn:Hrest.
      assert (gens w0 !! g = Some (mkGen a Created)) as Hg0.
      { pose proof (send_gens_other init g None w Hne) as H.
        rewrite Hsend in H. simpl in H. by rewrite H. }
      assert (heap w0 !! a = Some o) as Ha0.
      { pose proof (send_heap_keeps init None w a o Ha Hlocal) as H.
        by rewrite Hsend in H. }
      destruct r0 as [[]|e].
      * destruct r as [inits'|e]; cbn [mbind result_bind] in Hrun; [|done].
        inversion Hrun; subst.
        destruct (IH _ _ _ _ Hrest Hnd Hin Hg0 Ha0 Hlocal) as [Hin' Hg'].
        split; [by apply list_elem_of_further|done].
      * destruct e; inversion Hrun; subst.
        by apply (IH _ _ _ _ Hrest Hnd Hin Hg0 Ha0 Hlocal).
Qed.

Lemma send_all_label (inits : list nat) (row : gmap string value)
    (g a : nat) (o : tensorizer) :
  forall w w1 tr b,
    send_all inits row w = (Ok tt, w1, tr) ->
    NoDup inits ->
    gens w !! g = Some (mkGen a (Suspended (Some b))) ->
    heap w !! a = Some o ->
    has_local_builder o = true ->
    heap w1 !! a = Some o /\
    (g ∉ inits -> gens w1 !! g = gens w !! g) /\
    (g ∈ inits ->
     exists syms,
       row_symbols o row = Ok syms /\
       gens w1 !! g
       = Some (mkGen a (Suspended (Some (VocabBuilder.add_all b syms))))).
Proof.
  induction inits as [|init rest IH]; intros w w1 tr b Hrun Hnd Hg Ha Hlocal.
  - simpl in Hrun. inversion Hrun; subst. split; [done|]. split; [done|].
    intros Hin. by apply elem_of_nil in Hin.
  - apply NoDup_cons in Hnd as [Hnotin Hnd]. cbn [send_all] in Hrun.
    destruct (send init (Some row) w) as [r0 w0] eqn:Hsend.
    destruct r0 as [[]|e]; [|done].
    destruct (send_all rest row w0) as [[r w2] tr'] eqn:Hrest.
    inversion Hrun; subst. clear Hrun.
    assert (heap w0 !! a = Some o) as Ha0.
    { pose proof (send_heap_keeps init (Some row) w a o Ha Hlocal) as H.
      by rewrite Hsend in H. }
    destruct (decide (g = init)) as [->|Hne].
    + destruct (send_row_label init a w w0 o b row Hg Ha Hlocal Hsend)
        as (syms & Hsyms & Hg0).
      destruct (IH _ _ _ _ Hrest Hnd Hg0 Ha0 Hlocal) as (Ha1 & Hkeep & _).
      split; [done|]. split.
      * intros Hn. exfalso. apply Hn, list_elem_of_here.
      * intros _. exists syms. split; [done|]. by rewrite Hkeep.
    + assert (gens w0 !! g = Some (mkGen a (Suspended (Some b)))) as Hg0.
      { pose proof (send_gens_other init g (Some row) w Hne) as H.
        rewrite Hsend in H. simpl in H. by rewrite H. }
      destruct (IH _ _ _ _ Hrest Hnd Hg0 Ha0 Hlocal) as (Ha1 & Hkeep & Hin').
      split; [done|]. split.
      * intros Hn. apply not_elem_of_cons in Hn as [_ Hn].
        rewrite Hkeep by done. by rewrite Hg0.
      * intros Hin. apply elem_of_cons in Hin as [Heq|Hin]; [done|].
        by apply Hin'.
Qed.

Lemma feed_label (data_source : list (gmap string value)) (inits : list nat)
    (g a : nat) (o : tensorizer) :
  forall w w1 tr b,
    feed data_source inits w = (Ok tt, w1, tr) ->
    NoDup inits ->
    g ∈ inits ->
    gens w !! g = Some (mkGen a (Suspended (Some b))) ->
    heap w !! a = Some o ->
    has_local_builder o = true ->
    exists symss,
      mapR (row_symbols o) data_source = Ok symss /\
      gens w1 !! g
      = Some (mkGen a (Suspended
                         (Some (foldl VocabBuilder.add_all b symss)))) /\
      heap w1 !! a = Some o.
Proof.
  induction data_source as [|row rest IH];
    intros w w1 tr b Hrun Hnd Hin Hg Ha Hlocal.
  - simpl in Hrun. inversion Hrun; subst. by exists [].
  - cbn [feed] in Hrun.
    destruct (send_all inits row w) as [[r0 w0] tr0] eqn:Hsend.
    destruct r0 as [[]|e]; [|done].
    destruct (feed rest inits w0) as [[r w2] tr'] eqn:Hrest.
    inversion Hrun; subst. clear Hrun.
    destruct (send_all_label _ _ g a o _ _ _ b Hsend Hnd Hg Ha Hlocal)
      as (Ha0 & _ & Hsyms).
    destruct (Hsyms Hin) as (syms & Hrow & Hg0).
    destruct (IH _ _ _ _ Hrest Hnd Hin Hg0 Ha0 Hlocal)
      as (symss & Hrows & Hg1 & Ha1).
    exists (syms :: symss). cbn [mapR]. rewrite Hrow, Hrows. done.
Qed.

(** After a run that returns, the generator made for a label encoder
    stands at its [yield] with a builder that was given the symbols of every
    row, in source order. *)
Lemma run_label (tensorizers : list (string * nat))
    (data_source : list (gmap string value)) (w w' : world)
    (tr : list event) (i : nat) (name : string) (a : nat) (o : tensorizer)
    (b0 : VocabBuilder.t) :
  initialize_tensorizers tensorizers data_source w = (Ok tt, w', tr) ->
  tensorizers !! i = Some (name, a) ->
  heap w !! a = Some o ->
  has_local_builder o = true ->
  first_builder o = Some b0 ->
  exists symss,
    mapR (row_symbols o) data_source = Ok symss /\
    gens w' !! (length (gens w) + i)%nat
    = Some (mkGen a (Suspended
                       (Some (foldl VocabBuilder.add_all b0 symss)))) /\
    heap w' !! a = Some o.
Proof.
  intros Hrun Hi Ha Hlocal Hb0. unfold initialize_tensorizers in Hrun.
  rewrite create_spec, length_map in Hrun.
  set (inits := seq (length (gens w)) (length tensorizers)) in *.
  set (w0 := mkWorld _ _) in *.
  set (g := (length (gens w) + i)%nat).
  assert (g ∈ inits) as Hin.
  { apply elem_of_seq. apply lookup_lt_Some in Hi. unfold g. lia. }
  assert (gens w0 !! g = Some (mkGen a Created)) as Hg.
  { unfold w0, g. simpl. rewrite lookup_app_r by lia.
    replace (length (gens w) + i - length (gens w))%nat with i by lia.
    change (map ?f ?l) with (f <$> l). by rewrite !list_lookup_fmap, Hi. }
  destruct (prime inits w0) as [[r w1] tr1] eqn:Hprime.
  destruct r as [initializers|e]; [|done].
  destruct (prime_label inits g a o _ _ _ _ Hprime (NoDup_seq _ _) Hin Hg Ha
              Hlocal) as [Hin1 Hg1].
  destruct (prime_keeps inits a o _ _ _ _ Hprime) as [Ha1 _].
  destruct (prime_spec _ _ _ _ _ Hprime (NoDup_seq _ _))
    as (_ & _ & Hnd & _).
  rewrite Hb0 in Hg1.
  destruct initializers as [|x l] eqn:Hinits;
    [by apply elem_of_nil in Hin1|].
  destruct (feed data_source (x :: l) w1) as [[r w2] tr2] eqn:Hfeed.
  inversion Hrun; subst.
  apply (feed_label data_source (x :: l) g a o w1 w' tr2 b0); auto.
Qed.

End StreamingLabels.

(** ** Initialization, closing and encoding together *)

Section InitializedLabels.

Lemma counter_add (b : VocabBuilder.t) (s s' : symbol) :
  s' ∈ VocabBuilder.counter (VocabBuilder.add b s)
  <-> s' ∈ VocabBuilder.counter b \/ s' = s.
Proof.
  unfold VocabBuilder.add. simpl. case_decide as Hin.
  - split; [by left|]. intros [H| ->]; done.
  - rewrite elem_of_app, list_elem_of_singleton. done.
Qed.

Lemma add_all_spec (values : list symbol) :
  forall b,
    (forall s', s' ∈ VocabBuilder.counter (VocabBuilder.add_all b values)
                <-> s' ∈ VocabBuilder.counter b \/ s' ∈ values) /\
    VocabBuilder.reserved (VocabBuilder.add_all b values)
    = VocabBuilder.reserved b.
Proof.
  unfold VocabBuilder.add_all.
  induction values as [|s values IH]; intros b; simpl.
  - split; [|done]. intros s'. split; [by left|].
    intros [H|H]; [done|]. by apply elem_of_nil in H.
  - destruct (IH (VocabBuilder.add b s)) as [Hc Hr]. split; [|by rewrite Hr].
    intros s'. rewrite Hc, counter_add, elem_of_cons. tauto.
Qed.

Lemma foldl_add_all_spec (symss : list (list symbol)) :
  forall b,
    (forall s', s' ∈ VocabBuilder.counter (foldl VocabBuilder.add_all b symss)
                <-> s' ∈ VocabBuilder.counter b
                    \/ exists syms, syms ∈ symss /\ s' ∈ syms) /\
    VocabBuilder.reserved (foldl VocabBuilder.add_all b symss)
    = VocabBuilder.reserved b.
Proof.
  induction symss as [|syms symss IH]; intros b; simpl.
  - split; [|done]. intros s'. split; [by left|].
    intros [H|(syms & H & _)]; [done|]. by apply elem_of_nil in H.
  - destruct (IH (VocabBuilder.add_all b syms)) as [Hc Hr].
    destruct (add_all_spec syms b) as [Hc' Hr'].
    split; [|by rewrite Hr, Hr'].
    intros s'. rewrite Hc, Hc'. split.
    + intros [[H|H]|(syms' & Hin & H)].
      * by left.
      * right. exists syms. split; [apply list_elem_of_here|done].
      * right. exists syms'. split; [by apply list_elem_of_further|done].
    + intros [H|(syms' & Hin & H)]; [left; by left|].
      apply elem_of_cons in Hin as [->|Hin]; [left; by right|].
      right. by exists syms'.
Qed.

Lemma mapR_elem {A B} (f : A -> result B) (l : list A) :
  forall bs a,
    mapR f l = Ok bs -> a ∈ l -> exists b, f a = Ok b /\ b ∈ bs.
Proof.
  induction l as [|x l IH]; intros bs a H Hin.
  - by apply elem_of_nil in Hin.
  - cbn [mapR] in H. destruct (f x) as [b|e] eqn:Hx; [|done].
    cbn [mbind result_bind] in H.
    destruct (mapR f l) as [bs'|e]; [|done].
    cbn [mbind result_bind] in H. inversion H; subst.
    apply elem_of_cons in Hin as [->|Hin].
    + exists b. split; [done|apply list_elem_of_here].
    + destruct (IH bs' a eq_refl Hin) as (b' & Hb' & Hin').
      exists b'. split; [done|by apply list_elem_of_further].
Qed.

Lemma mapR_elem_inv {A B} (f : A -> result B) (l : list A) :
  forall bs b,
    mapR f l = Ok bs -> b ∈ bs -> exists a, a ∈ l /\ f a = Ok b.
Proof.
  induction l as [|x l IH]; intros bs b H Hin.
  - simpl in H. inversion H; subst. by apply elem_of_nil in Hin.
  - cbn [mapR] in H. destruct (f x) as [b0|e] eqn:Hx; [|done].
    cbn [mbind result_bind] in H.
    destruct (mapR f l) as [bs'|e]; [|done].
    cbn [mbind result_bind] in H. inversion H; subst.
    apply elem_of_cons in Hin as [->|Hin].
    + exists x. split; [apply list_elem_of_here|done].
    + destruct (IH bs' b eq_refl Hin) as (a' & Ha' & Hf).
      exists a'. split; [by apply list_elem_of_further|done].
Qed.

Lemma mapR_ok_elem {A B} (f : A -> result B) (l : list A) :
  (forall a, a ∈ l -> is_ok (f a) = true) -> exists bs, mapR f l = Ok bs.
Proof.
  induction l as [|x l IH]; intros Hall; [by eexists|].
  destruct IH as [bs Hbs].
  { intros a Ha. apply Hall. by apply list_elem_of_further. }
  specialize (Hall x (list_elem_of_here _ _)).
  destruct (f x) as [b|e] eqn:Hx; [|done].
  exists (b :: bs). cbn [mapR]. rewrite Hx, Hbs. done.
Qed.

Lemma lookup_known (v : Vocab.t) (s : symbol) :
  s ∈ Vocab.vocab_list v -> is_ok (Vocab.lookup v s) = true.
Proof.
  intros Hin. unfold Vocab.lookup.
  destruct (index_of s (Vocab.vocab_list v)) eqn:Hs; [done|].
  by apply index_of_None in Hs.
Qed.

Lemma close_label (g a : nat) (w : world) (b : VocabBuilder.t)
    (t : LabelTensorizer.t) :
  gens w !! g = Some (mkGen a (Suspended (Some b))) ->
  heap w !! a = Some (TLabel t) ->
  heap (close g w) !! a
  = Some (TLabel (LabelTensorizer.mk (LabelTensorizer.label_column t)
                    (LabelTensorizer.allow_unknown t)
                    (Some (VocabBuilder.make_vocab b)))).
Proof.
  intros Hg Ha. unfold close. rewrite Hg. rewrite heap_set_frame, Ha.
  unfold set_object. simpl. apply list_lookup_insert_eq.
  by eapply lookup_lt_Some.
Qed.

Lemma close_word_label (g a : nat) (w : world) (b : VocabBuilder.t)
    (t : WordLabelTensorizer.t) :
  gens w !! g = Some (mkGen a (Suspended (Some b))) ->
  heap w !! a = Some (TWordLabel t) ->
  heap (close g w) !! a
  = Some (TWordLabel
            (WordLabelTensorizer.mk (WordLabelTensorizer.slot_column t)
               (WordLabelTensorizer.text_column t)
               (WordLabelTensorizer.tokenizer t)
               (WordLabelTensorizer.allow_unknown t)
               (Some (VocabBuilder.make_vocab b)))).
Proof.
  intros Hg Ha. unfold close. rewrite Hg. rewrite heap_set_frame, Ha.
  unfold set_object. simpl. apply list_lookup_insert_eq.
  by eapply lookup_lt_Some.
Qed.

(** X18: Initialization, closing and encoding of span labels compose: after a
    run of [initialize_tensorizers] that returns and the closing of the
    generator of a [WordLabelTensorizer] of the dict, the encoder holds a
    frozen vocabulary with the no-label sentinel, and [numberize] succeeds on
    every row of the data source that has the text column, whether unknown
    labels are allowed or not. *)
Theorem word_label_initialized_numberize
    (tensorizers : list (string * nat))
    (data_source : list (gmap string value)) (w w' : world)
    (tr : list event) (i : nat) (name : string) (a : nat)
    (t : WordLabelTensorizer.t) :
  initialize_tensorizers tensorizers data_source w = (Ok tt, w', tr) ->
  tensorizers !! i = Some (name, a) ->
  heap w !! a = Some (TWordLabel t) ->
  exists v,
    heap (close (length (gens w) + i) w') !! a
    = Some (TWordLabel
              (WordLabelTensorizer.mk (WordLabelTensorizer.slot_column t)
                 (WordLabelTensorizer.text_column t)
                 (WordLabelTensorizer.tokenizer t)
                 (WordLabelTensorizer.allow_unknown t) (Some v))) /\
    NO_LABEL ∈ Vocab.vocab_list v /\
    forall row text,
      row ∈ data_source ->
      get_str row (WordLabelTensorizer.text_column t) = Ok text ->
      exists ids,
        WordLabelTensorizer.numberize
          (WordLabelTensorizer.mk (WordLabelTensorizer.slot_column t)
             (WordLabelTensorizer.text_column t)
             (WordLabelTensorizer.tokenizer t)
             (WordLabelTensorizer.allow_unknown t) (Some v)) row
        = Ok ids.
Proof.
  intros Hrun Hi Ha.
  destruct (run_label tensorizers data_source w w' tr i name a (TWordLabel t)
              _ Hrun Hi Ha eq_refl eq_refl) as (symss & Hsyms & Hg & Ha').
  set (b := foldl VocabBuilder.add_all _ symss) in *.
  exists (VocabBuilder.make_vocab b).
  destruct (foldl_add_all_spec symss
              (VocabBuilder.set_use_unk (WordLabelTensorizer.allow_unknown t)
                 (VocabBuilder.add VocabBuilder.new NO_LABEL)))
    as [Hcounter _]. fold b in Hcounter.
  assert (NO_LABEL ∈ Vocab.vocab_list (VocabBuilder.make_vocab b)) as Hno.
  { unfold VocabBuilder.make_vocab. simpl. apply elem_of_app. right.
    apply Hcounter. left. simpl. apply list_elem_of_here. }
  split; [by apply close_word_label|]. split; [done|].
  intros row text Hrow Htext.
  destruct (mapR_elem _ _ _ _ Hsyms Hrow) as (syms & Hrs & Hin).
  unfold row_symbols in Hrs.
  destruct (get_slots row (WordLabelTensorizer.slot_column t)) as [slots|e]
    eqn:Hslots; [|done].
  cbn [mbind result_bind] in Hrs. inversion Hrs; subst syms. clear Hrs.
  unfold WordLabelTensorizer.numberize. cbn [WordLabelTensorizer.slot_column
    WordLabelTensorizer.text_column WordLabelTensorizer.tokenizer
    WordLabelTensorizer.vocab].
  rewrite Hslots, Htext. cbn [mbind result_bind].
  apply mapR_ok_elem. intros s Hs. apply lookup_known.
  apply align_labels_known in Hs as [->|(slot & Hslot & ->)]; [done|].
  unfold VocabBuilder.make_vocab. simpl. apply elem_of_app. right.
  apply Hcounter. right. eexists. split; [exact Hin|].
  change (map ?f ?l) with (f <$> l). apply list_elem_of_fmap. by exists slot.
Qed.

Lemma word_label_initialized_numberize_witness :
  exists v,
    heap (close 0
            (initialize_tensorizers [("slots", 0%nat)]
               [song_row [mkSlot "song_name" 9 13]]
               (mkWorld [TWordLabel
                           (WordLabelTensorizer.mk "slots" "text"
                              space_tokenize false None)] [])).1.2) !! 0%nat
    = Some (TWordLabel
              (WordLabelTensorizer.mk "slots" "text" space_tokenize false
                 (Some v))) /\
    NO_LABEL ∈ Vocab.vocab_list v.
Proof.
  set (w := mkWorld [TWordLabel
                       (WordLabelTensorizer.mk "slots" "text"
                          space_tokenize false None)] []).
  set (run := initialize_tensorizers [("slots", 0%nat)]
                [song_row [mkSlot "song_name" 9 13]] w).
  assert (run = (Ok tt, run.1.2, run.2)) as Hrun by (vm_compute; reflexivity).
  destruct (word_label_initialized_numberize [("slots", 0%nat)]
              [song_row [mkSlot "song_name" 9 13]] w run.1.2 run.2 0 "slots" 0
              (WordLabelTensorizer.mk "slots" "text" space_tokenize false None)
              Hrun eq_refl eq_refl) as (v & Hheap & Hno & _).
  exists v. split; [exact Hheap|exact Hno].
Defined.

(** X19: With unknown labels allowed, the span-label encoder initialized and
    closed in this way encodes every row that has its two columns, a row
    outside the data source with labels never seen included: the frozen
    vocabulary reserves UNK. *)
Theorem word_label_initialized_allow_unknown
    (tensorizers : list (string * nat))
    (data_source : list (gmap string value)) (w w' : world)
    (tr : list event) (i : nat) (name : string) (a : nat)
    (t : WordLabelTensorizer.t) :
  initialize_tensorizers tensorizers data_source w = (Ok tt, w', tr) ->
  tensorizers !! i = Some (name, a) ->
  heap w !! a = Some (TWordLabel t) ->
  WordLabelTensorizer.allow_unknown t = true ->
  exists v,
    heap (close (length (gens w) + i) w') !! a
    = Some (TWordLabel
              (WordLabelTensorizer.mk (WordLabelTensorizer.slot_column t)
                 (WordLabelTensorizer.text_column t)
                 (WordLabelTensorizer.tokenizer t)
                 (WordLabelTensorizer.allow_unknown t) (Some v))) /\
    UNK ∈ Vocab.vocab_list v /\
    forall row slots text,
      get_slots row (WordLabelTensorizer.slot_column t) = Ok slots ->
      get_str row (WordLabelTensorizer.text_column t) = Ok text ->
      exists ids,
        WordLabelTensorizer.numberize
          (WordLabelTensorizer.mk (WordLabelTensorizer.slot_column t)
             (WordLabelTensorizer.text_column t)
             (WordLabelTensorizer.tokenizer t)
             (WordLabelTensorizer.allow_unknown t) (Some v)) row
        = Ok ids.
Proof.
  intros Hrun Hi Ha Hallow.
  destruct (run_label tensorizers data_source w w' tr i name a (TWordLabel t)
              _ Hrun Hi Ha eq_refl eq_refl) as (symss & Hsyms & Hg & Ha').
  set (b := foldl VocabBuilder.add_all _ symss) in *.
  exists (VocabBuilder.make_vocab b).
  destruct (foldl_add_all_spec symss
              (VocabBuilder.set_use_unk (WordLabelTensorizer.allow_unknown t)
                 (VocabBuilder.add VocabBuilder.new NO_LABEL)))
    as [_ Hreserved]. fold b in Hreserved.
  assert (UNK ∈ Vocab.vocab_list (VocabBuilder.make_vocab b)) as Hunk.
  { unfold VocabBuilder.make_vocab. simpl. apply elem_of_app. left.
    rewrite Hreserved. unfold VocabBuilder.reserved. simpl. rewrite Hallow.
    apply list_elem_of_here. }
  split; [by apply close_word_label|]. split; [done|].
  intros row slots text Hslots Htext.
  unfold WordLabelTensorizer.numberize. cbn [WordLabelTensorizer.slot_column
    WordLabelTensorizer.text_column WordLabelTensorizer.tokenizer
    WordLabelTensorizer.vocab].
  rewrite Hslots, Htext. cbn [mbind result_bind].
  destruct (index_of UNK (Vocab.vocab_list (VocabBuilder.make_vocab b)))
    as [u|] eqn:Hu; [|by apply index_of_None in Hu].
  apply mapR_ok. intros s. by apply (lookup_with_unk _ s u).
Qed.

Lemma word_label_initialized_allow_unknown_witness :
  exists v,
    heap (close 0
            (initialize_tensorizers [("slots", 0%nat)]
               [song_row [mkSlot "song_name" 9 13]]
               (mkWorld [TWordLabel
                           (WordLabelTensorizer.mk "slots" "text"
                              space_tokenize true None)] [])).1.2) !! 0%nat
    = Some (TWordLabel
              (WordLabelTensorizer.mk "slots" "text" space_tokenize true
                 (Some v))) /\
    UNK ∈ Vocab.vocab_list v.
Proof.
  set (w := mkWorld [TWordLabel
                       (WordLabelTensorizer.mk "slots" "text"
                          space_tokenize true None)] []).
  set (run := initialize_tensorizers [("slots", 0%nat)]
                [song_row [mkSlot "song_name" 9 13]] w).
  assert (run = (Ok tt, run.1.2, run.2)) as Hrun by (vm_compute; reflexivity).
  destruct (word_label_initialized_allow_unknown [("slots", 0%nat)]
              [song_row [mkSlot "song_name" 9 13]] w run.1.2 run.2 0 "slots" 0
              (WordLabelTensorizer.mk "slots" "text" space_tokenize true None)
              Hrun eq_refl eq_refl eq_refl) as (v & Hheap & Hunk & _).
  exists v. split; [exact Hheap|exact Hunk].
Defined.

(** X20: After a run of [initialize_tensorizers] that returns and the closing of
    the generator of a [LabelTensorizer] of the dict, the encoder's frozen
    vocabulary holds every comma-separated segment of the label column of
    every row, holds UNK exactly when unknown labels are allowed, never holds
    PAD, and holds nothing else. *)
Theorem label_initialized_vocabulary
    (tensorizers : list (string * nat))
    (data_source : list (gmap string value)) (w w' : world)
    (tr : list event) (i : nat) (name : string) (a : nat)
    (t : LabelTensorizer.t) :
  initialize_tensorizers tensorizers data_source w = (Ok tt, w', tr) ->
  tensorizers !! i = Some (name, a) ->
  heap w !! a = Some (TLabel t) ->
  exists v,
    heap (close (length (gens w) + i) w') !! a
    = Some (TLabel (LabelTensorizer.mk (LabelTensorizer.label_column t)
                      (LabelTensorizer.allow_unknown t) (Some v))) /\
    (forall row, row ∈ data_source ->
       exists labels,
         get_str row (LabelTensorizer.label_column t) = Ok labels /\
         forall segment, segment ∈ split labels "," ->
                         Word segment ∈ Vocab.vocab_list v) /\
    (UNK ∈ Vocab.vocab_list v <-> LabelTensorizer.allow_unknown t = true) /\
    (PAD ∉ Vocab.vocab_list v) /\
    (forall s, s ∈ Vocab.vocab_list v ->
       s = UNK \/
       exists row labels segment,
         row ∈ data_source /\
         get_str row (LabelTensorizer.label_column t) = Ok labels /\
         segment ∈ split labels "," /\ s = Word segment).
Proof.
  intros Hrun Hi Ha.
  destruct (run_label tensorizers data_source w w' tr i name a (TLabel t)
              _ Hrun Hi Ha eq_refl eq_refl) as (symss & Hsyms & Hg & Ha').
  set (b0 := VocabBuilder.set_use_unk (LabelTensorizer.allow_unknown t)
               (VocabBuilder.set_use_pad false VocabBuilder.new)) in *.
  set (b := foldl VocabBuilder.add_all b0 symss) in *.
  exists (VocabBuilder.make_vocab b).
  destruct (foldl_add_all_spec symss b0) as [Hcounter Hreserved].
  fold b in Hcounter, Hreserved.
  assert (forall s, s ∈ VocabBuilder.counter b ->
            exists row labels segment,
              row ∈ data_source /\
              get_str row (LabelTensorizer.label_column t) = Ok labels /\
              segment ∈ split labels "," /\ s = Word segment) as Horigin.
  { intros s Hs. apply Hcounter in Hs as [Hs|(syms & Hin & Hs)].
    { by apply elem_of_nil in Hs. }
    destruct (mapR_elem_inv _ _ _ _ Hsyms Hin) as (row & Hrow & Hrs).
    unfold row_symbols in Hrs.
    destruct (get_str row (LabelTensorizer.label_column t)) as [labels|e]
      eqn:Hlabels; [|done].
    cbn [mbind result_bind] in Hrs. inversion Hrs; subst syms.
    change (map ?f ?l) with (f <$> l) in Hs.
    apply list_elem_of_fmap in Hs as (segment & -> & Hseg).
    by exists row, labels, segment. }
  assert (Vocab.vocab_list (VocabBuilder.make_vocab b)
          = (if LabelTensorizer.allow_unknown t then [UNK] else [])
            ++ VocabBuilder.counter b) as Hlist.
  { unfold VocabBuilder.make_vocab. simpl. rewrite Hreserved.
    unfold VocabBuilder.reserved, b0. simpl.
    by destruct (LabelTensorizer.allow_unknown t). }
  split; [by apply close_label|]. rewrite Hlist.
  split; [|split; [|split]].
  - intros row Hrow.
    destruct (mapR_elem _ _ _ _ Hsyms Hrow) as (syms & Hrs & Hin).
    unfold row_symbols in Hrs.
    destruct (get_str row (LabelTensorizer.label_column t)) as [labels|e];
      [|done].
    cbn [mbind result_bind] in Hrs. inversion Hrs; subst syms.
    exists labels. split; [done|]. intros segment Hseg.
    apply elem_of_app. right. apply Hcounter. right. eexists.
    split; [exact Hin|]. change (map ?f ?l) with (f <$> l).
    apply list_elem_of_fmap. by exists segment.
  - split.
    + intros Hin. apply elem_of_app in Hin as [Hin|Hin].
      * destruct (LabelTensorizer.allow_unknown t); [done|].
        by apply elem_of_nil in Hin.
      * apply Horigin in Hin as (_ & _ & segment & _ & _ & _ & Heq).
        discriminate.
    + intros ->. apply elem_of_app. left. apply list_elem_of_here.
  - intros Hin. apply elem_of_app in Hin as [Hin|Hin].
    + destruct (LabelTensorizer.allow_unknown t).
      * apply list_elem_of_singleton in Hin. discriminate.
      * by apply elem_of_nil in Hin.
    + apply Horigin in Hin as (_ & _ & segment & _ & _ & _ & Heq).
      discriminate.
  - intros s Hin. apply elem_of_app in Hin as [Hin|Hin].
    + left. destruct (LabelTensorizer.allow_unknown t).
      * by apply list_elem_of_singleton in Hin.
      * by apply elem_of_nil in Hin.
    + right. by apply Horigin.
Qed.

Lemma label_initialized_vocabulary_witness :
  exists v,
    heap (close 0
            (initialize_tensorizers mixed_tensorizers corpus
               mixed_world).1.2) !! 0%nat
    = Some (TLabel (LabelTensorizer.mk "label" false (Some v))) /\
    PAD ∉ Vocab.vocab_list v.
Proof.
  set (run := initialize_tensorizers mixed_tensorizers corpus mixed_world).
  assert (run = (Ok tt, run.1.2, run.2)) as Hrun by (vm_compute; reflexivity).
  destruct (label_initialized_vocabulary mixed_tensorizers corpus mixed_world
              run.1.2 run.2 0 "label" 0
              (LabelTensorizer.mk "label" false None) Hrun eq_refl eq_refl)
    as (v & Hheap & _ & _ & Hpad & _).
  exists v. split; [exact Hheap|exact Hpad].
Defined.

End InitializedLabels.

(** ** The streaming initializer: the encoders and their finalization *)

Section StreamingEncoders.

(** *** What every call of [send] keeps is kept by the whole run *)

Section Kept.
Context {T : Type} (kept : world -> T).
Hypothesis send_keeps : forall g x w, kept (send g x w).2 = kept w.

Lemma prime_keeps_all (inits : list nat) :
  forall w r w1 tr, prime inits w = (r, w1, tr) -> kept w1 = kept w.
Proof.
  induction inits as [|init rest IH]; intros w r w1 tr Hrun.
  - simpl in Hrun. by inversion Hrun.
  - cbn [prime] in Hrun.
    pose proof (send_keeps init None w) as Hsend.
    destruct (send init None w) as [r0 w0].
    destruct (prime rest w0) as [[r' w2] tr'] eqn:Hrest.
    apply IH in Hrest. simpl in Hsend.
    destruct r0 as [[]|e]; [inversion Hrun; subst; congruence|].
    destruct e; inversion Hrun; subst; congruence.
Qed.

Lemma send_all_keeps_all (inits : list nat) (row : gmap string value) :
  forall w r w1 tr, send_all inits row w = (r, w1, tr) -> kept w1 = kept w.
Proof.
  induction inits as [|init rest IH]; intros w r w1 tr Hrun.
  - simpl in Hrun. by inversion Hrun.
  - cbn [send_all] in Hrun.
    pose proof (send_keeps init (Some row) w) as Hsend.
    destruct (send init (Some row) w) as [r0 w0].
    destruct (send_all rest row w0) as [[r' w2] tr'] eqn:Hrest.
    apply IH in Hrest. simpl in Hsend.
    destruct r0 as [[]|e]; inversion Hrun; subst; congruence.
Qed.

Lemma feed_keeps_all (data_source : list (gmap string value))
    (inits : list nat) :
  forall w r w1 tr, feed data_source inits w = (r, w1, tr) -> kept w1 = kept w.
Proof.
  induction data_source as [|row rest IH]; intros w r w1 tr Hrun.
  - simpl in Hrun. by inversion Hrun.
  - cbn [feed] in Hrun.
    destruct (send_all inits row w) as [[r0 w0] tr0] eqn:Hsend.
    apply send_all_keeps_all in Hsend.
    destruct (feed rest inits w0) as [[r' w2] tr'] eqn:Hrest.
    apply IH in Hrest.
    destruct r0 as [[]|e]; inversion Hrun; subst; congruence.
Qed.

End Kept.

Lemma feed_nil (data_source : list (gmap string value)) (w : world) :
  feed data_source [] w = (Ok tt, w, []).
Proof.
  induction data_source as [|row rest IH]; [done|].
  cbn [feed send_all]. by rewrite IH.
Qed.

(** A run that returns is a priming that returns followed by a feeding that
    returns. *)
Lemma run_stages (tensorizers : list (string * nat))
    (data_source : list (gmap string value)) (w w' : world)
    (tr : list event) :
  initialize_tensorizers tensorizers data_source w = (Ok tt, w', tr) ->
  exists initializers w1 tr1 tr2,
    prime (seq (length (gens w)) (length tensorizers))
      (mkWorld (heap w)
         (gens w ++ map (fun self => mkGen self Created) (map snd tensorizers)))
    = (Ok initializers, w1, tr1) /\
    feed data_source initializers w1 = (Ok tt, w', tr2) /\
    tr = tr1 ++ tr2.
Proof.
  unfold initialize_tensorizers. rewrite create_spec, length_map.
  set (w0 := mkWorld _ _).
  destruct (prime _ w0) as [[r1 w1] tr1] eqn:Hprime.
  destruct r1 as [initializers|e]; [|done].
  intros Hrun. exists initializers, w1, tr1.
  destruct initializers as [|x l].
  - inversion Hrun; subst. exists []. rewrite feed_nil, app_nil_r. done.
  - destruct (feed data_source (x :: l) w1) as [[r2 w2] tr2] eqn:Hfeed.
    inversion Hrun; subst. by exists tr2.
Qed.

(** The generator made for the entry [i] of the dict. *)
Lemma created_entry (tensorizers : list (string * nat)) (w : world)
    (i : nat) (name : string) (a : nat) :
  tensorizers !! i = Some (name, a) ->
  (gens w ++ map (fun self => mkGen self Created) (map snd tensorizers))
    !! (length (gens w) + i)%nat
  = Some (mkGen a Created).
Proof.
  intros Hi. rewrite lookup_app_r by lia.
  replace (length (gens w) + i - length (gens w))%nat with i by lia.
  change (map ?f ?l) with (f <$> l). by rewrite !list_lookup_fmap, Hi.
Qed.

Lemma created_generator (tensorizers : list (string * nat)) (w : world)
    (g : nat) :
  g ∈ seq (length (gens w)) (length tensorizers) ->
  exists i name a,
    g = (length (gens w) + i)%nat /\ tensorizers !! i = Some (name, a).
Proof.
  intros Hg. apply elem_of_seq in Hg.
  destruct (lookup_lt_is_Some_2 tensorizers (g - length (gens w)))
    as [[name a] Hna]; [lia|].
  exists (g - length (gens w))%nat, name, a. split; [lia|done].
Qed.

(** *** What [send] keeps *)

Lemma fmap_insert_same {A B} (f : A -> B) (l : list A) (i : nat) (x y : A) :
  l !! i = Some x -> f y = f x -> f <$> <[i := y]> l = f <$> l.
Proof.
  intros Hx Hf. rewrite list_fmap_insert, Hf. apply list_insert_id.
  by rewrite list_lookup_fmap, Hx.
Qed.

(** A call of [send] changes no encoder but for the builder attribute of a
    token encoder. *)
Lemma send_keeps_encoders (g : nat) (x : option (gmap string value))
    (w : world) :
  without_builder <$> heap (send g x w).2 = without_builder <$> heap w.
Proof.
  unfold send, start, resume.
  case_matches; simpl snd; rewrite ?heap_set_frame; try done;
    unfold set_object; simpl; rewrite ?heap_set_frame;
    by eapply fmap_insert_same.
Qed.

Lemma set_frame_selves (g : nat) (f : frame) (w : world) :
  gen_self <$> gens (set_frame g f w) = gen_self <$> gens w.
Proof.
  unfold set_frame. simpl. apply list_eq. intros i.
  rewrite !list_lookup_fmap. destruct (decide (i = g)) as [->|Hne].
  - rewrite list_lookup_alter_eq. by destruct (gens w !! g).
  - by rewrite list_lookup_alter_ne.
Qed.

(** A generator stays over the encoder it was made for. *)
Lemma send_keeps_selves (g : nat) (x : option (gmap string value))
    (w : world) :
  gen_self <$> gens (send g x w).2 = gen_self <$> gens w.
Proof.
  unfold send, start, resume.
  case_matches; simpl snd;
    rewrite ?gens_set_object, ?set_frame_selves, ?gens_set_object; done.
Qed.

Lemma self_of (w1 w : world) (g : nat) :
  gen_self <$> gens w1 = gen_self <$> gens w ->
  gen_self <$> gens w1 !! g = gen_self <$> gens w !! g.
Proof. intros H. by rewrite <- !list_lookup_fmap, H. Qed.

(** A call of [send] touches no encoder but the one of its generator. *)
Lemma send_heap_other (g a : nat) (x : option (gmap string value))
    (w : world) :
  gen_self <$> gens w !! g <> Some a ->
  heap (send g x w).2 !! a = heap w !! a.
Proof.
  unfold send. destruct (gens w !! g) as [[self f]|]; [|done].
  simpl. intros Hne. assert (self <> a) as Hself by congruence.
  unfold start, resume.
  case_matches; simpl snd; rewrite ?heap_set_frame; try done;
    unfold set_object; simpl; by rewrite list_lookup_insert_ne.
Qed.

(** *** Which coroutines suspend *)

Lemma needs_no_corpus_without_builder (o o' : tensorizer) :
  without_builder o' = without_builder o ->
  needs_no_corpus o' = needs_no_corpus o.
Proof.
  destruct o, o'; simpl; intros H; try done; try discriminate.
  apply (f_equal (fun o => match o with
                           | TToken t => TokenTensorizer.vocab t
                           | _ => None
                           end)) in H.
  simpl in H. by rewrite H.
Qed.

(** The priming call returns from the first [yield] exactly when the encoder
    needs a corpus pass. *)
Lemma send_none_outcome (g a : nat) (w : world) (o : tensorizer) :
  gens w !! g = Some (mkGen a Created) ->
  (without_builder <$> heap w) !! a = Some (without_builder o) ->
  (send g None w).1
  = if needs_no_corpus o then Raise StopIteration else Ok tt.
Proof.
  intros Hg Ha. rewrite list_lookup_fmap in Ha.
  destruct (heap w !! a) as [o'|] eqn:Ho'; [|done].
  simpl in Ha. inversion Ha as [Hsame].
  rewrite <- (needs_no_corpus_without_builder o o' Hsame).
  unfold send, start. rewrite Hg, Ho'.
  destruct o'; simpl; try done. by case_matches.
Qed.

Lemma prime_member (inits : list nat) (g a : nat) (o : tensorizer) :
  forall w initializers w1 tr,
    prime inits w = (Ok initializers, w1, tr) ->
    NoDup inits ->
    g ∈ inits ->
    gens w !! g = Some (mkGen a Created) ->
    (without_builder <$> heap w) !! a = Some (without_builder o) ->
    g ∈ initializers <-> needs_no_corpus o = false.
Proof.
  induction inits as [|init rest IH];
    intros w initializers w1 tr Hrun Hnd Hin Hg Ha.
  - by apply elem_of_nil in Hin.
  - pose proof Hnd as Hnd0.
    apply NoDup_cons in Hnd as [Hnotin Hnd]. cbn [prime] in Hrun.
    destruct (send init None w) as [r0 w0] eqn:Hsend.
    destruct (prime rest w0) as [[r w2] tr'] eqn:Hrest.
    destruct (decide (g = init)) as [->|Hne].
    + pose proof (send_none_outcome init a w o Hg Ha) as Hout.
      rewrite Hsend in Hout. simpl in Hout. subst r0.
      destruct (needs_no_corpus o).
      * inversion Hrun; subst. split; [|done]. intros Hmem.
        destruct (prime_spec _ _ _ _ _ Hrest Hnd) as (_ & Hsub & _).
        exfalso. by apply Hnotin, Hsub.
      * destruct r as [inits'|e]; cbn [mbind result_bind] in Hrun; [|done].
        inversion Hrun; subst. split; [done|]. intros _.
        apply list_elem_of_here.
    + apply elem_of_cons in Hin as [Heq|Hin]; [done|].
      assert (gens w0 !! g = Some (mkGen a Created)) as Hg0.
      { pose proof (send_gens_other init g None w Hne) as H.
        rewrite Hsend in H. simpl in H. by rewrite H. }
      assert ((without_builder <$> heap w0) !! a = Some (without_builder o))
        as Ha0.
      { pose proof (send_keeps_encoders init None w) as H.
        rewrite Hsend in H. simpl in H. by rewrite H. }
      destruct r0 as [[]|e].
      * destruct r as [inits'|e]; cbn [mbind result_bind] in Hrun; [|done].
        inversion Hrun; subst.
        rewrite <- (IH _ _ _ _ Hrest Hnd Hin Hg0 Ha0).
        rewrite elem_of_cons. split; [by intros [?|?]|by right].
      * destruct e; inversion Hrun; subst.
        by apply (IH _ _ _ _ Hrest Hnd Hin Hg0 Ha0).
Qed.

(** After a run that returns, the generator made for an entry of the dict
    is over the encoder of that entry. *)
Lemma run_self (tensorizers : list (string * nat))
    (data_source : list (gmap string value)) (w w' : world)
    (tr : list event) (i : nat) (name : string) (a : nat) :
  initialize_tensorizers tensorizers data_source w = (Ok tt, w', tr) ->
  tensorizers !! i = Some (name, a) ->
  gen_self <$> gens w' !! (length (gens w) + i)%nat = Some a.
Proof.
  intros Hrun Hi.
  destruct (run_stages _ _ _ _ _ Hrun)
    as (initializers & w1 & tr1 & tr2 & Hprime & Hfeed & _).
  set (w0 := mkWorld _ _) in *.
  rewrite (self_of w' w1), (self_of w1 w0).
  - unfold w0. simpl. by erewrite created_entry.
  - by eapply (prime_keeps_all (fun w => gen_self <$> gens w)
                 send_keeps_selves).
  - by eapply (feed_keeps_all (fun w => gen_self <$> gens w)
                 send_keeps_selves).
Qed.

(** After a run that returns, the generator of an encoder that needs a
    corpus pass stands at its [yield], and the generator of any other encoder
    is finished; both are still over their encoder. *)
Lemma run_frame (tensorizers : list (string * nat))
    (data_source : list (gmap string value)) (w w' : world)
    (tr : list event) (i : nat) (name : string) (a : nat) (o : tensorizer) :
  initialize_tensorizers tensorizers data_source w = (Ok tt, w', tr) ->
  tensorizers !! i = Some (name, a) ->
  heap w !! a = Some o ->
  if needs_no_corpus o
  then gens w' !! (length (gens w) + i)%nat = Some (mkGen a Finished)
  else exists fb,
         gens w' !! (length (gens w) + i)%nat = Some (mkGen a (Suspended fb)).
Proof.
  intros Hrun Hi Ha.
  destruct (run_stages _ _ _ _ _ Hrun)
    as (initializers & w1 & tr1 & tr2 & Hprime & Hfeed & _).
  set (inits := seq (length (gens w)) (length tensorizers)) in *.
  set (w0 := mkWorld _ _) in *.
  set (g := (length (gens w) + i)%nat).
  assert (g ∈ inits) as Hin.
  { apply elem_of_seq. apply lookup_lt_Some in Hi. unfold g. lia. }
  assert (gens w0 !! g = Some (mkGen a Created)) as Hg
    by by eapply created_entry.
  pose proof (run_self _ _ _ _ _ i name a Hrun Hi) as Hself. fold g in Hself.
  assert (forall f, frame_of g w' = Some f -> gens w' !! g = Some (mkGen a f))
    as Hframe.
  { unfold frame_of. destruct (gens w' !! g) as [[self f']|]; [|done].
    simpl in *. intros f H. congruence. }
  pose proof (prime_member inits g a o _ _ _ _ Hprime (NoDup_seq _ _) Hin Hg)
    as Hmem.
  destruct (prime_spec _ _ _ _ _ Hprime (NoDup_seq _ _))
    as (_ & _ & _ & Hsus & Hfin & _).
  destruct (feed_spec _ _ _ _ _ Hfeed) as (_ & Hkeep & Hsus').
  destruct (needs_no_corpus o).
  - assert (g ∉ initializers) as Hnot.
    { intros Hmem'. apply Hmem in Hmem'; [done|].
      unfold w0. simpl. by rewrite list_lookup_fmap, Ha. }
    apply Hframe. rewrite Hkeep by done. by apply Hfin.
  - assert (g ∈ initializers) as Hyes.
    { apply Hmem; [|done]. unfold w0. simpl. by rewrite list_lookup_fmap, Ha. }
    destruct (Hsus' g Hyes (Hsus g Hyes)) as [fb Hfb].
    exists fb. by apply Hframe.
Qed.

(** *** What a token coroutine accumulates *)

Lemma add_known (b : VocabBuilder.t) (s : symbol) :
  s ∈ VocabBuilder.counter b -> VocabBuilder.add b s = b.
Proof.
  intros Hin. unfold VocabBuilder.add. rewrite decide_True by done.
  by destruct b.
Qed.

Lemma add_all_known (values : list symbol) :
  forall b,
    (forall s, s ∈ values -> s ∈ VocabBuilder.counter b) ->
    VocabBuilder.add_all b values = b.
Proof.
  unfold VocabBuilder.add_all.
  induction values as [|s values IH]; intros b Hall; simpl; [done|].
  rewrite add_known by apply Hall, list_elem_of_here.
  apply IH. intros s' Hs'. by apply Hall, list_elem_of_further.
Qed.

(** A builder counts distinct symbols: the same symbols added once more
    change nothing. *)
Lemma add_all_twice (b : VocabBuilder.t) (values : list symbol) :
  VocabBuilder.add_all (VocabBuilder.add_all b values) values
  = VocabBuilder.add_all b values.
Proof.
  apply add_all_known. intros s Hs.
  destruct (add_all_spec values b) as [Hc _]. apply Hc. by right.
Qed.

(** The priming call on a generator over another encoder, or over this token
    encoder, which then gets a new builder. *)
Lemma send_none_token (g self a : nat) (w : world) (t : TokenTensorizer.t)
    (X : option VocabBuilder.t) :
  gens w !! g = Some (mkGen self Created) ->
  heap w !! a = Some (TToken (with_vocab_builder t X)) ->
  Vocab.truthy (TokenTensorizer.vocab t) = false ->
  heap (send g None w).2 !! a
  = Some (TToken (with_vocab_builder t
                    (if decide (self = a) then Some VocabBuilder.new else X))).
Proof.
  intros Hg Ha Hfalsy. case_decide as Hself.
  - subst self. unfold send, start. rewrite Hg, Ha. simpl. rewrite Hfalsy.
    simpl. apply list_lookup_insert_eq. by eapply lookup_lt_Some.
  - rewrite send_heap_other; [done|]. rewrite Hg. simpl. congruence.
Qed.

(** A row sent to a generator over this token encoder that returns has gone
    to the builder of the encoder. *)
Lemma send_row_token (g a : nat) (w w1 : world) (t : TokenTensorizer.t)
    (B : VocabBuilder.t) (row : gmap string value) :
  gen_self <$> gens w !! g = Some a ->
  heap w !! a = Some (TToken (with_vocab_builder t (Some B))) ->
  send g (Some row) w = (Ok tt, w1) ->
  exists syms,
    corpus_symbols (TToken t) row = Ok syms /\
    heap w1 !! a
    = Some (TToken (with_vocab_builder t
                      (Some (VocabBuilder.add_all B syms)))).
Proof.
  intros Hg Ha. unfold send.
  destruct (gens w !! g) as [[self f]|]; [|done].
  simpl in Hg. inversion Hg; subst self.
  destruct f as [|fb|]; [done| |done].
  unfold resume, corpus_symbols. rewrite Ha. simpl.
  destruct (get_str row (TokenTensorizer.text_column t)) as [raw_text|e];
    [|done].
  intros H. inversion H; subst. eexists. split; [done|].
  simpl. apply list_lookup_insert_eq. by eapply lookup_lt_Some.
Qed.

Lemma prime_token (inits : list nat) (a : nat) (t : TokenTensorizer.t) :
  forall w initializers w1 tr X,
    prime inits w = (Ok initializers, w1, tr) ->
    NoDup inits ->
    (forall g, g ∈ inits -> exists self, gens w !! g = Some (mkGen self Created)) ->
    heap w !! a = Some (TToken (with_vocab_builder t X)) ->
    Vocab.truthy (TokenTensorizer.vocab t) = false ->
    exists X',
      heap w1 !! a = Some (TToken (with_vocab_builder t X')) /\
      (X' = X \/ X' = Some VocabBuilder.new) /\
      (forall g, g ∈ inits -> gens w !! g = Some (mkGen a Created) ->
                 X' = Some VocabBuilder.new).
Proof.
  induction inits as [|init rest IH];
    intros w initializers w1 tr X Hrun Hnd Hcreated Ha Hfalsy.
  - simpl in Hrun. inversion Hrun; subst. exists X.
    split; [done|]. split; [by left|]. intros g Hg. by apply elem_of_nil in Hg.
  - apply NoDup_cons in Hnd as [Hnotin Hnd]. cbn [prime] in Hrun.
    destruct (Hcreated init (list_elem_of_here _ _)) as [self Hinit].
    pose proof (send_none_token init self a w t X Hinit Ha Hfalsy) as Ha0.
    destruct (send init None w) as [r0 w0] eqn:Hsend. simpl in Ha0.
    destruct (prime rest w0) as [[r w2] tr'] eqn:Hrest.
    assert (forall g, g ∈ rest -> gens w0 !! g = gens w !! g) as Hsame.
    { intros g Hg. pose proof (send_gens_other init g None w) as H.
      rewrite Hsend in H. apply H. intros ->. done. }
    assert (exists initializers', prime rest w0 = (Ok initializers', w1, tr'))
      as [initializers' Hrest'].
    { rewrite Hrest. destruct r0 as [[]|e].
      - destruct r as [inits'|e]; cbn [mbind result_bind] in Hrun; [|done].
        inversion Hrun; subst. by eexists.
      - destruct e; inversion Hrun; subst; by eexists. }
    destruct (IH _ _ _ _ (if decide (self = a) then Some VocabBuilder.new
                          else X) Hrest' Hnd)
      as (X' & Ha1 & Hor & Hnew); [|done|done|].
    { intros g Hg. rewrite Hsame by done. apply Hcreated.
      by apply list_elem_of_further. }
    exists X'. split; [done|]. split.
    + destruct Hor as [-> | ->]; [|by right]. case_decide; [by right|by left].
    + intros g Hg Hga. apply elem_of_cons in Hg as [->|Hg].
      * rewrite Hinit in Hga. inversion Hga; subst self.
        rewrite decide_True in Hor by done. by destruct Hor.
      * apply (Hnew g Hg). by rewrite Hsame.
Qed.

Lemma send_all_token (inits : list nat) (row : gmap string value) (a : nat)
    (t : TokenTensorizer.t) :
  forall w w1 tr B,
    send_all inits row w = (Ok tt, w1, tr) ->
    heap w !! a = Some (TToken (with_vocab_builder t (Some B))) ->
    exists B',
      heap w1 !! a = Some (TToken (with_vocab_builder t (Some B'))) /\
      (B' = B \/
       exists syms, corpus_symbols (TToken t) row = Ok syms /\
                    B' = VocabBuilder.add_all B syms) /\
      (forall g, g ∈ inits -> gen_self <$> gens w !! g = Some a ->
         exists syms, corpus_symbols (TToken t) row = Ok syms /\
                      B' = VocabBuilder.add_all B syms).
Proof.
  induction inits as [|init rest IH]; intros w w1 tr B Hrun Ha.
  - simpl in Hrun. inversion Hrun; subst. exists B.
    split; [done|]. split; [by left|]. intros g Hg. by apply elem_of_nil in Hg.
  - cbn [send_all] in Hrun.
    destruct (send init (Some row) w) as [r0 w0] eqn:Hsend.
    destruct r0 as [[]|e]; [|done].
    destruct (send_all rest row w0) as [[r w2] tr'] eqn:Hrest.
    inversion Hrun; subst. clear Hrun.
    destruct (decide (gen_self <$> gens w !! init = Some a)) as [Hon|Hoff].
    + destruct (send_row_token init a w w0 t B row Hon Ha Hsend)
        as (syms & Hsyms & Ha0).
      destruct (IH _ _ _ _ Hrest Ha0) as (B' & Ha1 & Hor & _).
      assert (B' = VocabBuilder.add_all B syms) as ->.
      { destruct Hor as [->|(syms' & Hsyms' & ->)]; [done|].
        rewrite Hsyms in Hsyms'. inversion Hsyms'; subst.
        apply add_all_twice. }
      exists (VocabBuilder.add_all B syms). split; [done|].
      split; [right|intros g _ _]; by exists syms.
    + assert (heap w0 !! a
              = Some (TToken (with_vocab_builder t (Some B)))) as Ha0.
      { pose proof (send_heap_other init a (Some row) w Hoff) as H.
        rewrite Hsend in H. simpl in H. by rewrite H. }
      destruct (IH _ _ _ _ Hrest Ha0) as (B' & Ha1 & Hor & Hin).
      exists B'. split; [done|]. split; [done|].
      intros g Hg Hga. apply elem_of_cons in Hg as [->|Hg]; [done|].
      apply (Hin g Hg). rewrite <- Hga. apply self_of.
      pose proof (send_keeps_selves init (Some row) w) as H.
      by rewrite Hsend in H.
Qed.

Lemma feed_token (data_source : list (gmap string value)) (inits : list nat)
    (g a : nat) (t : TokenTensorizer.t) :
  forall w w1 tr B,
    feed data_source inits w = (Ok tt, w1, tr) ->
    g ∈ inits ->
    gen_self <$> gens w !! g = Some a ->
    heap w !! a = Some (TToken (with_vocab_builder t (Some B))) ->
    exists symss,
      mapR (corpus_symbols (TToken t)) data_source = Ok symss /\
      heap w1 !! a
      = Some (TToken (with_vocab_builder t
                        (Some (foldl VocabBuilder.add_all B symss)))).
Proof.
  induction data_source as [|row rest IH]; intros w w1 tr B Hrun Hin Hg Ha.
  - simpl in Hrun. inversion Hrun; subst. by exists [].
  - cbn [feed] in Hrun.
    destruct (send_all inits row w) as [[r0 w0] tr0] eqn:Hsend.
    destruct r0 as [[]|e]; [|done].
    destruct (feed rest inits w0) as [[r w2] tr'] eqn:Hrest.
    inversion Hrun; subst. clear Hrun.
    destruct (send_all_token _ _ a t _ _ _ B Hsend Ha) as (B' & Ha0 & _ & Hon).
    destruct (Hon g Hin Hg) as (syms & Hsyms & ->).
    assert (gen_self <$> gens w0 !! g = Some a) as Hg0.
    { rewrite <- Hg. apply self_of.
      by eapply (send_all_keeps_all (fun w => gen_self <$> gens w)
                   send_keeps_selves). }
    destruct (IH _ _ _ _ Hrest Hin Hg0 Ha0) as (symss & Hrows & Ha1).
    exists (syms :: symss). cbn [mapR]. rewrite Hsyms, Hrows. done.
Qed.

Lemma with_vocab_builder_eta (t : TokenTensorizer.t) :
  with_vocab_builder t (TokenTensorizer.vocab_builder t) = t.
Proof. by destruct t. Qed.

(** After a run that returns, a token encoder without a vocabulary holds a
    builder that was given the token values of every row, in source
    order. *)
Lemma run_token (tensorizers : list (string * nat))
    (data_source : list (gmap string value)) (w w' : world)
    (tr : list event) (i : nat) (name : string) (a : nat)
    (t : TokenTensorizer.t) :
  initialize_tensorizers tensorizers data_source w = (Ok tt, w', tr) ->
  tensorizers !! i = Some (name, a) ->
  heap w !! a = Some (TToken t) ->
  Vocab.truthy (TokenTensorizer.vocab t) = false ->
  exists symss,
    mapR (corpus_symbols (TToken t)) data_source = Ok symss /\
    heap w' !! a
    = Some (TToken (with_vocab_builder t
                      (Some (foldl VocabBuilder.add_all VocabBuilder.new
                               symss)))).
Proof.
  intros Hrun Hi Ha Hfalsy.
  destruct (run_stages _ _ _ _ _ Hrun)
    as (initializers & w1 & tr1 & tr2 & Hprime & Hfeed & _).
  set (inits := seq (length (gens w)) (length tensorizers)) in *.
  set (w0 := mkWorld _ _) in *.
  set (g := (length (gens w) + i)%nat).
  assert (g ∈ inits) as Hin.
  { apply elem_of_seq. apply lookup_lt_Some in Hi. unfold g. lia. }
  assert (gens w0 !! g = Some (mkGen a Created)) as Hg
    by by eapply created_entry.
  destruct (prime_token inits a t w0 _ _ _ (TokenTensorizer.vocab_builder t)
              Hprime (NoDup_seq _ _)) as (X' & Ha1 & _ & Hnew); [| |done|].
  { intros g' Hg'.
    destruct (created_generator tensorizers w g' Hg')
      as (i' & name' & a' & -> & Hi').
    exists a'. by eapply created_entry. }
  { by rewrite with_vocab_builder_eta. }
  rewrite (Hnew g Hin Hg) in Ha1.
  assert (g ∈ initializers) as Hmem.
  { apply (prime_member inits g a (TToken t) _ _ _ _ Hprime (NoDup_seq _ _)
             Hin Hg); [|done].
    unfold w0. simpl. by rewrite list_lookup_fmap, Ha. }
  apply (feed_token data_source initializers g a t w1 w' tr2 _ Hfeed Hmem);
    [|done].
  rewrite (self_of w1 w0), Hg; [done|].
  by eapply (prime_keeps_all (fun w => gen_self <$> gens w) send_keeps_selves).
Qed.

(** *** The state the row loop leaves *)

(** After a run that returns, the generator of an encoder that needs a
    corpus pass stands at its [yield], and the builder, in the frame of a
    label coroutine and in the encoder of a token coroutine, was given the
    symbols of every row, in source order. *)
Lemma run_entry (tensorizers : list (string * nat))
    (data_source : list (gmap string value)) (w w' : world)
    (tr : list event) (i : nat) (name : string) (a : nat) (o : tensorizer) :
  initialize_tensorizers tensorizers data_source w = (Ok tt, w', tr) ->
  tensorizers !! i = Some (name, a) ->
  heap w !! a = Some o ->
  needs_no_corpus o = false ->
  exists symss,
    mapR (corpus_symbols o) data_source = Ok symss /\
    (exists fb,
       gens w' !! (length (gens w) + i)%nat = Some (mkGen a (Suspended fb)) /\
       (has_local_builder o = true ->
        fb = Some (foldl VocabBuilder.add_all (fresh_builder o) symss))) /\
    heap w' !! a
    = Some (accumulating o (foldl VocabBuilder.add_all (fresh_builder o) symss)).
Proof.
  intros Hrun Hi Ha Hneeds.
  pose proof (run_frame _ _ _ _ _ i name a o Hrun Hi Ha) as Hframe.
  rewrite Hneeds in Hframe. destruct Hframe as [fb Hfb].
  destruct o as [t| |t| | |t|]; try done.
  - destruct (run_token _ _ _ _ _ i name a t Hrun Hi Ha Hneeds)
      as (symss & Hsyms & Ha').
    exists symss. split; [done|]. split; [|done]. exists fb. by split.
  - destruct (run_label _ _ _ _ _ i name a (TLabel t) _ Hrun Hi Ha eq_refl
                eq_refl) as (symss & Hsyms & Hg & Ha').
    exists symss. split; [done|]. split; [|done]. eexists. by split.
  - destruct (run_label _ _ _ _ _ i name a (TWordLabel t) _ Hrun Hi Ha eq_refl
                eq_refl) as (symss & Hsyms & Hg & Ha').
    exists symss. split; [done|]. split; [|done]. eexists. by split.
Qed.

(** *** Closing a generator *)

Lemma close_keeps_selves (g : nat) (w : world) :
  gen_self <$> gens (close g w) = gen_self <$> gens w.
Proof.
  unfold close.
  case_matches; rewrite ?gens_set_object, ?set_frame_selves; done.
Qed.

Lemma close_gens_other (g g' : nat) (w : world) :
  g' <> g -> gens (close g w) !! g' = gens w !! g'.
Proof.
  intros Hne. unfold close.
  case_matches; rewrite ?gens_set_object, ?gens_set_frame_ne by done; done.
Qed.

(** Closing a generator touches no encoder but its own. *)
Lemma close_heap_other (g a : nat) (w : world) :
  gen_self <$> gens w !! g <> Some a ->
  heap (close g w) !! a = heap w !! a.
Proof.
  unfold close. destruct (gens w !! g) as [[self f]|]; [|done].
  simpl. intros Hne. assert (self <> a) as Hself by congruence.
  case_matches; rewrite ?heap_set_frame; try done;
    unfold set_object; simpl; by rewrite list_lookup_insert_ne.
Qed.

(** Closing a generator at its [yield] runs the handler: the encoder gets
    the vocabulary of the builder, whether or not the handler of another
    generator over the same encoder has run before. *)
Lemma close_entry (g a : nat) (w : world) (o : tensorizer)
    (b : VocabBuilder.t) (fb : option VocabBuilder.t) :
  gens w !! g = Some (mkGen a (Suspended fb)) ->
  (has_local_builder o = true -> fb = Some b) ->
  needs_no_corpus o = false ->
  heap w !! a = Some (accumulating o b) \/
  heap w !! a = Some (initialized o b) ->
  heap (close g w) !! a = Some (initialized o b) /\
  gens (close g w) !! g = Some (mkGen a Finished).
Proof.
  intros Hg Hfb Hneeds Ha.
  assert (a < length (heap w))%nat as Hlt.
  { destruct Ha as [Ha|Ha]; by eapply lookup_lt_Some. }
  assert (gens (set_frame g Finished w) !! g = Some (mkGen a Finished))
    as Hfin by by eapply gens_set_frame_eq.
  unfold close. rewrite Hg. rewrite heap_set_frame.
  destruct o as [t| |t| | |t|]; try done.
  - destruct Ha as [Ha|Ha]; rewrite Ha; simpl;
      (split; [by apply list_lookup_insert_eq|done]).
  - rewrite Hfb by done.
    destruct Ha as [Ha|Ha]; rewrite Ha; simpl;
      (split; [by apply list_lookup_insert_eq|done]).
  - rewrite Hfb by done.
    destruct Ha as [Ha|Ha]; rewrite Ha; simpl;
      (split; [by apply list_lookup_insert_eq|done]).
Qed.

Lemma close_keeps_finished (g g' : nat) (w : world) :
  frame_of g w = Some Finished -> frame_of g (close g' w) = Some Finished.
Proof.
  intros Hf. destruct (decide (g = g')) as [->|Hne].
  - by rewrite close_finished.
  - unfold frame_of in *. by rewrite close_gens_other.
Qed.

(** *** Finalization *)

Lemma finalize_keeps_selves (order : list nat) :
  forall w, gen_self <$> gens (finalize order w) = gen_self <$> gens w.
Proof.
  unfold finalize.
  induction order as [|g rest IH]; intros w; simpl; [done|].
  by rewrite IH, close_keeps_selves.
Qed.

Lemma finalize_keeps_finished (order : list nat) (g : nat) :
  forall w,
    frame_of g w = Some Finished ->
    frame_of g (finalize order w) = Some Finished.
Proof.
  unfold finalize.
  induction order as [|g' rest IH]; intros w Hf; simpl; [done|].
  by apply IH, close_keeps_finished.
Qed.

(** Every generator the runtime reaches is finished. *)
Lemma finalize_finished (order : list nat) (g : nat) :
  forall w,
    g ∈ order ->
    is_Some (gens w !! g) ->
    frame_of g (finalize order w) = Some Finished.
Proof.
  induction order as [|g' rest IH]; intros w Hin Hg.
  - by apply elem_of_nil in Hin.
  - change (finalize (g' :: rest) w) with (finalize rest (close g' w)).
    destruct (decide (g = g')) as [->|Hne].
    + by apply finalize_keeps_finished, close_finishes.
    + apply elem_of_cons in Hin as [Heq|Hin]; [done|].
      apply IH; [done|]. by rewrite close_gens_other.
Qed.

Lemma finalizing_close (created : list nat) (a : nat) (o : tensorizer)
    (b : VocabBuilder.t) (g : nat) (w : world) :
  needs_no_corpus o = false ->
  g ∈ created ->
  finalizing created a o b w ->
  finalizing created a o b (close g w).
Proof.
  intros Hneeds Hg [Ha Hgens]. unfold finalizing.
  destruct (decide (gen_self <$> gens w !! g = Some a)) as [Hon|Hoff].
  - destruct (Hgens g Hg Hon) as [[Hfin _]|(fb & Hsus & Hfb)].
    + rewrite close_finished; [done|]. unfold frame_of. by rewrite Hfin.
    + destruct (close_entry g a w o b fb Hsus Hfb Hneeds Ha) as [Ha' Hg'].
      split; [by right|]. intros g' Hg'in Hg'on.
      destruct (decide (g' = g)) as [->|Hne]; [by left|].
      rewrite close_gens_other by done.
      rewrite (self_of _ w), <- list_lookup_fmap in Hg'on
        by apply close_keeps_selves.
      rewrite list_lookup_fmap in Hg'on.
      destruct (Hgens g' Hg'in Hg'on) as [[Hfin _]|Hsus']; [by left|by right].
  - rewrite close_heap_other by done. split; [done|].
    intros g' Hg'in Hg'on.
    rewrite (self_of _ w) in Hg'on by apply close_keeps_selves.
    assert (g' <> g) as Hne by (intros ->; done).
    rewrite close_gens_other by done. by apply Hgens.
Qed.

Lemma finalizing_finalize (created : list nat) (a : nat) (o : tensorizer)
    (b : VocabBuilder.t) (order : list nat) :
  forall w,
    needs_no_corpus o = false ->
    (forall g, g ∈ order -> g ∈ created) ->
    finalizing created a o b w ->
    finalizing created a o b (finalize order w).
Proof.
  induction order as [|g rest IH]; intros w Hneeds Hsub Hinv; [done|].
  change (finalize (g :: rest) w) with (finalize rest (close g w)).
  apply IH; [done| |].
  - intros g' Hg'. by apply Hsub, list_elem_of_further.
  - apply finalizing_close; [done| |done]. apply Hsub, list_elem_of_here.
Qed.

(** When the row loop has ended, the encoder of an entry that needs a
    corpus pass and the generators over it are ready to be finalized. *)
Lemma run_finalizing (tensorizers : list (string * nat))
    (data_source : list (gmap string value)) (w w' : world)
    (tr : list event) (i : nat) (name : string) (a : nat) (o : tensorizer)
    (symss : list (list symbol)) :
  initialize_tensorizers tensorizers data_source w = (Ok tt, w', tr) ->
  tensorizers !! i = Some (name, a) ->
  heap w !! a = Some o ->
  needs_no_corpus o = false ->
  mapR (corpus_symbols o) data_source = Ok symss ->
  finalizing (seq (length (gens w)) (length tensorizers)) a o
    (foldl VocabBuilder.add_all (fresh_builder o) symss) w'.
Proof.
  intros Hrun Hi Ha Hneeds Hsyms. split.
  - destruct (run_entry _ _ _ _ _ i name a o Hrun Hi Ha Hneeds)
      as (symss' & Hsyms' & _ & Ha').
    rewrite Hsyms in Hsyms'. inversion Hsyms'; subst. by left.
  - intros g Hg Hon.
    destruct (created_generator tensorizers w g Hg)
      as (i' & name' & a' & -> & Hi').
    assert (a' = a) as ->.
    { rewrite (run_self _ _ _ _ _ i' name' a' Hrun Hi') in Hon.
      by inversion Hon. }
    destruct (run_entry _ _ _ _ _ i' name' a o Hrun Hi' Ha Hneeds)
      as (symss' & Hsyms' & (fb & Hfb & Hb) & _).
    rewrite Hsyms in Hsyms'. inversion Hsyms'; subst.
    right. by exists fb.
Qed.

(** The function changes no encoder but for the builder attribute of the
    token encoders: no vocabulary is set before the row loop has ended. *)
Lemma run_keeps_encoders (tensorizers : list (string * nat))
    (data_source : list (gmap string value)) (w w' : world)
    (tr : list event) :
  initialize_tensorizers tensorizers data_source w = (Ok tt, w', tr) ->
  without_builder <$> heap w' = without_builder <$> heap w.
Proof.
  intros Hrun.
  destruct (run_stages _ _ _ _ _ Hrun)
    as (initializers & w1 & tr1 & tr2 & Hprime & Hfeed & _).
  apply (prime_keeps_all (fun w => without_builder <$> heap w)
           send_keeps_encoders) in Hprime.
  apply (feed_keeps_all (fun w => without_builder <$> heap w)
           send_keeps_encoders) in Hfeed.
  simpl in Hprime. congruence.
Qed.

(** C2 as stated fails: over one label encoder and the corpus of the one
    row "a,b", the calls the function makes on the generator are the priming
    and the sending of the row, and that is all: it makes no [close] call.
    When the row loop has ended the generator stands at its [yield] and the
    vocabulary of the encoder is not set; it is set when the generator is
    finalized, as the returning call drops it. *)
Lemma initialize_tensorizers_makes_no_close :
  exists (w : world) (builder : VocabBuilder.t),
    initialize_tensorizers [("label", 0%nat)] [label_row "a,b"] label_world
    = (Ok tt, w, [Primed 0 true; Sent 0 (label_row "a,b")]) /\
    frame_of 0 w = Some (Suspended (Some builder)) /\
    VocabBuilder.counter builder = [Word "a"; Word "b"] /\
    heap w = [TLabel (LabelTensorizer.mk "label" false None)] /\
    heap (finalize [0%nat] w)
    = [TLabel (LabelTensorizer.mk "label" false
                 (Some (Vocab.mk [Word "a"; Word "b"])))].
Proof. eexists _, _. repeat split; by vm_compute. Qed.

(** C2, amended: when no initializer raises, [initialize_tensorizers] makes
    no [close] call and sets no vocabulary.  The generator of an encoder that
    needs no corpus pass is primed, gets no row and is finished.  The
    generator of an encoder that needs one is primed and gets every row of
    the data source, in source order; when the row loop has ended it stands
    at its [yield], and the encoder is as before the call but for the builder
    of a token encoder, which holds the symbols of all the rows.  The
    terminal action is left to the finalization of the generators: in
    whatever order the generators made by the call are closed, this generator
    is then finished and its encoder holds the vocabulary frozen from the
    builder that was given the symbols of all the rows, also when several
    generators are over the same encoder; closing the generator once more
    changes nothing. *)
Theorem initialize_tensorizers_streams (tensorizers : list (string * nat))
    (data_source : list (gmap string value)) (w w' : world)
    (tr : list event) :
  initialize_tensorizers tensorizers data_source w = (Ok tt, w', tr) ->
  (forall g : nat, Closed g ∉ tr) /\
  without_builder <$> heap w' = without_builder <$> heap w /\
  forall (i : nat) (name : string) (a : nat) (o : tensorizer),
    tensorizers !! i = Some (name, a) ->
    heap w !! a = Some o ->
    let g := (length (gens w) + i)%nat in
    if needs_no_corpus o then
      Primed g false ∈ tr /\
      sent_to g tr = [] /\
      frame_of g w' = Some Finished
    else
      Primed g true ∈ tr /\
      sent_to g tr = data_source /\
      exists symss : list (list symbol),
        mapR (corpus_symbols o) data_source = Ok symss /\
        let b := foldl VocabBuilder.add_all (fresh_builder o) symss in
        (exists fb, frame_of g w' = Some (Suspended fb)) /\
        heap w' !! a = Some (accumulating o b) /\
        forall order : list nat,
          g ∈ order ->
          (forall g', g' ∈ order ->
             (length (gens w) <= g' < length (gens w) + length tensorizers)%nat) ->
          frame_of g (finalize order w') = Some Finished /\
          heap (finalize order w') !! a = Some (initialized o b) /\
          close g (finalize order w') = finalize order w'.
Proof.
  intros Hrun.
  destruct (run_trace _ _ _ _ _ Hrun) as [Htrace Hclosed].
  split; [done|]. split; [by eapply run_keeps_encoders|].
  intros i name a o Hi Ha g.
  assert (length (gens w) <= g < length (gens w) + length tensorizers)%nat
    as Hrange.
  { apply lookup_lt_Some in Hi. unfold g. lia. }
  pose proof (run_frame _ _ _ _ _ i name a o Hrun Hi Ha) as Hframe.
  fold g in Hframe.
  destruct (needs_no_corpus o) eqn:Hneeds.
  - assert (frame_of g w' = Some Finished) as Hfin
      by (unfold frame_of; by rewrite Hframe).
    destruct (Htrace g Hrange) as [(_ & _ & [fb Hsus] & _)|(Hp & Hs & _)];
      [congruence|done].
  - destruct Hframe as [fb Hfb].
    assert (frame_of g w' = Some (Suspended fb)) as Hsus
      by (unfold frame_of; by rewrite Hfb).
    destruct (Htrace g Hrange) as [(Hp & Hs & _)|(_ & _ & Hfin)];
      [|congruence].
    split; [done|]. split; [done|].
    destruct (run_entry _ _ _ _ _ i name a o Hrun Hi Ha Hneeds)
      as (symss & Hsyms & _ & Ha').
    exists symss. split; [done|]. intros b.
    split; [by exists fb|]. split; [done|].
    intros order Hin Hsub.
    assert (frame_of g (finalize order w') = Some Finished) as Hdone.
    { apply finalize_finished; [done|]. by rewrite Hfb. }
    split; [done|]. split; [|by apply close_finished].
    pose proof (run_finalizing _ _ _ _ _ i name a o symss Hrun Hi Ha Hneeds
                  Hsyms) as Hinv.
    apply (finalizing_finalize _ a o b order w' Hneeds) in Hinv.
    + destruct Hinv as [_ Hgens].
      destruct (Hgens g) as [[_ Hinit]|(fb' & Hfb' & _)]; [| |done|].
      * apply elem_of_seq. lia.
      * rewrite (self_of _ w') by apply finalize_keeps_selves.
        by rewrite Hfb.
      * unfold frame_of in Hdone. rewrite Hfb' in Hdone. done.
    + intros g' Hg'. apply elem_of_seq. specialize (Hsub g' Hg'). lia.
Qed.

Lemma initialize_tensorizers_streams_witness :
  (initialize_tensorizers mixed_tensorizers corpus mixed_world).1.1 = Ok tt /\
  Primed 1 true ∈ (initialize_tensorizers mixed_tensorizers corpus mixed_world).2 /\
  sent_to 1 (initialize_tensorizers mixed_tensorizers corpus mixed_world).2
  = corpus /\
  exists symss : list (list symbol),
    mapR (corpus_symbols
            (TToken (TokenTensorizer.init "text" space_tokenize false false
                       false None None))) corpus = Ok symss /\
    heap (initialize_tensorizers mixed_tensorizers corpus mixed_world).1.2
      !! 1%nat
    = Some (accumulating
              (TToken (TokenTensorizer.init "text" space_tokenize false false
                         false None None))
              (foldl VocabBuilder.add_all VocabBuilder.new symss)) /\
    heap (finalize [0; 1; 2]%nat
            (initialize_tensorizers mixed_tensorizers corpus mixed_world).1.2)
      !! 1%nat
    = Some (initialized
              (TToken (TokenTensorizer.init "text" space_tokenize false false
                         false None None))
              (foldl VocabBuilder.add_all VocabBuilder.new symss)).
Proof.
  set (run := initialize_tensorizers mixed_tensorizers corpus mixed_world).
  assert (run = (Ok tt, run.1.2, run.2)) as Hrun by (vm_compute; reflexivity).
  split; [vm_compute; reflexivity|].
  destruct (proj2 (proj2 (initialize_tensorizers_streams mixed_tensorizers
                            corpus mixed_world run.1.2 run.2 Hrun))
              1%nat "tokens" 1%nat
              (TToken (TokenTensorizer.init "text" space_tokenize false false
                         false None None)) eq_refl eq_refl)
    as (Hprimed & Hsent & symss & Hsyms & _ & Hheap & Hfinal).
  split; [exact Hprimed|]. split; [exact Hsent|].
  exists symss. split; [exact Hsyms|]. split; [exact Hheap|].
  destruct (Hfinal [0; 1; 2]%nat) as (_ & Hinit & _).
  - apply list_elem_of_further, list_elem_of_here.
  - intros g' Hg'. simpl.
    repeat (apply elem_of_cons in Hg' as [->|Hg']; [lia|]).
    by apply elem_of_nil in Hg'.
  - exact Hinit.
Defined.

End StreamingEncoders.

(** ** The streaming initializer: order of the calls, whatever the outcome *)

Section StreamingOrder.






End StreamingOrder.

(** ** Token counts *)

Section TokenCounts.
Import NtokensTensorizer.

Lemma sum_index_lengths (rows : list (list nat * nat)) :
  forall acc,
    (forall row, row ∈ rows -> row.2 = length row.1) ->
    sum_index (map token_sample rows) 1 acc
    = Ok (acc + Z.of_nat (list_sum (map (fun row => length row.1) rows))).
Proof.
  induction rows as [|row rows IH]; intros acc Hlen; simpl.
  - f_equal. lia.
  - rewrite IH.
    + rewrite (Hlen row) by apply list_elem_of_here. f_equal. lia.
    + intros row' Hin. apply Hlen. by apply list_elem_of_further.
Qed.

Lemma token_numberize_reports_length (self : TokenTensorizer.t)
    (r : gmap string value) (row : list nat * nat) :
  TokenTensorizer.numberize self r = Ok row -> row.2 = length row.1.
Proof.
  destruct row as [ids n]. unfold TokenTensorizer.numberize.
  destruct (get_str r (TokenTensorizer.text_column self)) as [text|e]; [|done].
  cbn [mbind result_bind].
  destruct (TokenTensorizer._lookup_tokens self text) as [[[tokens ?] ?]|e];
    [|done].
  cbn [mbind result_bind]. intros H. by inversion H.
Qed.

(** X22: Over one field that holds rows numberized by token encoders, read at
    index 1, [tensorize] is the number of token ids of the batch. *)
Theorem ntokens_counts_token_ids (name : string)
    (batch : gmap string (list (list pyval))) (rows : list (list nat * nat)) :
  batch !! name = Some (map token_sample rows) ->
  (forall row, row ∈ rows ->
     exists self r, TokenTensorizer.numberize self r = Ok row) ->
  tensorize (mk [name] [1]) batch
  = Ok (Z.of_nat (list_sum (map (fun row => length row.1) rows))).
Proof.
  intros Hfield Hrows. unfold tensorize. simpl. rewrite Hfield.
  rewrite sum_index_lengths; [done|].
  intros row Hin. destruct (Hrows row Hin) as (self & r & Hnum).
  by eapply token_numberize_reports_length.
Qed.

Lemma ntokens_counts_token_ids_witness :
  tensorize (mk ["tokens"] [1])
    {[ "tokens" := map token_sample [([2; 0; 4]%nat, 3%nat); ([2]%nat, 1%nat)] ]}
  = Ok 4.
Proof.
  apply (ntokens_counts_token_ids "tokens"
           {[ "tokens" := map token_sample
                            [([2; 0; 4]%nat, 3%nat); ([2]%nat, 1%nat)] ]}
           [([2; 0; 4]%nat, 3%nat); ([2]%nat, 1%nat)]).
  - reflexivity.
  - intros row Hin. exists (token_encoder false false None).
    apply elem_of_cons in Hin as [->|Hin].
    + by exists (text_row "play a song").
    + apply list_elem_of_singleton in Hin. subst.
      by exists (text_row "play").
Defined.

Lemma combine_app_l {A B} (l1 l1' : list A) (l2 : list B) :
  length l1 = length l2 -> combine (l1 ++ l1') l2 = combine l1 l2.
Proof.
  revert l2. induction l1 as [|a l1 IH]; intros [|b l2] Hlen; simpl in *;
    try done.
  - by destruct l1'.
  - f_equal. apply IH. lia.
Qed.

(** X23: The names and the indexes are paired off: a name without an index, or
    an index without a name, is never read, whether the batch has such a
    field or not. *)
Theorem ntokens_ignores_unpaired (names more_names : list string)
    (indexes more_indexes : list Z)
    (batch : gmap string (list (list pyval))) :
  length names = length indexes ->
  tensorize (mk (names ++ more_names) indexes) batch
  = tensorize (mk names indexes) batch /\
  tensorize (mk names (indexes ++ more_indexes)) batch
  = tensorize (mk names indexes) batch.
Proof.
  intros Hlen. unfold tensorize. simpl. split.
  - by rewrite combine_app_l.
  - f_equal. revert indexes Hlen.
    induction names as [|n names IH]; intros [|i indexes] Hlen; simpl in *;
      try done.
    f_equal. apply IH. lia.
Qed.

Lemma ntokens_ignores_unpaired_witness :
  tensorize (mk ["tokens"] [1]) token_batch = Ok 4 /\
  tensorize (mk (["tokens"] ++ ["missing"]) [1]) token_batch
  = tensorize (mk ["tokens"] [1]) token_batch /\
  tensorize (mk ["tokens"] ([1] ++ [0])) token_batch
  = tensorize (mk ["tokens"] [1]) token_batch.
Proof.
  split; [reflexivity|].
  apply (ntokens_ignores_unpaired ["tokens"] ["missing"] [1] [0] token_batch).
  reflexivity.
Defined.

End TokenCounts.

(** ** A coroutine that raises *)

Section RaisingCoroutine.

(** X21: An exception raised in the loop of an [initialize] coroutine is not
    caught by its [GeneratorExit] handler: the generator is finished without
    its terminal action, and closing it afterwards freezes no vocabulary. *)
Theorem send_raise_finishes (g : nat) (row : gmap string value) (w w1 : world)
    (e : exn) (b : option VocabBuilder.t) :
  frame_of g w = Some (Suspended b) ->
  send g (Some row) w = (Raise e, w1) ->
  frame_of g w1 = Some Finished /\
  heap w1 = heap w /\
  close g w1 = w1.
Proof.
  intros Hf Hsend.
  assert (frame_of g w1 = Some Finished /\ heap w1 = heap w) as [H1 H2].
  { unfold frame_of in Hf. unfold send in Hsend.
    destruct (gens w !! g) as [[self f]|] eqn:Hg; [|done].
    simpl in Hf. inversion Hf; subst.
    assert (is_Some (gens w !! g)) as Hsome by by eexists.
    unfold resume in Hsend. revert Hsend.
    case_matches; intros H; inversion H; subst;
      by rewrite frame_of_set_frame. }
  split; [done|]. split; [done|]. by apply close_finished.
Qed.

Lemma send_raise_finishes_witness :
  close 0 (send 0 (Some (text_row "no label"))
             (initialize_tensorizers [("label", 0%nat)] [] label_world).1.2).2
  = (send 0 (Some (text_row "no label"))
       (initialize_tensorizers [("label", 0%nat)] [] label_world).1.2).2.
Proof.
  set (w := (initialize_tensorizers [("label", 0%nat)] [] label_world).1.2).
  assert (send 0 (Some (text_row "no label")) w
          = (Raise (KeyError "label"),
             (send 0 (Some (text_row "no label")) w).2)) as Hsend
    by (vm_compute; reflexivity).
  exact (proj2 (proj2 (send_raise_finishes 0 (text_row "no label") w _
                         (KeyError "label") _ eq_refl Hsend))).
Defined.

End RaisingCoroutine.
